(** * ChordAI: data augmentation, vocabulary codec, dataset split and
    autoregressive generation.

    A shallow embedding of the algorithmic core of the repository:
    - [data-collection/augment_transposition.py]  (module [Transposition])
    - [data-collection/augment_variations.py]     (modules [Variations]
                                                   and [VariationAugment])
    - [model-training/data_preprocessing.py]      (modules [Preprocessing]
                                                   and [Dataset])
    - [model-training/data_generator.py] and
      [model-training/evaluate_model.py]          (modules [Generation]
                                                   and [DataGenerator])
    - [model-training/evaluate_comprehensive.py]  (module [Evaluation])

    Python [str] values are modelled by [string] (chord symbols are ASCII),
    Python [int] by [Z], Python [float] by binary64 [float] where only
    arithmetic is involved (the split ratios) and by [R] where [exp] is
    needed (the scores of the model: rounding is left out, but not the
    underflow of [exp] to zero nor the NaN probabilities that a zero
    temperature or an overflow produce), Python [dict] by
    association lists (literal tables, whose iteration order is used) or
    [gmap] (vocabularies), Python [set] by [gset]. Exceptions are results
    [Raise e]; the state of the [random] module is threaded explicitly and
    the draws of [np.random.choice] are given by an oracle. *)

From Stdlib Require Import ZArith String Ascii OrderedTypeEx Reals Lra Floats.
From stdpp Require Import base list strings gmap sorting.

(* Decimal float literals denote the nearest binary64 value, as in Python. *)
#[local] Set Warnings "-inexact-float".

Local Open Scope string_scope.
Local Open Scope Z_scope.

(** ** Python string and list primitives *)

Module Py.

(** [s[:n]] for [0 <= n] *)
Fixpoint str_take (n : nat) (s : string) : string :=
  match n, s with
  | S n', String c s' => String c (str_take n' s')
  | _, _ => EmptyString
  end.

(** [s[n:]] for [0 <= n] *)
Fixpoint str_drop (n : nat) (s : string) : string :=
  match n, s with
  | S n', String _ s' => str_drop n' s'
  | _, _ => s
  end.

(** [c in s] for a one-character [c] *)
Fixpoint str_contains (c : ascii) (s : string) : bool :=
  match s with
  | EmptyString => false
  | String c' s' => if Ascii.eqb c c' then true else str_contains c s'
  end.

(** [s[i] in cs]; [false] when [i] is out of range (the callers test the
    length first) *)
Definition char_at_in (i : nat) (s : string) (cs : list ascii) : bool :=
  match String.get i s with
  | Some c => bool_decide (c ∈ cs)
  | None => false
  end.

(** [s[i] == c], guarded as above *)
Definition char_at_is (i : nat) (s : string) (c : ascii) : bool :=
  char_at_in i s [c].

(** [x in l] for a list *)
Definition list_in (x : string) (l : list string) : bool :=
  bool_decide (x ∈ l).

(** [l.index(x)], [None] standing for [ValueError] *)
Fixpoint list_index (x : string) (l : list string) : option nat :=
  match l with
  | [] => None
  | y :: l' => if String.eqb x y then Some 0%nat else S <$> list_index x l'
  end.

(** [d.get(k)] / [k in d] / [d[k]] on a literal dict kept as its item list *)
Fixpoint dict_get {V} (k : string) (d : list (string * V)) : option V :=
  match d with
  | [] => None
  | (k', v) :: d' => if String.eqb k k' then Some v else dict_get k d'
  end.

(** [l[:n]] and [l[n:]] with Python's treatment of a negative bound *)
Definition slice_to {A} (n : Z) (l : list A) : list A :=
  if 0 <=? n then take (Z.to_nat n) l
  else take (Z.to_nat (Z.of_nat (length l) + n)) l.

Definition slice_from {A} (n : Z) (l : list A) : list A :=
  if 0 <=? n then drop (Z.to_nat n) l
  else drop (Z.to_nat (Z.of_nat (length l) + n)) l.

(** [l[a:b]] *)
Definition slice {A} (a b : Z) (l : list A) : list A :=
  let len := Z.of_nat (length l) in
  let clamp i := if 0 <=? i then Z.min i len else Z.max (len + i) 0 in
  let lo := clamp a in
  let hi := clamp b in
  take (Z.to_nat (hi - lo)) (drop (Z.to_nat lo) l).

(** Exceptions the modelled code can raise, and results of fallible code. *)
Inductive exn :=
  AssertionError | KeyError | ValueError | IndexError | OverflowError.

Inductive result (A : Type) :=
| Ok (a : A)
| Raise (e : exn).
Global Arguments Ok {A} a.
Global Arguments Raise {A} e.

Definition bind {A B} (r : result A) (k : A → result B) : result B :=
  match r with
  | Ok a => k a
  | Raise e => Raise e
  end.

Global Instance result_ret : MRet result := λ A a, Ok a.
Global Instance result_bind : MBind result := λ A B k r, bind r k.

Definition of_option {A} (e : exn) (o : option A) : result A :=
  match o with
  | Some a => Ok a
  | None => Raise e
  end.

(** [len(l)] *)
Definition len {A} (l : list A) : Z := Z.of_nat (length l).

(** [enumerate(l)] *)
Fixpoint enumerate_from {A} (i : Z) (l : list A) : list (Z * A) :=
  match l with
  | [] => []
  | x :: l' => (i, x) :: enumerate_from (i + 1) l'
  end.
Definition enumerate {A} (l : list A) : list (Z * A) := enumerate_from 0 l.

(** [{k: v for k, v in items}]: later items overwrite earlier ones. *)
Definition dict_of_items `{Countable K} {V} (items : list (K * V))
  : gmap K V :=
  fold_left (λ d item, <[item.1 := item.2]> d) items ∅.

(** Python's order on [str]: lexicographic on the characters' codes. *)
Definition str_le (s1 s2 : string) : Prop := String.leb s1 s2 = true.
Global Instance str_le_dec : RelDecision str_le.
Proof. intros s1 s2. unfold str_le. apply _. Defined.

(** It is a total order. *)
Global Instance str_le_trans : Transitive str_le.
Proof.
  assert (Hle : ∀ s1 s2, str_le s1 s2 ↔ String_as_OT.lt s1 s2 ∨ s1 = s2).
  { intros s1 s2. unfold str_le, String.leb. rewrite <- String_as_OT.cmp_lt.
    unfold String_as_OT.cmp. destruct (String.compare s1 s2) eqn:Hcmp.
    - apply String.compare_eq_iff in Hcmp. naive_solver.
    - naive_solver.
    - split; [done|]. intros [?| ->]; [done|].
      assert (String.compare s2 s2 = Eq) as Heq by (by apply String_as_OT.cmp_eq).
      congruence. }
  intros a b c. rewrite !Hle.
  intros [Hab| ->] [Hbc| ->]; eauto using String_as_OT.lt_trans.
Qed.

Global Instance str_le_total : Total str_le.
Proof. intros a b. apply String.leb_total. Qed.

Global Instance str_le_antisym : AntiSymm (=) str_le.
Proof. intros a b. apply String.leb_antisym. Qed.

(** [sorted(s)] for a [set] of strings: the iteration order of the set
    ([elements]) is arbitrary, the result is not. *)
Definition sorted (s : gset string) : list string :=
  merge_sort str_le (elements s).

(** [float(n)] for a list length (below 2^63 in CPython, rounded to the
    nearest binary64), and [int(x)] for a float: truncation towards zero,
    [ValueError] on nan and [OverflowError] on infinities. *)
Definition float_of_int (n : Z) : float :=
  PrimFloat.of_uint63 (Uint63.of_Z n).

Definition int_of_float (x : float) : result Z :=
  match Prim2SF x with
  | S754_zero _ => Ok 0
  | S754_finite s m e =>
      let v := if 0 <=? e then Z.pos m * 2 ^ e else Z.pos m / 2 ^ (- e) in
      Ok (if s then - v else v)
  | S754_infinity _ => Raise OverflowError
  | S754_nan => Raise ValueError
  end.

End Py.

(** ** The [random] module, as far as the code uses it *)

Module Random.
Import Py.

(** The generator state behind [random.seed], [random.shuffle] and
    [random.sample]. [sample_indices n k] is the list of positions that
    [random.sample] selects from a population of [n] elements. *)
Class PyRandom (rng : Type) := {
  seed : Z → rng;
  shuffle : ∀ {A : Type}, list A → rng → list A * rng;
  sample_indices : nat → nat → rng → list nat * rng
}.

(** What the library documents: a shuffle permutes its argument, a sample
    takes [k] pairwise distinct positions of the population. *)
Class PyRandomSpec (rng : Type) `{PyRandom rng} : Prop := {
  shuffle_perm : ∀ (A : Type) (l : list A) (st : rng), (shuffle l st).1 ≡ₚ l;
  sample_indices_spec : ∀ (n k : nat) (st : rng),
    (k ≤ n)%nat →
    NoDup (sample_indices n k st).1
    ∧ length (sample_indices n k st).1 = k
    ∧ Forall (λ i, i < n)%nat (sample_indices n k st).1
}.

(** [random.sample(population, k)]: [ValueError] when [k] is negative or
    larger than the population. *)
Definition sample `{PyRandom rng} {A} (population : list A) (k : Z) (st : rng)
  : result (list A) * rng :=
  if (k <? 0) || (len population <? k) then (Raise ValueError, st)
  else
    let '(idx, st') := sample_indices (length population) (Z.to_nat k) st in
    (Ok (omap (λ i, population !! i) idx), st').

(** A degenerate generator (no state, the shuffle reverses, the sample
    takes the first positions), which meets the contract. *)
Definition trivial_random : PyRandom unit := {|
  seed := λ _, tt;
  shuffle := λ A l st, (reverse l, st);
  sample_indices := λ n k st, (seq 0 k, st)
|}.

(** [random.random()]: a float of the interval [0, 1) and the next state. *)
Class PyRandomUniform (rng : Type) := {
  random : rng → float * rng
}.

(** A degenerate source of floats: always 0.25. *)
Definition trivial_uniform : PyRandomUniform unit := {|
  random := λ st, (0.25%float, st)
|}.

End Random.

(** ** data-collection/augment_variations.py *)

Module Variations.
Import Py Random.

Definition CHORD_VARIATIONS : list (string * list string) :=
  [(EmptyString, ["maj7"; "maj9"; "6"; "add9"; "sus2"; "sus4"]);
   ("m", ["m7"; "m9"; "m6"; "madd9"; "msus2"; "msus4"]);
   ("7", ["9"; "13"; "7sus4"; "7b9"; "7#9"]);
   ("maj7", ["maj9"; "maj13"; "maj7#11"]);
   ("m7", ["m9"; "m11"; "m13"]);
   ("dim", ["dim7"; "m7b5"]);
   ("aug", ["7#5"; "maj7#5"])].

Definition parse_chord (chord : string) : option (string * string) :=
  if (String.length chord =? 0)%nat then None
  else if (1 <? String.length chord)%nat && char_at_in 1 chord ["b"; "#"]%char
  then Some (str_take 2 chord, str_drop 2 chord)
  else Some (str_take 1 chord, str_drop 1 chord).

Definition get_chord_variations `{PyRandom rng}
    (chord : string) (num_variations : Z) (st : rng)
  : result (list string) * rng :=
  match parse_chord chord with
  | None => (Ok [chord], st)
  | Some (root, quality) =>
      match dict_get quality CHORD_VARIATIONS with
      | Some available_variations =>
          let '(selected, st') :=
            sample available_variations
                   (Z.min num_variations (len available_variations)) st in
          (sel ← selected;
           Ok (chord :: ((λ var_quality, root ++ var_quality) <$> sel)), st')
      | None => (Ok [chord], st)
      end
  end.

(** The test [len(chord_variations) > 1] followed by the read of
    [chord_variations[1]], as the three strategies of
    [create_progression_variations] do after
    [get_chord_variations(chord, num_variations=1)]. *)
Definition second_variation (chord_variations : list string) : option string :=
  match chord_variations with
  | _ :: v :: _ => Some v
  | _ => None
  end.

(** Strategy 1 of [create_progression_variations]: the list
    [varied_progression]. *)
Fixpoint vary_each `{PyRandom rng} `{PyRandomUniform rng}
    (progression : list string) (variation_probability : float) (st : rng)
  : result (list string) * rng :=
  match progression with
  | [] => (Ok [], st)
  | chord :: rest =>
      let '(x, st) := random st in
      if (x <? variation_probability)%float then
        let '(r, st) := get_chord_variations chord 1 st in
        match r with
        | Raise e => (Raise e, st)
        | Ok chord_variations =>
            let '(r', st) := vary_each rest variation_probability st in
            (varied ← r';
             Ok (default chord (second_variation chord_variations) :: varied), st)
        end
      else
        let '(r', st) := vary_each rest variation_probability st in
        (varied ← r'; Ok (chord :: varied), st)
  end.

(** The guarded append [if varied != progression and varied not in
    variations: variations.append(varied)]. *)
Definition append_new (progression varied : list string)
    (variations : list (list string)) : list (list string) :=
  if bool_decide (varied ≠ progression) && bool_decide (varied ∉ variations)
  then (variations ++ [varied])%list
  else variations.

Definition create_progression_variations `{PyRandom rng} `{PyRandomUniform rng}
    (progression : list string) (variation_probability : float) (st : rng)
  : result (list (list string)) * rng :=
  (* Strategy 1: vary each chord independently with some probability *)
  let '(r1, st) := vary_each progression variation_probability st in
  match r1 with
  | Raise e => (Raise e, st)
  | Ok varied_progression =>
      let variations :=
        if bool_decide (varied_progression ≠ progression)
        then [varied_progression] else [] in
      match progression with
      | [] => (Ok variations, st)
      | first :: _ =>
          (* Strategy 2: vary only the first chord *)
          let '(r2, st) := get_chord_variations first 1 st in
          match r2 with
          | Raise e => (Raise e, st)
          | Ok first_variations =>
              let variations :=
                match second_variation first_variations with
                | Some v => append_new progression (v :: drop 1 progression) variations
                | None => variations
                end in
              (* Strategy 3: vary only the last chord *)
              let '(r3, st) :=
                get_chord_variations (default first (last progression)) 1 st in
              match r3 with
              | Raise e => (Raise e, st)
              | Ok last_variations =>
                  let variations :=
                    match second_variation last_variations with
                    | Some v =>
                        append_new progression
                          (slice_to (-1) progression ++ [v])%list variations
                    | None => variations
                    end in
                  (Ok variations, st)
              end
          end
      end
  end.

End Variations.



(** ** data-collection/augment_transposition.py *)

Module Transposition.
Import Py.

Definition CHROMATIC_SCALE : list string :=
  ["C"; "C#"; "D"; "D#"; "E"; "F"; "F#"; "G"; "G#"; "A"; "A#"; "B"].

Definition ENHARMONIC_MAP : list (string * string) :=
  [("C#", "Db"); ("D#", "Eb"); ("F#", "Gb"); ("G#", "Ab"); ("A#", "Bb");
   ("Db", "C#"); ("Eb", "D#"); ("Gb", "F#"); ("Ab", "G#"); ("Bb", "A#")].

(** [parse_chord]: [None] stands for the pair [(None, None)]. *)
Definition parse_chord (chord : string) : option (string * string) :=
  if (String.length chord =? 0)%nat then None
  else if (1 <? String.length chord)%nat && char_at_in 1 chord ["b"; "#"]%char
  then Some (str_take 2 chord, str_drop 2 chord)
  else Some (str_take 1 chord, str_drop 1 chord).

(** The two normalisation steps at the head of [transpose_note]. *)
Definition normalize_note (note : string) : string :=
  let note1 :=
    match dict_get note ENHARMONIC_MAP with
    | Some other => if str_contains "b" note then other else note
    | None => note
    end in
  if list_in note1 CHROMATIC_SCALE then note1
  else
    match find (λ item, String.eqb note1 (snd item)) ENHARMONIC_MAP with
    | Some (sharp, _) => sharp
    | None => note1
    end.

Definition transpose_note (note : string) (semitones : Z) : string :=
  let note' := normalize_note note in
  match list_index note' CHROMATIC_SCALE with
  | None => note'
  | Some current_index =>
      let new_index := (Z.of_nat current_index + semitones) `mod` 12 in
      nth (Z.to_nat new_index) CHROMATIC_SCALE note'
  end.

Definition transpose_chord (chord : string) (semitones : Z) : string :=
  match parse_chord chord with
  | None => chord
  | Some (root, quality) => transpose_note root semitones ++ quality
  end.

Definition transpose_progression (progression : list string) (semitones : Z)
  : list string :=
  map (λ chord, transpose_chord chord semitones) progression.

(** The three-case split at the head of [transpose_key]. *)
Definition key_root_suffix (key : string) : string * string :=
  if str_contains "m" key && (1 <? String.length key)%nat then
    if char_at_is 1 key "m" then (str_take 1 key, "m")
    else if (2 <? String.length key)%nat && char_at_is 2 key "m"
         then (str_take 2 key, "m")
         else (key, EmptyString)
  else (key, EmptyString).

Definition transpose_key (key : string) (semitones : Z) : string :=
  let '(root, suffix) := key_root_suffix key in
  transpose_note root semitones ++ suffix.

(** A progression record of the dataset ([dict] with these keys; the
    last two are only present on derived records). *)
Record prog := Prog {
  prog_id : Z;
  progression : list string;
  roman_numerals : list string;
  key : string;
  scale_type : string;
  genre : string;
  mood : string;
  song_name : string;
  source : option string;
  transposed_semitones : option Z;
  original_key : option string
}.

(** Body of the inner loop of [augment_with_transposition]: the copy of
    [base_prog] for one value of [semitones]. *)
Definition transposed_copy (base_prog : prog) (progression_id : Z)
    (semitones : Z) : prog :=
  let new_progression := transpose_progression (progression base_prog) semitones in
  let new_key := transpose_key (key base_prog) semitones in
  if semitones =? 0 then
    {| prog_id := progression_id;
       progression := new_progression;
       roman_numerals := roman_numerals base_prog;
       key := new_key;
       scale_type := scale_type base_prog;
       genre := genre base_prog;
       mood := mood base_prog;
       song_name := song_name base_prog;
       source := Some "original";
       transposed_semitones := transposed_semitones base_prog;
       original_key := original_key base_prog |}
  else
    {| prog_id := progression_id;
       progression := new_progression;
       roman_numerals := roman_numerals base_prog;
       key := new_key;
       scale_type := scale_type base_prog;
       genre := genre base_prog;
       mood := mood base_prog;
       song_name := song_name base_prog;
       source := Some "transposed";
       transposed_semitones := Some semitones;
       original_key := Some (key base_prog) |}.

(** [for semitones in range(12)] for one base progression, threading the
    running [progression_id]. *)
Definition transpose_all_keys (base_prog : prog) (progression_id : Z)
  : list prog :=
  imap (λ i semitones, transposed_copy base_prog (progression_id + Z.of_nat i) semitones)
       (Z.of_nat <$> seq 0 12).

(** The augmentation loop of [augment_with_transposition] (file reading
    and writing left out): the list [augmented_progressions]. *)
Fixpoint augment_from (base_progressions : list prog) (progression_id : Z)
  : list prog :=
  match base_progressions with
  | [] => []
  | base_prog :: rest =>
      (transpose_all_keys base_prog progression_id
         ++ augment_from rest (progression_id + 12))%list
  end.

Definition augment_with_transposition (base_progressions : list prog)
  : list prog :=
  augment_from base_progressions 1.

End Transposition.

(** ** model-training/data_preprocessing.py *)

Module Preprocessing.
Import Py Random.

Definition PAD_TOKEN : string := "<PAD>".
Definition START_TOKEN : string := "<START>".
Definition END_TOKEN : string := "<END>".
Definition UNK_TOKEN : string := "<UNK>".

(** The state of a [ChordProgressionPreprocessor]. *)
Record preprocessor := Preprocessor {
  max_sequence_length : Z;
  vocab_size : Z;
  chord_to_id : gmap string Z;
  id_to_chord : gmap Z string;
  genre_vocab : gmap string Z;
  mood_vocab : gmap string Z;
  key_vocab : gmap string Z;
  scale_type_vocab : gmap string Z
}.

(** [__init__] *)
Definition init (max_sequence_length : Z) : preprocessor :=
  Preprocessor max_sequence_length 0 ∅ ∅ ∅ ∅ ∅ ∅.

(** [{value: idx for idx, value in enumerate(l)}] *)
Definition index_dict (l : list string) : gmap string Z :=
  dict_of_items ((λ item, (item.2, item.1)) <$> enumerate l).

(** [{idx: chord for chord, idx in d.items()}] *)
Definition invert_dict (d : gmap string Z) : gmap Z string :=
  dict_of_items ((λ item, (item.2, item.1)) <$> map_to_list d).

(** The sets collected by the first loop of [build_vocabularies]. *)
Definition all_chords (progressions : list Transposition.prog) : gset string :=
  foldl (λ acc prog, acc ∪ list_to_set (Transposition.progression prog))
        ∅ progressions.

Definition all_values (axis : Transposition.prog → string)
    (progressions : list Transposition.prog) : gset string :=
  foldl (λ acc prog, acc ∪ {[ axis prog ]}) ∅ progressions.

Definition SPECIAL_TOKENS : list string :=
  [PAD_TOKEN; START_TOKEN; END_TOKEN; UNK_TOKEN].

(** The list [chord_list] of [build_vocabularies]. *)
Definition chord_list (progressions : list Transposition.prog) : list string :=
  (SPECIAL_TOKENS ++ sorted (all_chords progressions))%list.

(** The metadata vocabulary of one axis. *)
Definition axis_vocab (axis : Transposition.prog → string)
    (progressions : list Transposition.prog) : gmap string Z :=
  index_dict (sorted (all_values axis progressions)).

Definition build_vocabularies (self : preprocessor)
    (progressions : list Transposition.prog) : preprocessor :=
  let chord_list := chord_list progressions in
  let chord_to_id := index_dict chord_list in
  {| max_sequence_length := max_sequence_length self;
     vocab_size := len chord_list;
     chord_to_id := chord_to_id;
     id_to_chord := invert_dict chord_to_id;
     genre_vocab := axis_vocab Transposition.genre progressions;
     mood_vocab := axis_vocab Transposition.mood progressions;
     key_vocab := axis_vocab Transposition.key progressions;
     scale_type_vocab := axis_vocab Transposition.scale_type progressions |}.

(** [KeyError] when the vocabulary holds no [UNK_TOKEN] and an unknown
    chord is met. *)
Fixpoint encode_progression (self : preprocessor) (progression : list string)
  : result (list Z) :=
  match progression with
  | [] => Ok []
  | chord :: rest =>
      idx ← match chord_to_id self !! chord with
            | Some idx => Ok idx
            | None => of_option KeyError (chord_to_id self !! UNK_TOKEN)
            end;
      encoded ← encode_progression self rest;
      Ok (idx :: encoded)
  end.

Definition decode_progression (self : preprocessor) (encoded : list Z)
  : list string :=
  map (λ idx, default UNK_TOKEN (id_to_chord self !! idx)) encoded.

Definition pad_sequence (self : preprocessor) (sequence : list Z)
    (max_length : option Z) : result (list Z) :=
  let max_length := default (max_sequence_length self) max_length in
  pad_id ← of_option KeyError (chord_to_id self !! PAD_TOKEN);
  if max_length <? len sequence then
    Ok (slice_to max_length sequence)
  else if len sequence <? max_length then
    let padding := replicate (Z.to_nat (max_length - len sequence)) pad_id in
    Ok (sequence ++ padding)%list
  else Ok sequence.

(** The assertion at the head of [split_dataset]. *)
Definition ratios_sum_to_one (train_ratio val_ratio test_ratio : float) : bool :=
  (abs (train_ratio + val_ratio + test_ratio - 1.0) <? 1e-6)%float.

(** [split_dataset]; the state of the global generator is threaded, the
    three parts are returned in the order train, val, test. *)
Definition split_dataset `{PyRandom rng} {A} (data : list A)
    (train_ratio val_ratio test_ratio : float) (seed_value : Z) (st : rng)
  : result (list A * list A * list A) * rng :=
  if negb (ratios_sum_to_one train_ratio val_ratio test_ratio)
  then (Raise AssertionError, st)
  else
    let st := seed seed_value in
    let '(shuffled_data, st) := shuffle data st in
    let n_total := len shuffled_data in
    (n_train ← int_of_float (float_of_int n_total * train_ratio)%float;
     n_val ← int_of_float (float_of_int n_total * val_ratio)%float;
     let train_data := slice_to n_train shuffled_data in
     let val_data := slice n_train (n_train + n_val) shuffled_data in
     let test_data := slice_from (n_train + n_val) shuffled_data in
     Ok (train_data, val_data, test_data), st).

(** The defaults of [split_dataset]: 0.8, 0.15, 0.05 and seed 42. *)
Definition default_train_ratio : float := 0.8.
Definition default_val_ratio : float := 0.15.
Definition default_test_ratio : float := 0.05.
Definition default_seed : Z := 42.

End Preprocessing.

(** ** model-training/data_generator.py and model-training/evaluate_model.py *)

Module Generation.
Import Py.

(** The dictionary of model inputs built by [prepare_input]; the arrays
    have batch size one. *)
Record inputs := Inputs {
  chord_sequence_input : list Z;
  genre_input : Z;
  mood_input : Z;
  key_input : Z;
  scale_type_input : Z
}.

(** [InferenceGenerator.prepare_input]. The assignment
    [chord_sequence[0, :len(seed_chords)] = seed_chords] writes into a
    slice of at most [max_sequence_length] cells: numpy raises
    [ValueError] when the list is longer than the slice. *)
Definition prepare_input (max_sequence_length : Z) (seed_chords : list Z)
    (genre_id mood_id key_id scale_type_id : Z) : result inputs :=
  if max_sequence_length <? len seed_chords then Raise ValueError
  else
    Ok {| chord_sequence_input :=
            (seed_chords
               ++ replicate (Z.to_nat (max_sequence_length - len seed_chords)) 0)%list;
          genre_input := genre_id;
          mood_input := mood_id;
          key_input := key_id;
          scale_type_input := scale_type_id |}.

(** What the embedding keeps of the floating-point format of the scores
    (float32 for a Keras model, unless configured otherwise). The scores
    are real numbers and rounding is left out, underflow and overflow are
    not: a number of magnitude at most [tiny] (half of the smallest
    subnormal) rounds to a zero, a number of magnitude [huge] or more
    (halfway from the largest float to the next power of two) rounds to
    an infinity. *)
Record float_format := FloatFormat {
  tiny : R;
  huge : R
}.

Definition binary32 : float_format :=
  {| tiny := (/ 2 ^ 150)%R; huge := (2 ^ 128 - 2 ^ 103)%R |}.

Definition binary64 : float_format :=
  {| tiny := (/ 2 ^ 1075)%R; huge := (2 ^ 1024 - 2 ^ 970)%R |}.

(** The state of a [ChordProgressionGenerator]. [model] is
    [self.model.predict] restricted to the only batch element: one score
    vector per frame position; [dtype] is the format of these scores. *)
Record generator := Generator {
  model : inputs → list (list R);
  dtype : float_format;
  chord_to_id : gmap string Z;
  id_to_chord : gmap Z string;
  genre_to_id : gmap string Z;
  mood_to_id : gmap string Z;
  key_to_id : gmap string Z;
  scale_to_id : gmap string Z;
  inference_max_sequence_length : Z
}.

(** [predictions[0, pos, :]]: a negative position counts from the end,
    a position outside the array raises [IndexError]. *)
Definition vec_index {A} (v : list A) (pos : Z) : result A :=
  let pos := if pos <? 0 then len v + pos else pos in
  if pos <? 0 then Raise IndexError
  else of_option IndexError (v !! Z.to_nat pos).

(** [np.max] and [np.sum] of a vector *)
Definition vec_max (v : list R) : R :=
  match v with
  | [] => 0%R
  | x :: v' => fold_left Rmax v' x
  end.

Definition vec_sum (v : list R) : R := fold_right Rplus 0%R v.

(** [np.exp]: a value that rounds to zero is zero. *)
Definition np_exp (fmt : float_format) (y : R) : R :=
  if Rle_dec (exp y) (tiny fmt) then 0%R else exp y.

(** The distribution [probs] computed by [_sample_with_temperature], when
    it has no NaN entry. *)
Definition temperature_probs (fmt : float_format) (logits : list R)
    (temperature : R) : list R :=
  let logits := map (λ x, x / temperature)%R logits in
  let exp_logits := map (λ x, np_exp fmt (x - vec_max logits))%R logits in
  map (λ e, e / vec_sum exp_logits)%R exp_logits.

(** [np.random.choice(len(probs), p=probs)] can return [i] exactly when
    [i] indexes an entry of positive probability. *)
Definition can_draw (probs : list R) (i : Z) : Prop :=
  0 ≤ i ∧ ∃ p, probs !! Z.to_nat i = Some p ∧ (0 < p)%R.

(** [_sample_with_temperature]; [choice] is [np.random.choice] in the
    current state of numpy's global generator. [np.max] raises
    [ValueError] on an empty vector. A temperature that rounds to zero
    makes every scaled score infinite or NaN, and a largest scaled score
    that rounds to an infinity is subtracted from itself: in both cases
    [probs] holds NaN entries, which [np.random.choice] refuses with
    [ValueError]. *)
Definition _sample_with_temperature (fmt : float_format) (choice : list R → Z)
    (logits : list R) (temperature : R) : result Z :=
  match logits with
  | [] => Raise ValueError
  | _ =>
      if Rle_dec (Rabs temperature) (tiny fmt) then Raise ValueError
      else if Rle_dec (huge fmt)
                (Rabs (vec_max (map (λ x, x / temperature)%R logits)))
      then Raise ValueError
      else Ok (choice (temperature_probs fmt logits temperature))
  end.

(** The loop of [generate_progression]: [n] iterations remain, [calls]
    draws have been made so far, [choice k] is the draw of call [k]. *)
Fixpoint generate_loop (self : generator) (choice : nat → list R → Z)
    (genre_id mood_id key_id scale_id : Z) (temperature : R)
    (n : nat) (calls : nat)
    (current_sequence : list Z) (generated_chords : list string)
  : result (list string) :=
  match n with
  | O => Ok generated_chords
  | S n' =>
      inputs ← prepare_input (inference_max_sequence_length self)
                 current_sequence genre_id mood_id key_id scale_id;
      let predictions := model self inputs in
      let current_pos := len current_sequence - 1 in
      let current_pos :=
        if len predictions <=? current_pos then len predictions - 1
        else current_pos in
      next_chord_probs ← vec_index predictions current_pos;
      next_chord_id ←
        _sample_with_temperature (dtype self) (choice calls) next_chord_probs
          temperature;
      if (next_chord_id =? 0) || (next_chord_id =? 2) then Ok generated_chords
      else
        let chord_name := default "<UNK>" (id_to_chord self !! next_chord_id) in
        generate_loop self choice genre_id mood_id key_id scale_id temperature
          n' (S calls)
          (current_sequence ++ [next_chord_id])%list
          (generated_chords ++ [chord_name])%list
  end.

(** The initial value of [current_sequence]; an empty [seed_chords] list
    is falsy, like [None]. *)
Definition initial_sequence (self : generator)
    (seed_chords : option (list string)) : list Z :=
  match seed_chords with
  | Some (c :: cs) => map (λ c, default 0 (chord_to_id self !! c)) (c :: cs)
  | _ => [default 1 (chord_to_id self !! "<START>")]
  end.

Definition generate_progression (self : generator) (choice : nat → list R → Z)
    (genre mood key scale_type : string) (num_chords : Z) (temperature : R)
    (seed_chords : option (list string)) : result (list string) :=
  let genre_id := default 0 (genre_to_id self !! genre) in
  let mood_id := default 0 (mood_to_id self !! mood) in
  let key_id := default 0 (key_to_id self !! key) in
  let scale_id := default 0 (scale_to_id self !! scale_type) in
  generate_loop self choice genre_id mood_id key_id scale_id temperature
    (Z.to_nat num_chords) 0
    (initial_sequence self seed_chords) [].

End Generation.

(** ** data-collection/augment_variations.py, the dataset loop *)

Module VariationAugment.
Import Py Random.

(** The records appended for one base progression: one per variation of
    [variations[:variations_per_progression]], numbered from
    [progression_id]; the [original_id] key they get is the second
    component. *)
Definition variation_records (base_prog : Transposition.prog)
    (variations : list (list string)) (progression_id : Z)
  : list (Transposition.prog * option Z) :=
  imap (λ i variation,
          ({| Transposition.prog_id := progression_id + Z.of_nat i;
              Transposition.progression := variation;
              Transposition.roman_numerals := Transposition.roman_numerals base_prog;
              Transposition.key := Transposition.key base_prog;
              Transposition.scale_type := Transposition.scale_type base_prog;
              Transposition.genre := Transposition.genre base_prog;
              Transposition.mood := Transposition.mood base_prog;
              Transposition.song_name := Transposition.song_name base_prog;
              Transposition.source := Some "variation";
              Transposition.transposed_semitones :=
                Transposition.transposed_semitones base_prog;
              Transposition.original_key := Transposition.original_key base_prog |},
           Some (Transposition.prog_id base_prog)))
       variations.

(** The loop of [augment_with_variations] over the base progressions: the
    records appended to [all_progressions]. *)
Fixpoint variation_loop `{PyRandom rng} `{PyRandomUniform rng}
    (base_progressions : list Transposition.prog)
    (variations_per_progression : Z) (progression_id : Z) (st : rng)
  : result (list (Transposition.prog * option Z)) * rng :=
  match base_progressions with
  | [] => (Ok [], st)
  | base_prog :: rest =>
      let '(r, st) :=
        Variations.create_progression_variations
          (Transposition.progression base_prog) 0.4%float st in
      match r with
      | Raise e => (Raise e, st)
      | Ok variations =>
          let added :=
            variation_records base_prog
              (slice_to variations_per_progression variations) progression_id in
          let '(r', st) :=
            variation_loop rest variations_per_progression
              (progression_id + len added) st in
          (more ← r'; Ok (added ++ more)%list, st)
      end
  end.

(** [augment_with_variations] without the files: the list
    [all_progressions], the base records first (they have no [original_id]). *)
Definition augment_with_variations `{PyRandom rng} `{PyRandomUniform rng}
    (base_progressions : list Transposition.prog)
    (variations_per_progression : Z) (st : rng)
  : result (list (Transposition.prog * option Z)) * rng :=
  let all_progressions := (λ p, (p, None)) <$> base_progressions in
  let '(r, st) :=
    variation_loop base_progressions variations_per_progression
      (len all_progressions + 1) st in
  (added ← r; Ok (all_progressions ++ added)%list, st).

End VariationAugment.

(** ** model-training/data_preprocessing.py, the dataset pass *)

Module Dataset.
Import Py.

(** A record of the preprocessed dataset. *)
Record processed_item := ProcessedItem {
  item_id : Z;
  progression_encoded : list Z;
  progression_original : list string;
  progression_length : Z;
  roman_numerals : list string;
  genre_encoded : Z;
  genre : string;
  mood_encoded : Z;
  mood : string;
  key_encoded : Z;
  key : string;
  scale_type_encoded : Z;
  scale_type : string;
  song_name : string;
  source : string
}.

(** The body of the loop of [preprocess_dataset]. *)
Definition preprocess_item (self : Preprocessing.preprocessor)
    (prog : Transposition.prog) : result processed_item :=
  encoded_prog ← Preprocessing.encode_progression self (Transposition.progression prog);
  padded_prog ← Preprocessing.pad_sequence self encoded_prog None;
  Ok {| item_id := Transposition.prog_id prog;
        progression_encoded := padded_prog;
        progression_original := Transposition.progression prog;
        progression_length := len (Transposition.progression prog);
        roman_numerals := Transposition.roman_numerals prog;
        genre_encoded :=
          default 0 (Preprocessing.genre_vocab self !! Transposition.genre prog);
        genre := Transposition.genre prog;
        mood_encoded :=
          default 0 (Preprocessing.mood_vocab self !! Transposition.mood prog);
        mood := Transposition.mood prog;
        key_encoded :=
          default 0 (Preprocessing.key_vocab self !! Transposition.key prog);
        key := Transposition.key prog;
        scale_type_encoded :=
          default 0 (Preprocessing.scale_type_vocab self
                       !! Transposition.scale_type prog);
        scale_type := Transposition.scale_type prog;
        song_name := Transposition.song_name prog;
        source := default "original" (Transposition.source prog) |}.

Fixpoint preprocess_dataset (self : Preprocessing.preprocessor)
    (progressions : list Transposition.prog) : result (list processed_item) :=
  match progressions with
  | [] => Ok []
  | prog :: rest =>
      processed_item ← preprocess_item self prog;
      processed ← preprocess_dataset self rest;
      Ok (processed_item :: processed)
  end.

End Dataset.

(** ** model-training/data_generator.py, the training batches *)

Module DataGenerator.
Import Py.

(** The state of a [ChordProgressionGenerator] (a [keras.utils.Sequence]). *)
Record data_generator := DataGen {
  data : list Dataset.processed_item;
  batch_size : Z;
  max_sequence_length : Z;
  shuffle : bool;
  augment : bool;
  indexes : list Z
}.

(** One batch: the arrays of [inputs] (the conditioning arrays have one
    column) and [targets]. *)
Record batch := Batch {
  chord_sequence_input : list (list Z);
  genre_input : list Z;
  mood_input : list Z;
  key_input : list Z;
  scale_type_input : list Z;
  targets : list (list Z)
}.

(** [array[i] = values] for a row of [width] cells: numpy broadcasts a
    single value and refuses any other length than [width]. The cells are
    [int32]; the ids stored are taken to fit. *)
Definition assign_row (width : Z) (values : list Z) : result (list Z) :=
  if len values =? width then Ok values
  else match values with
       | [v] => Ok (replicate (Z.to_nat width) v)
       | _ => Raise ValueError
       end.

(** [_create_target_sequence]: [target = np.zeros_like(progression)],
    [target[:-1] = progression[1:]], [target[-1] = 0]; the last assignment
    raises [IndexError] on an empty array. *)
Definition _create_target_sequence (progression : list Z) : result (list Z) :=
  let target := replicate (length progression) 0 in
  let target :=
    (slice_from 1 progression ++ slice_from (-1) target)%list in
  match target with
  | [] => Raise IndexError
  | _ => Ok (slice_to (-1) target ++ [0])%list
  end.

(** The body of the loop of [_generate_batch] for one index: the rows of
    the six arrays. *)
Definition batch_row (self : data_generator) (idx : Z)
  : result (list Z * Z * Z * Z * Z * list Z) :=
  sample ← Generation.vec_index (data self) idx;
  let progression :=
    slice_to (max_sequence_length self) (Dataset.progression_encoded sample) in
  chords ← assign_row (max_sequence_length self) progression;
  target ← _create_target_sequence progression;
  target_row ← assign_row (max_sequence_length self) target;
  Ok (chords, Dataset.genre_encoded sample, Dataset.mood_encoded sample,
      Dataset.key_encoded sample, Dataset.scale_type_encoded sample, target_row).

Fixpoint batch_rows (self : data_generator) (batch_indexes : list Z)
  : result (list (list Z * Z * Z * Z * Z * list Z)) :=
  match batch_indexes with
  | [] => Ok []
  | idx :: rest =>
      row ← batch_row self idx;
      rows ← batch_rows self rest;
      Ok (row :: rows)
  end.

(** [_generate_batch]; [np.zeros] refuses a negative dimension. *)
Definition _generate_batch (self : data_generator) (batch_indexes : list Z)
  : result batch :=
  if max_sequence_length self <? 0 then Raise ValueError
  else
    rows ← batch_rows self batch_indexes;
    Ok {| chord_sequence_input := (λ r, r.1.1.1.1.1) <$> rows;
          genre_input := (λ r, r.1.1.1.1.2) <$> rows;
          mood_input := (λ r, r.1.1.1.2) <$> rows;
          key_input := (λ r, r.1.1.2) <$> rows;
          scale_type_input := (λ r, r.1.2) <$> rows;
          targets := (λ r, r.2) <$> rows |}.

(** [__getitem__] *)
Definition __getitem__ (self : data_generator) (index : Z) : result batch :=
  let batch_indexes :=
    slice (index * batch_size self) ((index + 1) * batch_size self)
          (indexes self) in
  _generate_batch self batch_indexes.

End DataGenerator.

(** ** model-training/evaluate_comprehensive.py, the validity checker *)

Module Evaluation.
Import Py.

(** The dictionary returned by [check_progression]. *)
Record check := Check_ {
  valid : bool;
  issues : list string
}.

Definition special_tokens : list string := ["<PAD>"; "<START>"; "<END>"; "<UNK>"].
Definition valid_roots : list string := ["C"; "D"; "E"; "F"; "G"; "A"; "B"].

(** Check 2: one issue per position that starts three equal chords. *)
Fixpoint consecutive_repeats (progression : list string) : list string :=
  match progression with
  | a :: (b :: c :: _) as rest =>
      if bool_decide (a = b) && bool_decide (b = c)
      then ("Three consecutive " ++ a ++ " chords")%string :: consecutive_repeats rest
      else consecutive_repeats rest
  | _ => []
  end.

(** Check 4: the issue of one chord, if any. *)
Definition root_issue (chord : string) : option string :=
  if (String.length chord =? 0)%nat then Some "Empty chord"
  else if list_in (str_take 1 chord) valid_roots then None
  else Some ("Invalid root note: " ++ chord)%string.

Definition check_progression (progression : list string) : check :=
  let issues1 :=
    if (size (list_to_set progression : gset string) =? 1)%nat
    then ["All chords are identical"] else [] in
  let issues2 := consecutive_repeats progression in
  let issues3 :=
    omap (λ token, if list_in token progression
                   then Some ("Contains special token: " ++ token)%string
                   else None) special_tokens in
  let issues4 := omap root_issue progression in
  let issues := (issues1 ++ issues2 ++ issues3 ++ issues4)%list in
  {| valid := (length issues =? 0)%nat; issues := issues |}.

(** The dictionary returned by [analyze_batch]; [issues_summary] is a
    [Counter]. *)
Record analysis := Analysis {
  total : Z;
  valid_count : Z;
  invalid_count : Z;
  issues_summary : gmap string Z;
  valid_percentage : float
}.

(** [counter[issue] += 1] for each issue. *)
Definition count_issues (summary : gmap string Z) (new_issues : list string)
  : gmap string Z :=
  fold_left (λ acc issue, <[issue := default 0 (acc !! issue) + 1]> acc)
            new_issues summary.

(** The loop of [analyze_batch]: the counts of valid and invalid
    progressions and the summary. *)
Fixpoint analyze_loop (progressions : list (list string))
    (acc : Z * Z * gmap string Z) : Z * Z * gmap string Z :=
  match progressions with
  | [] => acc
  | prog :: rest =>
      let '(n_valid, n_invalid, summary) := acc in
      let c := check_progression prog in
      if valid c then analyze_loop rest (n_valid + 1, n_invalid, summary)
      else analyze_loop rest (n_valid, n_invalid + 1, count_issues summary (issues c))
  end.

(** [analyze_batch]; [None] stands for the [ZeroDivisionError] of the
    percentage of an empty batch. *)
Definition analyze_batch (progressions : list (list string)) : option analysis :=
  let '(n_valid, n_invalid, summary) := analyze_loop progressions (0, 0, ∅) in
  if len progressions =? 0 then None
  else
    Some {| total := len progressions;
            valid_count := n_valid;
            invalid_count := n_invalid;
            issues_summary := summary;
            valid_percentage :=
              (float_of_int n_valid / float_of_int (len progressions) * 100)%float |}.

End Evaluation.

(** * Notions used in the statements *)

(** The flat spellings, the pitch class of a note and the entry of the
    chromatic scale at a position. *)
Definition FLATS : list string := ["Db"; "Eb"; "Gb"; "Ab"; "Bb"].

Definition pitch_index (note : string) : option nat :=
  Py.list_index (Transposition.normalize_note note) Transposition.CHROMATIC_SCALE.

Definition scale_at (k : Z) : string :=
  nth (Z.to_nat k) Transposition.CHROMATIC_SCALE EmptyString.

(** The sharp spelling of each flat note. *)
Definition SHARP_SPELLING : list (string * string) :=
  [("Db", "C#"); ("Eb", "D#"); ("Gb", "F#"); ("Ab", "G#"); ("Bb", "A#")].

(** The quality and the root of a chord, and whether a string starts with
    an accidental. *)
Definition quality_of (chord : string) : string :=
  match Transposition.parse_chord chord with
  | Some (_, quality) => quality
  | None => EmptyString
  end.

Definition root_of (chord : string) : string :=
  match Transposition.parse_chord chord with
  | Some (root, _) => root
  | None => EmptyString
  end.

Definition starts_with_accidental (s : string) : bool :=
  Py.char_at_in 0 s ["b"; "#"]%char.

Definition has_flat_root (chord : string) : bool :=
  Py.list_in (root_of chord) FLATS.

(** A float in its specification form that is not a negative number. *)
Definition not_negative (x : spec_float) : Prop :=
  match x with
  | S754_finite true _ _ => False
  | _ => True
  end.

(** A small corpus: two progressions in C with a shared chord. *)
Definition sample_prog (chords : list string) (genre_name mood_name : string)
  : Transposition.prog :=
  {| Transposition.prog_id := 1;
     Transposition.progression := chords;
     Transposition.roman_numerals := [];
     Transposition.key := "C";
     Transposition.scale_type := "major";
     Transposition.genre := genre_name;
     Transposition.mood := mood_name;
     Transposition.song_name := EmptyString;
     Transposition.source := None;
     Transposition.transposed_semitones := None;
     Transposition.original_key := None |}.

Definition sample_corpus : list Transposition.prog :=
  [sample_prog ["G"; "Am"; "C"] "rock" "happy";
   sample_prog ["C"; "F"] "pop" "sad"].

(** A mock model: the same one-hot probability vector on id [k], over a
    vocabulary of [n] ids, at each of the 12 frame positions. *)
Definition one_hot (n k : nat) : list R :=
  (λ i, if decide (i = k) then 1%R else 0%R) <$> seq 0 n.

Definition mock_model (n k : nat) : Generation.inputs → list (list R) :=
  λ _, replicate 12 (one_hot n k).

(** The generator around the mock model, with the vocabulary of
    [sample_corpus] (8 ids: the four special tokens, then Am, C, F, G). *)
Definition mock_generator (k : nat) : Generation.generator :=
  let pre := Preprocessing.build_vocabularies (Preprocessing.init 12) sample_corpus in
  {| Generation.model := mock_model 8 k;
     Generation.dtype := Generation.binary32;
     Generation.chord_to_id := Preprocessing.chord_to_id pre;
     Generation.id_to_chord := Preprocessing.id_to_chord pre;
     Generation.genre_to_id := Preprocessing.genre_vocab pre;
     Generation.mood_to_id := Preprocessing.mood_vocab pre;
     Generation.key_to_id := Preprocessing.key_vocab pre;
     Generation.scale_to_id := Preprocessing.scale_type_vocab pre;
     Generation.inference_max_sequence_length := 12 |}.

(** The score vectors on which the sampling step does not fail: not
    empty, a temperature that does not round to zero and a largest scaled
    score that does not round to an infinity. *)
Definition samplable (fmt : Generation.float_format) (logits : list R)
    (temperature : R) : Prop :=
  logits ≠ []
  ∧ (Generation.tiny fmt < Rabs temperature)%R
  ∧ (Rabs (Generation.vec_max (map (λ x, x / temperature)%R logits))
     < Generation.huge fmt)%R.

(** A sampler that respects the distribution it is given, as
    [np.random.choice] does: it returns an id of positive probability
    whenever there is one. *)
Definition lawful (choice : nat → list R → Z) : Prop :=
  ∀ (k : nat) (probs : list R),
    (∃ i, Generation.can_draw probs i) → Generation.can_draw probs (choice k probs).

(** The lowest id of positive probability, and the sampler that draws the
    id [k] whenever its probability is positive and the lowest possible id
    otherwise. *)
Fixpoint first_drawable (probs : list R) : Z :=
  match probs with
  | [] => 0
  | p :: probs' => if Rlt_dec 0 p then 0 else 1 + first_drawable probs'
  end.

Definition prefer (k : nat) : nat → list R → Z :=
  λ _ probs,
    match probs !! k with
    | Some p => if Rlt_dec 0 p then Z.of_nat k else first_drawable probs
    | None => first_drawable probs
    end.

(** The ids drawn before the first PAD or END. *)
Fixpoint until_stop (ids : list Z) : list Z :=
  match ids with
  | [] => []
  | i :: ids' => if (i =? 0) || (i =? 2) then [] else i :: until_stop ids'
  end.

(** The sampler that draws the id [k] at every call. *)
Definition always (k : Z) : nat → list R → Z := λ _ _, k.

(** The chords of the variation engine: [tabulated c] when the quality
    parsed from [c] is a key of [CHORD_VARIATIONS]; [is_substitute c c']
    when [c'] is the root of [c] followed by a candidate quality listed
    for the quality of [c]. *)
Definition tabulated (chord : string) : bool :=
  match Variations.parse_chord chord with
  | Some (_, quality) =>
      bool_decide (is_Some (Py.dict_get quality Variations.CHORD_VARIATIONS))
  | None => false
  end.

Definition is_substitute (chord chord' : string) : bool :=
  match Variations.parse_chord chord with
  | Some (root, quality) =>
      match Py.dict_get quality Variations.CHORD_VARIATIONS with
      | Some candidates =>
          bool_decide (chord' ∈ (λ q, root ++ q)%string <$> candidates)
      | None => false
      end
  | None => false
  end.

(** [varied] is [progression] with some chords replaced by substitutes. *)
Definition varies (progression varied : list string) : Prop :=
  Forall2 (λ c c', c' = c ∨ is_substitute c c' = true) progression varied.

(** A list of pairwise different progressions that all differ from
    [progression] and vary it. *)
Definition sound_variations (progression : list string)
    (variations : list (list string)) : Prop :=
  NoDup variations
  ∧ Forall (λ v, v ≠ progression ∧ varies progression v) variations.

(** What a variation record appended for [base_prog] looks like: the
    record and its [original_id]. *)
Definition variation_of (base_prog : Transposition.prog)
    (entry : Transposition.prog * option Z) : Prop :=
  Transposition.source entry.1 = Some "variation"
  ∧ entry.2 = Some (Transposition.prog_id base_prog)
  ∧ Transposition.progression entry.1 ≠ Transposition.progression base_prog
  ∧ varies (Transposition.progression base_prog) (Transposition.progression entry.1)
  ∧ Transposition.roman_numerals entry.1 = Transposition.roman_numerals base_prog
  ∧ Transposition.key entry.1 = Transposition.key base_prog
  ∧ Transposition.scale_type entry.1 = Transposition.scale_type base_prog
  ∧ Transposition.genre entry.1 = Transposition.genre base_prog
  ∧ Transposition.mood entry.1 = Transposition.mood base_prog
  ∧ Transposition.song_name entry.1 = Transposition.song_name base_prog.

(** The record that [preprocess_dataset] makes of [prog] when the
    vocabulary holds [unk] for UNK and [pad_id] for PAD and its maximal
    length is not negative. *)
Definition item_of (self : Preprocessing.preprocessor) (unk pad_id : Z)
    (prog : Transposition.prog) : Dataset.processed_item :=
  {| Dataset.item_id := Transposition.prog_id prog;
     Dataset.progression_encoded :=
       take (Z.to_nat (Preprocessing.max_sequence_length self))
         (((λ c, default unk (Preprocessing.chord_to_id self !! c))
             <$> Transposition.progression prog)
          ++ replicate (Z.to_nat (Preprocessing.max_sequence_length self
                                  - Py.len (Transposition.progression prog)))
               pad_id);
     Dataset.progression_original := Transposition.progression prog;
     Dataset.progression_length := Py.len (Transposition.progression prog);
     Dataset.roman_numerals := Transposition.roman_numerals prog;
     Dataset.genre_encoded :=
       default 0 (Preprocessing.genre_vocab self !! Transposition.genre prog);
     Dataset.genre := Transposition.genre prog;
     Dataset.mood_encoded :=
       default 0 (Preprocessing.mood_vocab self !! Transposition.mood prog);
     Dataset.mood := Transposition.mood prog;
     Dataset.key_encoded :=
       default 0 (Preprocessing.key_vocab self !! Transposition.key prog);
     Dataset.key := Transposition.key prog;
     Dataset.scale_type_encoded :=
       default 0 (Preprocessing.scale_type_vocab self
                    !! Transposition.scale_type prog);
     Dataset.scale_type := Transposition.scale_type prog;
     Dataset.song_name := Transposition.song_name prog;
     Dataset.source := default "original" (Transposition.source prog) |}.

(** The records of a small corpus with the ids of the transposition
    stage. *)
Definition numbered_corpus : list Transposition.prog :=
  Transposition.augment_with_transposition sample_corpus.

(** The cells of the batch arrays are [int32]. *)
Definition int32 (z : Z) : Prop := - 2 ^ 31 ≤ z < 2 ^ 31.

(** A sample that fills a row of [width] cells. *)
Definition fills_row (width : Z) (sample : Dataset.processed_item) : Prop :=
  width ≤ Py.len (Dataset.progression_encoded sample)
  ∧ Forall int32 (Dataset.progression_encoded sample)
  ∧ int32 (Dataset.genre_encoded sample)
  ∧ int32 (Dataset.mood_encoded sample)
  ∧ int32 (Dataset.key_encoded sample)
  ∧ int32 (Dataset.scale_type_encoded sample).

(** The samples that a list of indexes selects, the row of a sample in
    [chord_sequence_input] and its row in [targets]. *)
Definition samples_at (data : list Dataset.processed_item) (idxs : list Z)
  : list Dataset.processed_item :=
  omap (λ idx, data !! Z.to_nat idx) idxs.

Definition input_row (width : Z) (sample : Dataset.processed_item) : list Z :=
  take (Z.to_nat width) (Dataset.progression_encoded sample).

Definition target_row (width : Z) (sample : Dataset.processed_item) : list Z :=
  (drop 1 (input_row width sample) ++ [0])%list.

(** The batches of one epoch: [self[0]], ..., [self[n - 1]]. *)
Definition epoch (self : DataGenerator.data_generator) (n : nat)
  : Py.result (list DataGenerator.batch) :=
  mapM (DataGenerator.__getitem__ self) (Z.of_nat <$> seq 0 n).

(** A generator over the samples [data], in their order. *)
Definition sequential (data : list Dataset.processed_item)
    (batch_size max_sequence_length : Z) : DataGenerator.data_generator :=
  {| DataGenerator.data := data;
     DataGenerator.batch_size := batch_size;
     DataGenerator.max_sequence_length := max_sequence_length;
     DataGenerator.shuffle := false;
     DataGenerator.augment := false;
     DataGenerator.indexes := Z.of_nat <$> seq 0 (length data) |}.

(** The records of the small corpus in its own vocabulary, and a record
    whose encoded progression has [n] ids only. *)
Definition sample_items : list Dataset.processed_item :=
  item_of (Preprocessing.build_vocabularies (Preprocessing.init 12) sample_corpus)
          3 0 <$> sample_corpus.

Definition short_item (ids : list Z) : Dataset.processed_item :=
  {| Dataset.item_id := 1;
     Dataset.progression_encoded := ids;
     Dataset.progression_original := [];
     Dataset.progression_length := Py.len ids;
     Dataset.roman_numerals := [];
     Dataset.genre_encoded := 0;
     Dataset.genre := "pop";
     Dataset.mood_encoded := 0;
     Dataset.mood := "sad";
     Dataset.key_encoded := 0;
     Dataset.key := "C";
     Dataset.scale_type_encoded := 0;
     Dataset.scale_type := "major";
     Dataset.song_name := EmptyString;
     Dataset.source := "original" |}.

(** The batch without rows. *)
Definition empty_batch : DataGenerator.batch :=
  {| DataGenerator.chord_sequence_input := [];
     DataGenerator.genre_input := [];
     DataGenerator.mood_input := [];
     DataGenerator.key_input := [];
     DataGenerator.scale_type_input := [];
     DataGenerator.targets := [] |}.

(** The first character of a chord is one of the seven note letters. *)
Definition starts_with_note (chord : string) : bool :=
  match chord with
  | String c _ => bool_decide (c ∈ ["C"; "D"; "E"; "F"; "G"; "A"; "B"]%char)
  | EmptyString => false
  end.

(** A progression that repeats one chord, once or more. *)
Definition all_identical (progression : list string) : Prop :=
  ∃ (c : string) (n : nat), progression = replicate (S n) c.

(** The number of times [issue] is reported over a batch. *)
Definition reports (issue : string) (progressions : list (list string)) : Z :=
  Py.len (filter (λ i, i = issue)
            (concat ((λ p, Evaluation.issues (Evaluation.check_progression p))
                       <$> progressions))).

(** Three equal chords in a row, somewhere in the progression. *)
Definition three_in_a_row (progression : list string) : Prop :=
  ∃ (i : nat) (c : string),
    progression !! i = Some c
    ∧ progression !! S i = Some c
    ∧ progression !! S (S i) = Some c.

(** * Properties *)

Import Py.

(** ** Python primitives *)

Section py_lemmas.

Lemma str_take_drop (n : nat) (s : string) :
  (str_take n s ++ str_drop n s)%string = s.
Proof.
  revert s; induction n as [|n IH]; intros [|c s]; try done.
  change (String c (str_take n s ++ str_drop n s)%string = String c s).
  f_equal. apply IH.
Qed.

Lemma str_app_inj_l (r q1 q2 : string) :
  (r ++ q1)%string = (r ++ q2)%string → q1 = q2.
Proof.
  induction r as [|c r IH]; intros Heq; [done|].
  change (String c (r ++ q1)%string = String c (r ++ q2)%string) in Heq.
  injection Heq; auto.
Qed.

Lemma list_in_true (x : string) (l : list string) :
  list_in x l = true ↔ x ∈ l.
Proof. unfold list_in. apply bool_decide_eq_true. Qed.

Lemma list_in_false (x : string) (l : list string) :
  list_in x l = false ↔ x ∉ l.
Proof. unfold list_in. apply bool_decide_eq_false. Qed.

Lemma dict_get_Some {V} (k : string) (d : list (string * V)) (v : V) :
  dict_get k d = Some v → (k, v) ∈ d.
Proof.
  induction d as [|[k' v'] d IH]; simpl; [done|].
  destruct (String.eqb_spec k k') as [->|Hne].
  - intros [= ->]. apply list_elem_of_here.
  - intros Hget. apply list_elem_of_further; auto.
Qed.

Lemma dict_get_None {V} (k : string) (d : list (string * V)) :
  dict_get k d = None → k ∉ d.*1.
Proof.
  induction d as [|[k' v'] d IH]; simpl; [intros _; apply not_elem_of_nil|].
  destruct (String.eqb_spec k k') as [->|Hne]; [done|].
  intros Hget. apply not_elem_of_cons. split; auto.
Qed.

Lemma list_index_Some (x : string) (l : list string) (i : nat) :
  list_index x l = Some i → l !! i = Some x.
Proof.
  revert i; induction l as [|y l IH]; intros i; simpl; [done|].
  destruct (String.eqb_spec x y) as [->|Hne].
  - by intros [= <-].
  - destruct (list_index x l) as [j|]; simpl; [|done].
    intros [= <-]. simpl. by apply IH.
Qed.

Lemma list_index_None (x : string) (l : list string) :
  list_index x l = None → x ∉ l.
Proof.
  induction l as [|y l IH]; simpl; [intros _; apply not_elem_of_nil|].
  destruct (String.eqb_spec x y) as [->|Hne]; [done|].
  destruct (list_index x l); simpl; [done|].
  intros _. apply not_elem_of_cons. split; auto.
Qed.

Lemma list_index_is_Some (x : string) (l : list string) :
  x ∈ l → is_Some (list_index x l).
Proof.
  intros Hin. destruct (list_index x l) eqn:E; [eauto|].
  by apply list_index_None in E.
Qed.

End py_lemmas.

(** Case analysis on membership in a literal list. *)
Ltac elem_cases H :=
  repeat (apply elem_of_cons in H as [H|H]);
  [ .. | by apply elem_of_nil in H ].

(** ** Transposition *)

Import Transposition.

Example transpose_note_C_12 : transpose_note "C" 12 = "C".
Proof. reflexivity. Qed.
Example transpose_note_C_1 : transpose_note "C" 1 = "C#".
Proof. reflexivity. Qed.
Example transpose_note_Db_1 : transpose_note "Db" 1 = "D".
Proof. reflexivity. Qed.
Example transpose_chord_Bb7_0 : transpose_chord "Bb7" 0 = "A#7".
Proof. reflexivity. Qed.
Example transpose_chord_Am_down : transpose_chord "Am" (-3) = "F#m".
Proof. reflexivity. Qed.
Example transpose_key_Bbm_2 : transpose_key "Bbm" 2 = "Cm".
Proof. reflexivity. Qed.
Example transpose_key_Cmaj_0 : transpose_key "Cmaj" 0 = "Cm".
Proof. reflexivity. Qed.

Section transposition_lemmas.

Lemma parse_chord_join (chord root quality : string) :
  parse_chord chord = Some (root, quality) → (root ++ quality)%string = chord.
Proof.
  unfold parse_chord.
  destruct (String.length chord =? 0)%nat; [done|].
  destruct (_ && _); intros Heq; injection Heq as <- <-;
    [exact (str_take_drop 2 chord) | exact (str_take_drop 1 chord)].
Qed.

Lemma parse_chord_None (chord : string) :
  parse_chord chord = None → chord = EmptyString.
Proof.
  unfold parse_chord. destruct chord; [done|]. simpl. by case_match.
Qed.

Lemma normalize_note_cases (note : string) :
  normalize_note note = note ∨ normalize_note note ∈ CHROMATIC_SCALE.
Proof.
  unfold normalize_note.
  destruct (dict_get note ENHARMONIC_MAP) as [other|] eqn:Hget.
  - apply dict_get_Some in Hget. unfold ENHARMONIC_MAP in Hget.
    elem_cases Hget; injection Hget as -> ->; vm_compute;
      first [ by left | right; set_solver ].
  - destruct (list_in note CHROMATIC_SCALE) eqn:Hin; [by left|].
    destruct (find _ ENHARMONIC_MAP) as [[sharp flat]|] eqn:Hfind; [|by left].
    apply find_some in Hfind as [Hmem Heq]. simpl in Heq.
    apply String.eqb_eq in Heq. subst flat.
    apply list_elem_of_In in Hmem. unfold ENHARMONIC_MAP in Hmem.
    elem_cases Hmem; injection Hmem as -> ->; discriminate Hget.
Qed.

Lemma normalize_note_unrecognized (note : string) :
  pitch_index note = None → normalize_note note = note.
Proof.
  intros Hidx. apply list_index_None in Hidx.
  by destruct (normalize_note_cases note).
Qed.

Lemma transpose_note_unrecognized (note : string) (s : Z) :
  pitch_index note = None → transpose_note note s = note.
Proof.
  intros Hidx. unfold transpose_note. fold (pitch_index note).
  rewrite Hidx. by apply normalize_note_unrecognized.
Qed.

Lemma pitch_index_lt (note : string) (i : nat) :
  pitch_index note = Some i → (i < 12)%nat.
Proof.
  intros Hidx. apply list_index_Some in Hidx.
  by apply lookup_lt_Some in Hidx.
Qed.

Lemma transpose_note_recognized (note : string) (i : nat) (s : Z) :
  pitch_index note = Some i →
  transpose_note note s = scale_at ((Z.of_nat i + s) `mod` 12).
Proof.
  intros Hidx. unfold transpose_note. fold (pitch_index note). rewrite Hidx.
  unfold scale_at. apply nth_indep.
  change (length CHROMATIC_SCALE) with 12%nat.
  pose proof (Z.mod_pos_bound (Z.of_nat i + s) 12). lia.
Qed.

Lemma scale_at_cases (k : Z) :
  0 ≤ k < 12 →
  k = 0 ∨ k = 1 ∨ k = 2 ∨ k = 3 ∨ k = 4 ∨ k = 5 ∨ k = 6 ∨ k = 7 ∨ k = 8
  ∨ k = 9 ∨ k = 10 ∨ k = 11.
Proof. lia. Qed.

Lemma pitch_index_scale_at (k : Z) :
  0 ≤ k < 12 → pitch_index (scale_at k) = Some (Z.to_nat k).
Proof.
  intros Hk. apply scale_at_cases in Hk.
  repeat (destruct Hk as [->|Hk]); [..|subst k]; reflexivity.
Qed.

Lemma scale_at_pitch_index (note : string) (i : nat) :
  pitch_index note = Some i → scale_at (Z.of_nat i) = normalize_note note.
Proof.
  intros Hidx. apply list_index_Some in Hidx.
  unfold scale_at. rewrite Nat2Z.id.
  by apply nth_lookup_Some with (d := EmptyString) in Hidx.
Qed.

Lemma parse_chord_scale_at (k : Z) (quality : string) :
  0 ≤ k < 12 → starts_with_accidental quality = false →
  parse_chord (scale_at k ++ quality)%string = Some (scale_at k, quality).
Proof.
  intros Hk Hq. apply scale_at_cases in Hk.
  repeat (destruct Hk as [->|Hk]); [..|subst k];
    destruct quality as [|a quality]; try reflexivity;
    unfold starts_with_accidental, char_at_in in Hq; simpl in Hq;
    unfold parse_chord, char_at_in; simpl; by rewrite ?Hq.
Qed.

End transposition_lemmas.

Section transposition_identity.

Lemma normalize_note_not_flat (note : string) :
  list_in note FLATS = false → normalize_note note = note.
Proof.
  intros Hflat. unfold normalize_note.
  destruct (dict_get note ENHARMONIC_MAP) as [other|] eqn:Hget.
  - apply dict_get_Some in Hget. unfold ENHARMONIC_MAP in Hget.
    elem_cases Hget; injection Hget as -> ->;
      first [ discriminate Hflat | reflexivity ].
  - destruct (list_in note CHROMATIC_SCALE) eqn:Hin; [done|].
    destruct (find _ ENHARMONIC_MAP) as [[sharp flat]|] eqn:Hfind; [|done].
    apply find_some in Hfind as [Hmem Heq]. simpl in Heq.
    apply String.eqb_eq in Heq. subst flat.
    apply list_elem_of_In in Hmem. unfold ENHARMONIC_MAP in Hmem.
    elem_cases Hmem; injection Hmem as -> ->; discriminate Hget.
Qed.

Lemma transpose_note_zero (note : string) :
  list_in note FLATS = false → transpose_note note 0 = note.
Proof.
  intros Hflat. destruct (pitch_index note) as [i|] eqn:Hidx.
  - rewrite (transpose_note_recognized _ i) by done.
    pose proof (pitch_index_lt _ _ Hidx).
    rewrite Z.add_0_r, Z.mod_small by lia.
    rewrite (scale_at_pitch_index note) by done.
    by apply normalize_note_not_flat.
  - by apply transpose_note_unrecognized.
Qed.

Lemma transpose_chord_zero_iff (c : string) :
  transpose_chord c 0 = c ↔ has_flat_root c = false.
Proof.
  unfold has_flat_root, root_of, transpose_chord.
  destruct (parse_chord c) as [[root quality]|] eqn:Hparse; [|done].
  apply parse_chord_join in Hparse. split.
  - intros Heq. apply list_in_false. intros Hin.
    rewrite <- Hparse in Heq. unfold FLATS in Hin.
    elem_cases Hin; subst root; discriminate Heq.
  - intros Hflat. by rewrite transpose_note_zero.
Qed.

(** A flat root comes back as its sharp spelling, the quality is kept. *)
Lemma transpose_chord_zero_flat (c flat sharp : string) :
  (flat, sharp) ∈ SHARP_SPELLING → root_of c = flat →
  transpose_chord c 0 = (sharp ++ quality_of c)%string
  ∧ root_of (transpose_chord c 0) = sharp
  ∧ quality_of (transpose_chord c 0) = quality_of c.
Proof.
  unfold root_of, quality_of, transpose_chord, SHARP_SPELLING.
  intros Hin Hroot.
  destruct (parse_chord c) as [[root quality]|] eqn:Hparse.
  - subst root. elem_cases Hin; injection Hin as -> ->;
      (split; [reflexivity|]); by destruct quality.
  - subst flat. elem_cases Hin; discriminate Hin.
Qed.

Lemma transpose_progression_zero (p : list string) :
  Forall (λ c, has_flat_root c = false) p → transpose_progression p 0 = p.
Proof.
  unfold transpose_progression. induction 1 as [|c p Hc _ IH]; [done|].
  cbn [map]. rewrite IH. f_equal. by apply transpose_chord_zero_iff.
Qed.

Lemma transpose_key_zero (k root suffix : string) :
  key_root_suffix k = (root, suffix) →
  (root ++ suffix)%string = k →
  list_in root FLATS = false →
  transpose_key k 0 = k.
Proof.
  intros Hsplit Hjoin Hflat. unfold transpose_key. rewrite Hsplit.
  by rewrite transpose_note_zero.
Qed.

Lemma transpose_all_keys_lookup (base_prog : prog) (progression_id : Z) (i : nat) :
  (i < 12)%nat →
  transpose_all_keys base_prog progression_id !! i
  = Some (transposed_copy base_prog (progression_id + Z.of_nat i) (Z.of_nat i)).
Proof.
  intros Hi. unfold transpose_all_keys.
  rewrite list_lookup_imap, list_lookup_fmap, lookup_seq_lt by done.
  reflexivity.
Qed.

Lemma transpose_all_keys_length (base_prog : prog) (progression_id : Z) :
  length (transpose_all_keys base_prog progression_id) = 12%nat.
Proof. unfold transpose_all_keys. by rewrite length_imap, length_fmap, length_seq. Qed.

Lemma augment_from_lookup (base_progressions : list prog) (progression_id : Z)
    (b i : nat) (base_prog : prog) :
  base_progressions !! b = Some base_prog → (i < 12)%nat →
  augment_from base_progressions progression_id !! (12 * b + i)%nat
  = Some (transposed_copy base_prog
            (progression_id + 12 * Z.of_nat b + Z.of_nat i) (Z.of_nat i)).
Proof.
  revert progression_id b.
  induction base_progressions as [|p ps IH]; intros pid b Hb Hi; [done|].
  cbn [augment_from]. destruct b as [|b]; simpl in Hb.
  - injection Hb as ->.
    rewrite lookup_app_l by (rewrite transpose_all_keys_length; lia).
    rewrite Nat.mul_0_r, Nat.add_0_l, transpose_all_keys_lookup by done.
    do 2 f_equal. lia.
  - rewrite lookup_app_r by (rewrite transpose_all_keys_length; lia).
    rewrite transpose_all_keys_length.
    replace (12 * S b + i - 12)%nat with (12 * b + i)%nat by lia.
    rewrite (IH _ _ Hb Hi). do 2 f_equal. lia.
Qed.

End transposition_identity.

(** C2, as the code has it. Transposing by 0 semitones respells a flat root
    as its sharp equivalent and is the identity on everything else:
    [transpose_chord c 0 = c] exactly when the root of [c] is none of Db, Eb,
    Gb, Ab, Bb, and a chord with one of these roots comes back with the
    root C#, D#, F#, G#, A# respectively, followed by the same quality; a
    progression none of whose chords has a flat root, and a
    key that is a non-flat root followed by nothing but the detected minor
    marker, are returned unchanged. Of the 12 copies that
    [augment_with_transposition] makes of a base progression, the one for 0
    semitones is the one marked 'original', and under these conditions it
    carries the base progression and key unchanged. *)
Theorem transpose_by_zero
    (base_progressions : list prog) (b : nat) (base_prog : prog)
    (root suffix : string) :
  base_progressions !! b = Some base_prog →
  Forall (λ c, has_flat_root c = false) (progression base_prog) →
  key_root_suffix (key base_prog) = (root, suffix) →
  (root ++ suffix)%string = key base_prog →
  list_in root FLATS = false →
  (∀ c, transpose_chord c 0 = c ↔ has_flat_root c = false)
  ∧ (∀ c flat sharp,
       (flat, sharp) ∈ SHARP_SPELLING → root_of c = flat →
       transpose_chord c 0 = (sharp ++ quality_of c)%string
       ∧ root_of (transpose_chord c 0) = sharp
       ∧ quality_of (transpose_chord c 0) = quality_of c)
  ∧ transpose_progression (progression base_prog) 0 = progression base_prog
  ∧ transpose_key (key base_prog) 0 = key base_prog
  ∧ ∃ copy,
      augment_with_transposition base_progressions !! (12 * b)%nat = Some copy
      ∧ source copy = Some "original"
      ∧ progression copy = progression base_prog
      ∧ key copy = key base_prog
      ∧ ∀ i copy', (0 < i < 12)%nat →
          augment_with_transposition base_progressions !! (12 * b + i)%nat
            = Some copy' →
          source copy' = Some "transposed".
Proof.
  intros Hb Hprog Hsplit Hjoin Hflat.
  pose proof (transpose_progression_zero _ Hprog) as Hp0.
  pose proof (transpose_key_zero _ _ _ Hsplit Hjoin Hflat) as Hk0.
  split; [apply transpose_chord_zero_iff|].
  split; [apply transpose_chord_zero_flat|]. do 2 (split; [done|]).
  unfold augment_with_transposition.
  eexists. split.
  { rewrite <- (Nat.add_0_r (12 * b)).
    apply (augment_from_lookup _ 1 b 0 base_prog Hb). lia. }
  split; [reflexivity|]. split; [exact Hp0|]. split; [exact Hk0|].
  intros i copy' Hi Hcopy'. unfold augment_with_transposition in Hcopy'.
  rewrite (augment_from_lookup _ 1 b i base_prog Hb) in Hcopy' by lia.
  injection Hcopy' as <-. unfold transposed_copy.
  destruct (Z.eqb_spec (Z.of_nat i) 0) as [Hz|_]; [lia|done].
Qed.

(** C2 as stated fails: the chord Bb comes back as A#. *)
Lemma transpose_by_zero_counterexample :
  ¬ (∀ c : string, transpose_chord c 0 = c).
Proof. intros Hall. specialize (Hall "Bb"). discriminate Hall. Qed.

(** C4, as the code has it. For every shift [s] and every chord [c] whose
    quality does not begin with 'b' or '#', transposing by [s] and then by
    [(-s) mod 12] gives [transpose_chord c 0] (the chord with its root
    respelled with sharps), and the quality read back from the result is
    the quality of [c]. *)
Theorem transpose_chord_round_trip (s : Z) (c : string) :
  starts_with_accidental (quality_of c) = false →
  transpose_chord (transpose_chord c s) ((- s) `mod` 12) = transpose_chord c 0
  ∧ quality_of (transpose_chord (transpose_chord c s) ((- s) `mod` 12))
    = quality_of c.
Proof.
  unfold quality_of at 1 3.
  destruct (parse_chord c) as [[root quality]|] eqn:Hparse; intros Hq.
  2:{ apply parse_chord_None in Hparse. by subst c. }
  assert (Hzero : ∀ t, transpose_chord c t = (transpose_note root t ++ quality)%string)
    by (intros t; unfold transpose_chord; by rewrite Hparse).
  destruct (pitch_index root) as [i|] eqn:Hidx.
  - pose proof (pitch_index_lt _ _ Hidx) as Hi.
    pose proof (Z.mod_pos_bound (Z.of_nat i + s) 12 eq_refl) as Hj.
    rewrite !Hzero, !(transpose_note_recognized _ i) by done.
    set (j := (Z.of_nat i + s) `mod` 12) in *.
    assert (Hback : transpose_chord (scale_at j ++ quality)%string ((- s) `mod` 12)
                    = (scale_at (Z.of_nat i + 0) ++ quality)%string).
    { unfold transpose_chord. rewrite parse_chord_scale_at by done.
      rewrite (transpose_note_recognized _ (Z.to_nat j))
        by (by apply pitch_index_scale_at).
      rewrite Z2Nat.id by lia. do 2 f_equal. subst j.
      rewrite <- Z.add_mod by lia.
      replace (Z.of_nat i + s + - s) with (Z.of_nat i) by lia.
      rewrite Z.add_0_r. apply Z.mod_small. lia. }
    rewrite Hback. rewrite (Z.mod_small (Z.of_nat i + 0)) by lia.
    split; [done|].
    unfold quality_of. rewrite parse_chord_scale_at by (done || lia). done.
  - rewrite !Hzero, !transpose_note_unrecognized by done.
    rewrite (parse_chord_join _ _ _ Hparse).
    rewrite !Hzero, !transpose_note_unrecognized by done.
    rewrite (parse_chord_join _ _ _ Hparse).
    split; [done|]. unfold quality_of. by rewrite Hparse.
Qed.

(** C4 as stated fails when the quality starts with an accidental: C#b5
    shifted by 1 is read back as Db + 5 and returns as C5. *)
Lemma transpose_chord_round_trip_counterexample :
  ¬ (∀ (s : Z) (c : string),
       transpose_chord (transpose_chord c s) ((- s) `mod` 12) = transpose_chord c 0).
Proof. intros Hall. specialize (Hall 1 "C#b5"). discriminate Hall. Qed.

(** ** The random module *)

Import Random.

Section random_lemmas.

Lemma trivial_random_spec : @PyRandomSpec unit trivial_random.
Proof.
  split.
  - intros A l st. cbn. apply reverse_Permutation.
  - intros n k st Hk. cbn. split; [apply NoDup_seq|].
    split; [apply length_seq|].
    apply Forall_forall. intros i Hi. apply elem_of_seq in Hi. lia.
Qed.

Lemma pick_positions {A} (population : list A) (idx : list nat) :
  Forall (λ i, i < length population)%nat idx →
  length (omap (λ i, population !! i) idx) = length idx
  ∧ (∀ x, x ∈ omap (λ i, population !! i) idx →
          ∃ i, i ∈ idx ∧ population !! i = Some x).
Proof.
  induction 1 as [|i idx Hi _ [IHlen IHin]]; cbn.
  - split; [done|]. intros x Hx. by apply elem_of_nil in Hx.
  - destruct (lookup_lt_is_Some_2 population i Hi) as [y Hy]. rewrite Hy.
    split; [cbn; by rewrite IHlen|].
    intros x Hx. apply elem_of_cons in Hx as [->|Hx].
    + exists i. split; [apply list_elem_of_here|done].
    + destruct (IHin x Hx) as (j & Hj & Hjx).
      exists j. split; [by apply list_elem_of_further|done].
Qed.

Lemma pick_positions_NoDup {A} (population : list A) (idx : list nat) :
  NoDup population → NoDup idx →
  Forall (λ i, i < length population)%nat idx →
  NoDup (omap (λ i, population !! i) idx).
Proof.
  intros Hpop Hidx Hlt. induction Hlt as [|i idx Hi Hlt IH]; cbn.
  - apply NoDup_nil_2.
  - apply NoDup_cons in Hidx as [Hnotin Hidx].
    destruct (lookup_lt_is_Some_2 population i Hi) as [y Hy]. rewrite Hy.
    apply NoDup_cons. split; [|by apply IH].
    intros Hy'. apply (pick_positions population idx Hlt) in Hy' as (j & Hj & Hjy).
    by rewrite (NoDup_lookup _ _ _ _ Hpop Hy Hjy) in Hnotin.
Qed.

(** [random.sample(population, k)] for [0 <= k <= len(population)]. *)
Lemma sample_spec `{PyRandomSpec rng} {A} (population : list A) (k : Z) (st : rng) :
  0 ≤ k ≤ len population →
  ∃ selected,
    (sample population k st).1 = Ok selected
    ∧ length selected = Z.to_nat k
    ∧ (∀ x, x ∈ selected → x ∈ population)
    ∧ (NoDup population → NoDup selected).
Proof.
  intros Hk. unfold sample, len in *.
  destruct (Z.ltb_spec k 0) as [?|_]; [lia|].
  destruct (Z.ltb_spec (Z.of_nat (length population)) k) as [?|_]; [lia|].
  cbn [orb].
  destruct (sample_indices_spec (length population) (Z.to_nat k) st)
    as (Hnodup & Hlen & Hlt); [lia|].
  destruct (sample_indices (length population) (Z.to_nat k) st) as [idx st'].
  cbn [fst] in *.
  destruct (pick_positions population idx Hlt) as [Hlen' Hin].
  eexists. split; [reflexivity|]. split; [congruence|]. split.
  - intros x Hx. destruct (Hin x Hx) as (i & _ & Hi).
    by apply list_elem_of_lookup_2 in Hi.
  - intros Hpop. by apply pick_positions_NoDup.
Qed.

End random_lemmas.

(** ** Chord variations *)

Import Variations.

Example get_chord_variations_C_2 :
  @get_chord_variations unit trivial_random "C" 2 tt
  = (Ok ["C"; "Cmaj7"; "Cmaj9"], tt).
Proof. reflexivity. Qed.

Example get_chord_variations_Cxyz_2 :
  @get_chord_variations unit trivial_random "Cxyz" 2 tt = (Ok ["Cxyz"], tt).
Proof. reflexivity. Qed.

Example get_chord_variations_dim_5 :
  @get_chord_variations unit trivial_random "Bbdim" 5 tt
  = (Ok ["Bbdim"; "Bbdim7"; "Bbm7b5"], tt).
Proof. reflexivity. Qed.

Example get_chord_variations_negative :
  @get_chord_variations unit trivial_random "C" (-1) tt = (Raise ValueError, tt).
Proof. reflexivity. Qed.

Section variation_lemmas.

Lemma variation_parse_chord_join (chord root quality : string) :
  Variations.parse_chord chord = Some (root, quality) →
  (root ++ quality)%string = chord.
Proof. apply parse_chord_join. Qed.

(** Every entry of the table lists pairwise distinct candidates, none of
    which is the entry's own quality. *)
Lemma CHORD_VARIATIONS_entries (quality : string) (candidates : list string) :
  dict_get quality CHORD_VARIATIONS = Some candidates →
  NoDup candidates ∧ quality ∉ candidates.
Proof.
  intros Hget. apply dict_get_Some in Hget. unfold CHORD_VARIATIONS in Hget.
  elem_cases Hget; injection Hget as -> ->;
    (split; compute_done).
Qed.

Lemma NoDup_with_root (root : string) (qualities : list string) :
  NoDup qualities → NoDup ((λ q, root ++ q)%string <$> qualities).
Proof.
  intros Hnodup. apply NoDup_fmap_2_strong; [|done].
  intros q1 q2 _ _. apply str_app_inj_l.
Qed.

End variation_lemmas.

(** C9. For every chord [c] and every [k >= 0]: when the quality parsed
    from [c] is a key of the variation table, [get_chord_variations]
    returns [c] followed by exactly [min(k, number of candidates)]
    substitutes, each the root of [c] followed by a candidate quality of
    that entry, all pairwise distinct (and distinct from [c]); when the
    quality is not a key of the table, or [c] is empty, it returns [[c]]
    alone. *)
Theorem get_chord_variations_spec `{PyRandomSpec rng}
    (chord : string) (k : Z) (st : rng) :
  0 ≤ k →
  match Variations.parse_chord chord with
  | Some (root, quality) =>
      match dict_get quality CHORD_VARIATIONS with
      | Some candidates =>
          ∃ selected,
            (get_chord_variations chord k st).1
              = Ok (chord :: ((λ q, root ++ q)%string <$> selected))
            ∧ length selected = Z.to_nat (Z.min k (len candidates))
            ∧ (∀ q, q ∈ selected → q ∈ candidates)
            ∧ NoDup (chord :: ((λ q, root ++ q)%string <$> selected))
      | None => (get_chord_variations chord k st).1 = Ok [chord]
      end
  | None => (get_chord_variations chord k st).1 = Ok [chord]
  end.
Proof.
  intros Hk. unfold get_chord_variations.
  destruct (Variations.parse_chord chord) as [[root quality]|] eqn:Hparse; [|done].
  destruct (dict_get quality CHORD_VARIATIONS) as [candidates|] eqn:Hget; [|done].
  destruct (CHORD_VARIATIONS_entries _ _ Hget) as [Hnodup Hself].
  destruct (sample_spec candidates (Z.min k (len candidates)) st)
    as (selected & Hsel & Hlen & Hin & Hdistinct); [unfold len; lia|].
  destruct (sample candidates (Z.min k (len candidates)) st) as [r st'].
  cbn [fst] in Hsel. subst r. exists selected.
  split; [reflexivity|]. split; [done|]. split; [done|].
  apply NoDup_cons. split; [|by apply NoDup_with_root, Hdistinct].
  rewrite <- (variation_parse_chord_join _ _ _ Hparse).
  intros Hmem. apply list_elem_of_fmap in Hmem as (q & Heq & Hq).
  apply str_app_inj_l in Heq. subst q. by apply Hself, Hin.
Qed.

(** ** Dictionaries and sorting *)

Section dict_lemmas.
Context `{Countable K} {V : Type}.
Implicit Types (items : list (K * V)) (k : K) (v : V).

Lemma dict_of_items_snoc items (item : K * V) :
  dict_of_items (items ++ [item]) = <[item.1 := item.2]> (dict_of_items items).
Proof. unfold dict_of_items. by rewrite fold_left_app. Qed.

Lemma dict_of_items_lookup_Some items k v :
  dict_of_items items !! k = Some v → (k, v) ∈ items.
Proof.
  induction items as [|[k' v'] items IH] using rev_ind; [done|].
  rewrite dict_of_items_snoc, lookup_insert. cbn [fst snd].
  case_decide as Hk.
  - intros [= <-]. subst k'. apply elem_of_app. right. apply list_elem_of_here.
  - intros Hlook. apply elem_of_app. left. by apply IH.
Qed.

Lemma dict_of_items_lookup_None items k :
  dict_of_items items !! k = None ↔ k ∉ items.*1.
Proof.
  induction items as [|[k' v'] items IH] using rev_ind; [by split; [set_solver|]|].
  rewrite dict_of_items_snoc, lookup_insert, fmap_app, not_elem_of_app.
  cbn [fst snd fmap list_fmap]. case_decide as Hk.
  - subst k'. split; [done|]. intros [_ Hne]. by apply not_elem_of_cons in Hne as [? _].
  - rewrite IH. split; [|by intros [? _]].
    intros Hnot. split; [done|]. apply not_elem_of_cons. split; [done|].
    apply not_elem_of_nil.
Qed.

Lemma dict_of_items_is_Some items k :
  k ∈ items.*1 → is_Some (dict_of_items items !! k).
Proof.
  intros Hin. destruct (dict_of_items items !! k) eqn:E; [eauto|].
  by apply dict_of_items_lookup_None in E.
Qed.

Lemma dict_of_items_lookup_NoDup items k v :
  NoDup items.*1 → (k, v) ∈ items → dict_of_items items !! k = Some v.
Proof.
  induction items as [|[k' v'] items IH] using rev_ind;
    [intros _ Hin; by apply elem_of_nil in Hin|].
  rewrite fmap_app. cbn [fmap list_fmap fst]. intros Hnodup Hin.
  apply NoDup_app in Hnodup as (Hnodup & Hfresh & _).
  rewrite dict_of_items_snoc, lookup_insert. cbn [fst snd].
  apply elem_of_app in Hin as [Hin|Hin].
  - case_decide as Hk; [|by apply IH]. subst k'.
    exfalso. apply (Hfresh k); [|apply list_elem_of_here].
    apply list_elem_of_fmap. by exists (k, v).
  - apply list_elem_of_singleton in Hin. injection Hin as -> ->.
    by rewrite decide_True.
Qed.

End dict_lemmas.

Section enumerate_lemmas.
Context {A : Type}.
Implicit Types (l : list A) (x : A).

Lemma enumerate_from_lookup (s : Z) l (n : nat) :
  enumerate_from s l !! n = (λ x, (s + Z.of_nat n, x)) <$> l !! n.
Proof.
  revert s n. induction l as [|y l IH]; intros s [|n]; cbn; try done.
  - by rewrite Z.add_0_r.
  - rewrite IH. destruct (l !! n); cbn; [|done]. do 2 f_equal. lia.
Qed.

Lemma elem_of_enumerate (i : Z) x l :
  (i, x) ∈ enumerate l ↔ 0 ≤ i ∧ l !! Z.to_nat i = Some x.
Proof.
  unfold enumerate. rewrite list_elem_of_lookup. split.
  - intros [n Hn]. rewrite enumerate_from_lookup in Hn.
    destruct (l !! n) as [y|] eqn:Hy; [|done]. injection Hn as <- <-.
    split; [lia|]. by rewrite Z.add_0_l, Nat2Z.id.
  - intros [Hi Hx]. exists (Z.to_nat i).
    rewrite enumerate_from_lookup, Hx. cbn. do 2 f_equal. lia.
Qed.

Lemma enumerate_from_values (s : Z) l : (enumerate_from s l).*2 = l.
Proof. revert s. induction l as [|y l IH]; intros s; cbn; [done|]. by rewrite IH. Qed.

End enumerate_lemmas.

Section sorted_lemmas.

Lemma sorted_StronglySorted (s : gset string) : StronglySorted str_le (sorted s).
Proof. apply StronglySorted_merge_sort; apply _. Qed.

Lemma sorted_Permutation (s : gset string) : sorted s ≡ₚ elements s.
Proof. apply merge_sort_Permutation. Qed.

Lemma sorted_NoDup (s : gset string) : NoDup (sorted s).
Proof. rewrite sorted_Permutation. apply NoDup_elements. Qed.

Lemma elem_of_sorted (s : gset string) (x : string) : x ∈ sorted s ↔ x ∈ s.
Proof. rewrite sorted_Permutation. apply elem_of_elements. Qed.

(** Whatever the order in which the set is iterated, sorting it gives the
    same list. *)
Lemma sorted_any_order (s : gset string) (order : list string) :
  NoDup order → (∀ x, x ∈ order ↔ x ∈ s) →
  merge_sort str_le order = sorted s.
Proof.
  intros Hnodup Hsame. apply (StronglySorted_unique str_le).
  - apply StronglySorted_merge_sort; apply _.
  - apply sorted_StronglySorted.
  - rewrite merge_sort_Permutation, sorted_Permutation.
    apply NoDup_Permutation; [done|apply NoDup_elements|].
    intros x. by rewrite Hsame, elem_of_elements.
Qed.

(** Positions in a sorted duplicate-free list follow the order. *)
Lemma sorted_positions (l : list string) (i j : nat) (x y : string) :
  StronglySorted str_le l → NoDup l →
  l !! i = Some x → l !! j = Some y →
  (i ≤ j)%nat ↔ str_le x y.
Proof.
  intros Hsorted Hnodup Hx Hy.
  assert (Hmono : ∀ i j x y, l !! i = Some x → l !! j = Some y →
                             (i ≤ j)%nat → str_le x y).
  { clear i j x y Hx Hy Hnodup. induction Hsorted as [|z l Hsorted IH Hall].
    - intros i j x y Hx. by rewrite lookup_nil in Hx.
    - intros [|i] [|j] x y Hx Hy Hij; cbn in Hx, Hy.
      + injection Hx as ->. injection Hy as ->.
        destruct (total str_le y y); done.
      + injection Hx as ->. rewrite Forall_forall in Hall.
        apply Hall. by apply list_elem_of_lookup_2 in Hy.
      + lia.
      + apply (IH i j); [done..|lia]. }
  split; [by apply Hmono|].
  intros Hle. destruct (decide (i ≤ j)%nat) as [|Hgt]; [done|].
  assert (str_le y x) as Hle' by (apply (Hmono j i); [done..|lia]).
  assert (x = y) as -> by (by apply (anti_symm str_le)).
  rewrite (NoDup_lookup _ _ _ _ Hnodup Hx Hy). done.
Qed.

End sorted_lemmas.

(** ** Vocabularies *)

Import Preprocessing.

Section vocabulary_lemmas.
Implicit Types (l : list string) (c : string) (i : Z) (d : gmap string Z).

Lemma index_dict_keys l : ((λ item : Z * string, (item.2, item.1)) <$> enumerate l).*1 = l.
Proof.
  rewrite <- list_fmap_compose. unfold enumerate.
  rewrite <- (enumerate_from_values 0 l) at 2. by apply list_fmap_ext.
Qed.

Lemma index_dict_lookup_Some l c i :
  index_dict l !! c = Some i → 0 ≤ i ∧ l !! Z.to_nat i = Some c.
Proof.
  intros Hlook. apply dict_of_items_lookup_Some in Hlook.
  apply list_elem_of_fmap in Hlook as ([j x] & [= -> ->] & Hin).
  by apply elem_of_enumerate in Hin.
Qed.

Lemma index_dict_is_Some l c : c ∈ l ↔ is_Some (index_dict l !! c).
Proof.
  split.
  - intros Hin. apply dict_of_items_is_Some. by rewrite index_dict_keys.
  - intros [i Hi]. apply index_dict_lookup_Some in Hi as [_ Hi].
    by apply list_elem_of_lookup_2 in Hi.
Qed.

Lemma index_dict_lookup_NoDup l (n : nat) c :
  NoDup l → l !! n = Some c → index_dict l !! c = Some (Z.of_nat n).
Proof.
  intros Hnodup Hn. apply dict_of_items_lookup_NoDup.
  - by rewrite index_dict_keys.
  - apply list_elem_of_fmap. exists (Z.of_nat n, c). split; [done|].
    apply elem_of_enumerate. split; [lia|]. by rewrite Nat2Z.id.
Qed.

Lemma index_dict_lookup_iff l c i :
  NoDup l → index_dict l !! c = Some i ↔ 0 ≤ i ∧ l !! Z.to_nat i = Some c.
Proof.
  intros Hnodup. split; [apply index_dict_lookup_Some|].
  intros [Hi Hc]. rewrite (index_dict_lookup_NoDup l (Z.to_nat i) c) by done.
  f_equal. lia.
Qed.

Lemma index_dict_inj l c1 c2 i :
  index_dict l !! c1 = Some i → index_dict l !! c2 = Some i → c1 = c2.
Proof.
  intros [_ H1]%index_dict_lookup_Some [_ H2]%index_dict_lookup_Some. congruence.
Qed.

Lemma invert_dict_lookup d i c :
  (∀ c1 c2 j, d !! c1 = Some j → d !! c2 = Some j → c1 = c2) →
  invert_dict d !! i = Some c ↔ d !! c = Some i.
Proof.
  intros Hinj. unfold invert_dict. split.
  - intros Hlook. apply dict_of_items_lookup_Some in Hlook.
    apply list_elem_of_fmap in Hlook as ([c' j] & [= -> ->] & Hin).
    by apply elem_of_map_to_list in Hin.
  - intros Hlook. apply dict_of_items_lookup_NoDup.
    + rewrite <- list_fmap_compose. apply NoDup_fmap_2_strong; [|apply NoDup_map_to_list].
      intros [c1 j1] [c2 j2] H1%elem_of_map_to_list H2%elem_of_map_to_list Heq.
      cbn in Heq. subst j2. f_equal. by apply (Hinj c1 c2 j1).
    + apply list_elem_of_fmap. exists (c, i). split; [done|].
      by apply elem_of_map_to_list.
Qed.

Lemma elem_of_all_chords (progressions : list prog) c :
  c ∈ all_chords progressions
  ↔ ∃ p, p ∈ progressions ∧ c ∈ progression p.
Proof.
  unfold all_chords.
  assert (Hacc : ∀ (acc : gset string),
    c ∈ foldl (λ acc p, acc ∪ list_to_set (progression p)) acc progressions
    ↔ c ∈ acc ∨ ∃ p, p ∈ progressions ∧ c ∈ progression p).
  { induction progressions as [|q qs IH]; intros acc; cbn.
    - split; [by left|]. intros [?|(p & Hp & _)]; [done|]. by apply elem_of_nil in Hp.
    - rewrite IH, elem_of_union, elem_of_list_to_set. split.
      + intros [[?|?]|(p & Hp & Hc)]; [by left| |].
        * right. exists q. split; [apply list_elem_of_here|done].
        * right. exists p. split; [by apply list_elem_of_further|done].
      + intros [?|(p & Hp & Hc)]; [by left; left|].
        apply elem_of_cons in Hp as [->|Hp]; [by left; right|].
        right. by exists p. }
  rewrite Hacc. split; [|by right]. intros [Hc|?]; [|done].
  by apply not_elem_of_empty in Hc.
Qed.

Lemma elem_of_all_values (axis : prog → string) (progressions : list prog) c :
  c ∈ all_values axis progressions ↔ ∃ p, p ∈ progressions ∧ c = axis p.
Proof.
  unfold all_values.
  assert (Hacc : ∀ (acc : gset string),
    c ∈ foldl (λ acc p, acc ∪ {[ axis p ]}) acc progressions
    ↔ c ∈ acc ∨ ∃ p, p ∈ progressions ∧ c = axis p).
  { induction progressions as [|q qs IH]; intros acc; cbn.
    - split; [by left|]. intros [?|(p & Hp & _)]; [done|]. by apply elem_of_nil in Hp.
    - rewrite IH, elem_of_union, elem_of_singleton. split.
      + intros [[?|?]|(p & Hp & Hc)]; [by left| |].
        * right. exists q. split; [apply list_elem_of_here|done].
        * right. exists p. split; [by apply list_elem_of_further|done].
      + intros [?|(p & Hp & Hc)]; [by left; left|].
        apply elem_of_cons in Hp as [->|Hp]; [by left; right|].
        right. by exists p. }
  rewrite Hacc. split; [|by right]. intros [Hc|?]; [|done].
  by apply not_elem_of_empty in Hc.
Qed.

Lemma all_chords_Permutation (ps ps' : list prog) :
  ps' ≡ₚ ps → all_chords ps' = all_chords ps.
Proof.
  intros Hperm. apply set_eq. intros c. rewrite !elem_of_all_chords.
  by setoid_rewrite Hperm.
Qed.

Lemma all_values_Permutation (axis : prog → string) (ps ps' : list prog) :
  ps' ≡ₚ ps → all_values axis ps' = all_values axis ps.
Proof.
  intros Hperm. apply set_eq. intros c. rewrite !elem_of_all_values.
  by setoid_rewrite Hperm.
Qed.

Lemma chord_list_NoDup (progressions : list prog) :
  (∀ c, c ∈ all_chords progressions → c ∉ SPECIAL_TOKENS) →
  NoDup (chord_list progressions).
Proof.
  intros Hfresh. unfold chord_list. apply NoDup_app. split; [compute_done|].
  split; [|apply sorted_NoDup].
  intros c Hspecial Hc%elem_of_sorted. by apply (Hfresh c).
Qed.

Lemma axis_vocab_lookup (axis : prog → string) (progressions : list prog) c i :
  axis_vocab axis progressions !! c = Some i
  ↔ 0 ≤ i ∧ sorted (all_values axis progressions) !! Z.to_nat i = Some c.
Proof. apply index_dict_lookup_iff, sorted_NoDup. Qed.

(** The inverse table of a built vocabulary inverts its table. *)
Lemma built_id_to_chord (self0 : preprocessor) (progressions : list prog) i c :
  let self := build_vocabularies self0 progressions in
  id_to_chord self !! i = Some c ↔ chord_to_id self !! c = Some i.
Proof.
  unfold build_vocabularies. cbn [id_to_chord chord_to_id].
  apply invert_dict_lookup. intros c1 c2 j. apply index_dict_inj.
Qed.

Lemma built_special_tokens (self0 : preprocessor) (progressions : list prog) c :
  c ∈ SPECIAL_TOKENS →
  is_Some (chord_to_id (build_vocabularies self0 progressions) !! c).
Proof.
  intros Hc. unfold build_vocabularies. cbn [chord_to_id].
  apply index_dict_is_Some. unfold chord_list.
  apply elem_of_app. by left.
Qed.

(** Without special-token strings among the corpus chords, the special
    tokens keep the ids of their positions. *)
Lemma built_special_ids (self0 : preprocessor) (progressions : list prog) :
  (∀ c, c ∈ all_chords progressions → c ∉ SPECIAL_TOKENS) →
  chord_to_id (build_vocabularies self0 progressions) !! PAD_TOKEN = Some 0
  ∧ chord_to_id (build_vocabularies self0 progressions) !! START_TOKEN = Some 1
  ∧ chord_to_id (build_vocabularies self0 progressions) !! END_TOKEN = Some 2
  ∧ chord_to_id (build_vocabularies self0 progressions) !! UNK_TOKEN = Some 3.
Proof.
  intros Hfresh. pose proof (chord_list_NoDup _ Hfresh) as Hnodup.
  unfold build_vocabularies. cbn [chord_to_id].
  repeat split; by apply index_dict_lookup_iff.
Qed.

End vocabulary_lemmas.

Example build_vocabularies_sample_chords :
  let self := build_vocabularies (init 12) sample_corpus in
  (λ c, chord_to_id self !! c) <$> ["<PAD>"; "<START>"; "<END>"; "<UNK>"; "Am"; "C"; "F"; "G"; "H"]
  = [Some 0; Some 1; Some 2; Some 3; Some 4; Some 5; Some 6; Some 7; None]
  ∧ (λ i, id_to_chord self !! i) <$> [0; 3; 4; 7; 8]
    = [Some "<PAD>"; Some "<UNK>"; Some "Am"; Some "G"; None]
  ∧ (λ g, genre_vocab self !! g) <$> ["pop"; "rock"; "jazz"] = [Some 0; Some 1; None]
  ∧ vocab_size self = 8.
Proof. vm_compute. done. Qed.

(** C6, as the code has it. For every corpus none of whose chords is
    literally one of the four special-token strings, [build_vocabularies]
    gives PAD, START, END, UNK the ids 0, 1, 2, 3 and gives every chord its
    position in [PAD, START, END, UNK] followed by the corpus chords in
    sorted order without duplicates (so corpus chords get the ids from 4
    on, increasing with the lexicographic order); the id of a value of a
    metadata axis is its position among the sorted distinct values of that
    axis. The result does not depend on the order in which the sets are
    iterated, nor on the order of the corpus. *)
Theorem build_vocabularies_ids (self0 : preprocessor) (progressions : list prog) :
  (∀ c, c ∈ all_chords progressions → c ∉ SPECIAL_TOKENS) →
  let self := build_vocabularies self0 progressions in
  let chords := sorted (all_chords progressions) in
  (chord_to_id self !! PAD_TOKEN = Some 0
   ∧ chord_to_id self !! START_TOKEN = Some 1
   ∧ chord_to_id self !! END_TOKEN = Some 2
   ∧ chord_to_id self !! UNK_TOKEN = Some 3)
  ∧ (∀ c i, chord_to_id self !! c = Some i
            ↔ 0 ≤ i ∧ (SPECIAL_TOKENS ++ chords)%list !! Z.to_nat i = Some c)
  ∧ (∀ c, c ∈ chords ↔ ∃ p, p ∈ progressions ∧ c ∈ progression p)
  ∧ (∀ (n : nat) c, chords !! n = Some c →
       chord_to_id self !! c = Some (4 + Z.of_nat n))
  ∧ (∀ c1 c2 i1 i2, c1 ∈ chords → c2 ∈ chords →
       chord_to_id self !! c1 = Some i1 → chord_to_id self !! c2 = Some i2 →
       i1 ≤ i2 ↔ str_le c1 c2)
  ∧ (∀ v i, genre_vocab self !! v = Some i
       ↔ 0 ≤ i ∧ sorted (all_values genre progressions) !! Z.to_nat i = Some v)
  ∧ (∀ v i, mood_vocab self !! v = Some i
       ↔ 0 ≤ i ∧ sorted (all_values mood progressions) !! Z.to_nat i = Some v)
  ∧ (∀ v i, key_vocab self !! v = Some i
       ↔ 0 ≤ i ∧ sorted (all_values key progressions) !! Z.to_nat i = Some v)
  ∧ (∀ v i, scale_type_vocab self !! v = Some i
       ↔ 0 ≤ i ∧ sorted (all_values scale_type progressions) !! Z.to_nat i = Some v)
  ∧ (∀ order, NoDup order → (∀ c, c ∈ order ↔ c ∈ all_chords progressions) →
       merge_sort str_le order = chords)
  ∧ (∀ progressions', progressions' ≡ₚ progressions →
       build_vocabularies self0 progressions' = self).
Proof.
  intros Hfresh self chords.
  pose proof (chord_list_NoDup _ Hfresh) as Hnodup.
  assert (Hiff : ∀ c i, chord_to_id self !! c = Some i
            ↔ 0 ≤ i ∧ (SPECIAL_TOKENS ++ chords)%list !! Z.to_nat i = Some c).
  { intros c i. by apply index_dict_lookup_iff. }
  assert (Hpos : ∀ (n : nat) c, chords !! n = Some c →
       chord_to_id self !! c = Some (4 + Z.of_nat n)).
  { intros n c Hn. apply Hiff. split; [lia|].
    replace (Z.to_nat (4 + Z.of_nat n)) with (4 + n)%nat by lia. exact Hn. }
  split; [by apply built_special_ids|].
  split; [done|].
  split.
  { intros c. subst chords. by rewrite elem_of_sorted, elem_of_all_chords. }
  split; [done|].
  split.
  { intros c1 c2 i1 i2 [n1 Hn1]%list_elem_of_lookup_1 [n2 Hn2]%list_elem_of_lookup_1.
    rewrite (Hpos _ _ Hn1), (Hpos _ _ Hn2). intros [= <-] [= <-].
    rewrite <- (sorted_positions chords n1 n2 c1 c2);
      [lia|apply sorted_StronglySorted|apply sorted_NoDup|done..]. }
  do 4 (split; [intros v i; apply axis_vocab_lookup|]).
  split; [intros order; apply sorted_any_order|].
  intros ps' Hperm. subst self. unfold build_vocabularies, chord_list, axis_vocab.
  by rewrite (all_chords_Permutation _ _ Hperm),
    !(all_values_Permutation _ _ _ Hperm).
Qed.

(** C6 as stated fails on a corpus that contains the chord "<PAD>": the
    token then gets the id 4 of its position among the corpus chords. *)
Lemma build_vocabularies_ids_counterexample :
  ¬ (∀ progressions : list prog,
       chord_to_id (build_vocabularies (init 12) progressions) !! PAD_TOKEN = Some 0).
Proof.
  intros Hall.
  specialize (Hall [sample_prog ["<PAD>"; "C"] "pop" "happy"]).
  vm_compute in Hall. discriminate Hall.
Qed.

Section codec_lemmas.

Lemma encode_progression_known (self : preprocessor) (unk : Z) (p : list string) :
  chord_to_id self !! UNK_TOKEN = Some unk →
  encode_progression self p
  = Ok ((λ c, default unk (chord_to_id self !! c)) <$> p).
Proof.
  intros Hunk. induction p as [|c p IH]; [done|].
  cbn [encode_progression]. rewrite IH, Hunk, fmap_cons.
  destruct (chord_to_id self !! c); reflexivity.
Qed.

End codec_lemmas.

(** C7. In a vocabulary built from any corpus, encoding never fails: a
    known chord encodes to its id and an unknown one to the id of UNK;
    decoding the result gives back every known chord and gives the UNK
    token at the place of every unknown chord. In particular a progression
    made of known chords only is returned unchanged by encode-then-decode. *)
Theorem encode_decode_round_trip (self0 : preprocessor) (progressions : list prog)
    (p : list string) :
  let self := build_vocabularies self0 progressions in
  ∃ unk ids,
    chord_to_id self !! UNK_TOKEN = Some unk
    ∧ encode_progression self p = Ok ids
    ∧ ids = (λ c, default unk (chord_to_id self !! c)) <$> p
    ∧ decode_progression self ids
      = (λ c, if bool_decide (is_Some (chord_to_id self !! c)) then c
              else UNK_TOKEN) <$> p
    ∧ (Forall (λ c, is_Some (chord_to_id self !! c)) p →
       decode_progression self ids = p).
Proof.
  intros self.
  destruct (built_special_tokens self0 progressions UNK_TOKEN) as [unk Hunk];
    [compute_done|].
  pose proof (built_id_to_chord self0 progressions) as Hinv.
  fold self in Hunk. cbn zeta in Hinv. fold self in Hinv. clearbody self.
  exists unk, ((λ c, default unk (chord_to_id self !! c)) <$> p).
  split; [done|]. split; [by apply encode_progression_known|]. split; [done|].
  assert (Hdec : decode_progression self
                   ((λ c, default unk (chord_to_id self !! c)) <$> p)
      = (λ c, if bool_decide (is_Some (chord_to_id self !! c)) then c
              else UNK_TOKEN) <$> p).
  { unfold decode_progression. change map with (@fmap list _).
    rewrite <- list_fmap_compose. apply list_fmap_ext. intros _ c _.
    unfold compose.
    destruct (chord_to_id self !! c) as [i|] eqn:Hc; cbn.
    - apply Hinv in Hc. by rewrite Hc.
    - apply Hinv in Hunk. by rewrite Hunk. }
  split; [done|].
  intros Hknown. rewrite Hdec. rewrite <- (list_fmap_id p) at 2.
  apply Forall_fmap_ext_1. eapply Forall_impl; [exact Hknown|].
  intros c Hc. cbn. by rewrite bool_decide_true.
Qed.

(** C8. In a vocabulary built from any corpus, [pad_sequence] returns a
    sequence of length exactly [L] for every id sequence and every target
    length [L >= 0] (given explicitly or as the preprocessor's
    [max_sequence_length]): the first [L] elements when the input is
    longer, the input followed by PAD ids when it is shorter, the input
    itself when its length is [L]. *)
Theorem pad_sequence_length (self0 : preprocessor) (progressions : list prog)
    (sequence : list Z) (max_length : option Z) :
  let self := build_vocabularies self0 progressions in
  let L := default (max_sequence_length self) max_length in
  0 ≤ L →
  ∃ pad_id padded,
    chord_to_id self !! PAD_TOKEN = Some pad_id
    ∧ pad_sequence self sequence max_length = Ok padded
    ∧ len padded = L
    ∧ (L < len sequence → padded = take (Z.to_nat L) sequence)
    ∧ (len sequence < L →
       padded = (sequence ++ replicate (Z.to_nat (L - len sequence)) pad_id)%list)
    ∧ (len sequence = L → padded = sequence).
Proof.
  intros self L HL.
  destruct (built_special_tokens self0 progressions PAD_TOKEN) as [pad_id Hpad];
    [compute_done|].
  fold self in Hpad. exists pad_id. unfold pad_sequence. fold L. rewrite Hpad.
  cbn [of_option mbind result_bind bind]. unfold len in *.
  destruct (Z.ltb_spec L (Z.of_nat (length sequence))) as [Hlong|Hle].
  - exists (take (Z.to_nat L) sequence). unfold slice_to.
    destruct (Z.leb_spec 0 L) as [_|?]; [|lia].
    split; [done|]. split; [done|]. split; [rewrite length_take; lia|].
    split; [done|]. split; intros; lia.
  - destruct (Z.ltb_spec (Z.of_nat (length sequence)) L) as [Hshort|Hge].
    + eexists. split; [done|]. split; [done|].
      split; [rewrite length_app, length_replicate; lia|].
      split; [intros; lia|]. split; [done|]. intros; lia.
    + exists sequence. split; [done|]. split; [done|]. split; [lia|].
      split; [intros; lia|]. split; [intros; lia|done].
Qed.

(** ** Dataset split *)

Example ratios_default_ok :
  ratios_sum_to_one default_train_ratio default_val_ratio default_test_ratio = true.
Proof. vm_compute. reflexivity. Qed.

Example ratios_bad : ratios_sum_to_one 0.8 0.15 0.1 = false.
Proof. vm_compute. reflexivity. Qed.

Example cut_train_1000 :
  int_of_float (float_of_int 1000 * default_train_ratio)%float = Ok 800.
Proof. vm_compute. reflexivity. Qed.

Example cut_val_1000 :
  int_of_float (float_of_int 1000 * default_val_ratio)%float = Ok 150.
Proof. vm_compute. reflexivity. Qed.

Example int_of_float_truncates : int_of_float (-2.5)%float = Ok (-2).
Proof. vm_compute. reflexivity. Qed.

Example slice_negative : slice (-2) 4 [1; 2; 3; 4; 5; 6; 7; 8; 9; 10] = [].
Proof. reflexivity. Qed.

Section slice_lemmas.
Context {A : Type}.
Implicit Types (l : list A) (a b : Z).

Lemma slice_to_nonneg a l : 0 ≤ a → slice_to a l = take (Z.to_nat a) l.
Proof. intros Ha. unfold slice_to. by destruct (Z.leb_spec 0 a); [|lia]. Qed.

Lemma slice_from_nonneg a l : 0 ≤ a → slice_from a l = drop (Z.to_nat a) l.
Proof. intros Ha. unfold slice_from. by destruct (Z.leb_spec 0 a); [|lia]. Qed.

Lemma slice_nonneg a b l :
  0 ≤ a → 0 ≤ b →
  slice a (a + b) l = take (Z.to_nat b) (drop (Z.to_nat a) l).
Proof.
  intros Ha Hb. unfold slice.
  destruct (Z.leb_spec 0 a) as [_|?]; [|lia].
  destruct (Z.leb_spec 0 (a + b)) as [_|?]; [|lia].
  set (n := Z.of_nat (length l)).
  destruct (Z.le_gt_cases n a) as [Hge|Hlt].
  - rewrite (Z.min_r a n) by lia.
    rewrite !drop_ge by lia. by rewrite !take_nil.
  - rewrite (Z.min_l a n) by lia.
    destruct (Z.le_gt_cases (a + b) n) as [Hin|Hout].
    + rewrite Z.min_l by lia. f_equal. lia.
    + rewrite Z.min_r by lia.
      rewrite !take_ge; [done|rewrite length_drop; lia..].
Qed.

Lemma split_cover (n m : nat) l :
  (take n l ++ take m (drop n l) ++ drop (n + m) l)%list = l.
Proof. by rewrite <- drop_drop, take_drop, take_drop. Qed.

End slice_lemmas.

Section float_lemmas.

Lemma binary_round_aux_not_negative (m e : Z) (l : location) :
  not_negative (binary_round_aux prec emax false m e l).
Proof.
  unfold binary_round_aux.
  destruct (shr_fexp prec emax m e l) as [mrs' e'].
  destruct (shr_fexp prec emax _ e' loc_Exact) as [mrs'' e''].
  destruct (shr_m mrs''); [done| |done]. by destruct (_ <=? _).
Qed.

Lemma float_of_int_not_negative (n : Z) : not_negative (Prim2SF (float_of_int n)).
Proof.
  unfold float_of_int. rewrite of_uint63_spec. unfold binary_normalize.
  pose proof (Uint63.to_Z_bounded (Uint63.of_Z n)) as Hb.
  destruct (Uint63.to_Z (Uint63.of_Z n)) as [|p|p]; [done| |lia].
  unfold binary_round. destruct (shl_align _ _ _) as [mz ez].
  apply binary_round_aux_not_negative.
Qed.

Lemma leb_zero_not_negative (r : float) :
  (0 <=? r)%float = true → not_negative (Prim2SF r).
Proof.
  rewrite leb_spec. change (Prim2SF 0) with (S754_zero false).
  by destruct (Prim2SF r) as [| | |[|] ? ?].
Qed.

(** The cut point computed from a ratio that is not negative is not
    negative. *)
Lemma int_of_float_mul_nonneg (n : Z) (r : float) (k : Z) :
  (0 <=? r)%float = true →
  int_of_float (float_of_int n * r)%float = Ok k → 0 ≤ k.
Proof.
  intros Hr%leb_zero_not_negative. unfold int_of_float. rewrite mul_spec.
  pose proof (float_of_int_not_negative n) as Hn.
  unfold SF64mul, SFmul.
  destruct (Prim2SF (float_of_int n)) as [sx|sx| |sx mx ex],
           (Prim2SF r) as [sy|sy| |sy my ey]; try (intros [= <-]; lia); try done.
  destruct sx; [done|]. destruct sy; [done|]. cbn [xorb].
  pose proof (binary_round_aux_not_negative (Z.pos (mx * my)) (ex + ey) loc_Exact) as Hs.
  destruct (binary_round_aux _ _ _ _ _ _) as [|?| |s m e];
    try (intros [= <-]; lia); try done.
  destruct s; [done|]. intros [= <-].
  destruct (Z.leb_spec 0 e).
  - apply Z.mul_nonneg_nonneg; [lia|apply Z.pow_nonneg; lia].
  - apply Z.div_pos; [lia|apply Z.pow_pos_nonneg; lia].
Qed.

End float_lemmas.

(** C5. [split_dataset] raises [AssertionError] without touching the
    generator when the ratios do not sum to 1 within 1e-6. Otherwise it
    seeds the generator with [seed], shuffles a copy of the input and, for
    ratios that are not negative, cuts at [n_train = int(N * train_ratio)]
    and [n_train + n_val] with [n_val = int(N * val_ratio)]: it returns the
    first [n_train] shuffled samples, the next [n_val] and the remainder.
    The three parts concatenate to the shuffled
    list, hence form a partition of the input (without overlap when the
    input has no repetition), and they depend on the seed and the input
    only, not on the earlier state of the generator. With the ratios 0.8,
    0.15, 0.05 and 1000 samples the sizes are 800, 150 and 50. *)
Theorem split_dataset_spec `{PyRandomSpec rng} {A : Type} (data : list A)
    (train_ratio val_ratio test_ratio : float) (seed_value : Z) (st : rng) :
  (ratios_sum_to_one train_ratio val_ratio test_ratio = false →
     split_dataset data train_ratio val_ratio test_ratio seed_value st
     = (Raise AssertionError, st))
  ∧ (∀ n_train n_val : Z,
       ratios_sum_to_one train_ratio val_ratio test_ratio = true →
       int_of_float (float_of_int (len data) * train_ratio)%float = Ok n_train →
       int_of_float (float_of_int (len data) * val_ratio)%float = Ok n_val →
       (0 <=? train_ratio)%float = true → (0 <=? val_ratio)%float = true →
       let shuffled := (shuffle data (seed seed_value)).1 in
       let train := take (Z.to_nat n_train) shuffled in
       let val := take (Z.to_nat n_val) (drop (Z.to_nat n_train) shuffled) in
       let test := drop (Z.to_nat (n_train + n_val)) shuffled in
       (split_dataset data train_ratio val_ratio test_ratio seed_value st).1
         = Ok (train, val, test)
       ∧ (train ++ val ++ test)%list = shuffled
       ∧ (train ++ val ++ test)%list ≡ₚ data
       ∧ (NoDup data → NoDup (train ++ val ++ test)%list)
       ∧ (∀ st' : rng,
            (split_dataset data train_ratio val_ratio test_ratio seed_value st').1
            = (split_dataset data train_ratio val_ratio test_ratio seed_value st).1))
  ∧ (length data = 1000%nat →
       ∃ train val test,
         (split_dataset data default_train_ratio default_val_ratio
            default_test_ratio default_seed st).1 = Ok (train, val, test)
         ∧ length train = 800%nat ∧ length val = 150%nat
         ∧ length test = 50%nat).
Proof.
  assert (Hgen : ∀ (tr vr te : float) (n_train n_val : Z) (st0 : rng),
    ratios_sum_to_one tr vr te = true →
    int_of_float (float_of_int (len data) * tr)%float = Ok n_train →
    int_of_float (float_of_int (len data) * vr)%float = Ok n_val →
    0 ≤ n_train → 0 ≤ n_val →
    (split_dataset data tr vr te seed_value st0).1
    = Ok (take (Z.to_nat n_train) (shuffle data (seed seed_value)).1,
          take (Z.to_nat n_val)
               (drop (Z.to_nat n_train) (shuffle data (seed seed_value)).1),
          drop (Z.to_nat (n_train + n_val)) (shuffle data (seed seed_value)).1)).
  { intros tr vr te n_train n_val st0 Hsum Htrain Hval Hn_train Hn_val.
    unfold split_dataset. rewrite Hsum. cbn [negb].
    pose proof (shuffle_perm A data (seed seed_value)) as Hperm.
    destruct (shuffle data (seed seed_value)) as [shuffled st1]. cbn [fst] in *.
    assert (len shuffled = len data) as ->
      by (unfold len; by rewrite (Permutation_length Hperm)).
    rewrite Htrain, Hval. cbn [fst mbind result_bind bind].
    by rewrite slice_to_nonneg, slice_nonneg, slice_from_nonneg by lia. }
  split; [|split].
  - intros Hsum. unfold split_dataset. by rewrite Hsum.
  - intros n_train n_val Hsum Htrain Hval Htr Hvr shuffled train val test.
    pose proof (int_of_float_mul_nonneg _ _ _ Htr Htrain) as Hn_train.
    pose proof (int_of_float_mul_nonneg _ _ _ Hvr Hval) as Hn_val.
    pose proof (shuffle_perm A data (seed seed_value)) as Hperm. fold shuffled in Hperm.
    assert (Hcover : (train ++ val ++ test)%list = shuffled).
    { subst train val test. rewrite Z2Nat.inj_add by lia. apply split_cover. }
    split; [by apply Hgen|]. split; [done|].
    split; [by rewrite Hcover|]. split; [intros Hnodup; by rewrite Hcover, Hperm|].
    intros st'. by rewrite !(Hgen _ _ _ n_train n_val).
  - intros Hlen.
    pose proof (shuffle_perm A data (seed default_seed)) as Hperm.
    pose proof (Permutation_length Hperm) as Hlen'. rewrite Hlen in Hlen'.
    assert (len data = 1000) as Hlen'' by (unfold len; lia).
    clear Hgen.
    assert (Hgen : (split_dataset data default_train_ratio default_val_ratio
                      default_test_ratio default_seed st).1
      = Ok (take 800 (shuffle data (seed default_seed)).1,
            take 150 (drop 800 (shuffle data (seed default_seed)).1),
            drop 950 (shuffle data (seed default_seed)).1)).
    { unfold split_dataset. rewrite ratios_default_ok. cbn [negb].
      destruct (shuffle data (seed default_seed)) as [shuffled st1]. cbn [fst] in *.
      assert (len shuffled = 1000) as -> by (unfold len; lia).
      rewrite cut_train_1000, cut_val_1000. cbn [fst mbind result_bind bind].
      by rewrite slice_to_nonneg, (slice_nonneg 800 150), slice_from_nonneg by lia. }
    do 3 eexists. split; [exact Hgen|].
    rewrite !length_take, !length_drop, Hlen'. lia.
Qed.

(** ** Autoregressive generation *)

Import Generation.

Section real_lemmas.
Local Open Scope R_scope.
Implicit Types (v : list R) (x c p : R).

Lemma vec_sum_app v1 v2 : vec_sum (v1 ++ v2) = vec_sum v1 + vec_sum v2.
Proof.
  unfold vec_sum. induction v1 as [|x v1 IH]; cbn [fold_right app]; [lra|].
  rewrite IH. lra.
Qed.

Lemma vec_sum_lower c v :
  Forall (λ x, c <= x) v → INR (length v) * c <= vec_sum v.
Proof.
  unfold vec_sum. induction 1 as [|x v Hx _ IH]; [cbn [fold_right length INR]; lra|].
  rewrite length_cons, S_INR. cbn [fold_right]. lra.
Qed.

Lemma vec_sum_middle v (i : nat) x :
  v !! i = Some x →
  vec_sum v = x + (vec_sum (take i v) + vec_sum (drop (S i) v)).
Proof.
  intros Hx. rewrite <- (take_drop_middle v i x Hx) at 1.
  rewrite vec_sum_app. unfold vec_sum. cbn [fold_right]. lra.
Qed.


Lemma fold_left_Rmax_in (l : list R) (a : R) : fold_left Rmax l a ∈ a :: l.
Proof.
  revert a. induction l as [|y l IH]; intros a; cbn [fold_left].
  - apply list_elem_of_here.
  - specialize (IH (Rmax a y)). apply elem_of_cons in IH as [->|Hin].
    + destruct (Rmax_case a y (λ z, z = a ∨ z = y)) as [-> | ->]; auto.
      * apply list_elem_of_here.
      * apply list_elem_of_further, list_elem_of_here.
    + by do 2 apply list_elem_of_further.
Qed.


Lemma vec_max_in v : v ≠ [] → vec_max v ∈ v.
Proof. destruct v as [|a l]; [done|]. intros _. apply fold_left_Rmax_in. Qed.

Lemma np_exp_nonneg (fmt : float_format) y : 0 <= np_exp fmt y.
Proof.
  unfold np_exp. destruct (Rle_dec (exp y) (tiny fmt)); [lra|].
  left. apply exp_pos.
Qed.


Lemma np_exp_exact (fmt : float_format) y : tiny fmt < exp y → np_exp fmt y = exp y.
Proof. unfold np_exp. intros Hy. destruct (Rle_dec (exp y) (tiny fmt)); lra. Qed.

Lemma exp_monotone a b : a <= b → exp a <= exp b.
Proof. intros [Hlt| ->]; [left; by apply exp_increasing|lra]. Qed.

Lemma np_exp_monotone (fmt : float_format) a b :
  a <= b → np_exp fmt a <= np_exp fmt b.
Proof.
  intros Hab%exp_monotone. unfold np_exp. pose proof (exp_pos b).
  destruct (Rle_dec (exp a) (tiny fmt)), (Rle_dec (exp b) (tiny fmt)); lra.
Qed.


(** Every entry of the distribution is the exponential of the shifted
    scaled score over the sum of all of them. *)
Lemma temperature_probs_lookup (fmt : float_format) (logits : list R)
    (temperature : R) (i : nat) p :
  temperature_probs fmt logits temperature !! i = Some p ↔
  ∃ x, logits !! i = Some x
       ∧ p = np_exp fmt (x / temperature - vec_max ((λ y, y / temperature) <$> logits))
             / vec_sum ((λ y, np_exp fmt (y - vec_max ((λ y, y / temperature) <$> logits)))
                          <$> ((λ y, y / temperature) <$> logits)).
Proof.
  unfold temperature_probs. change map with (@fmap list _).
  rewrite !list_lookup_fmap. destruct (logits !! i) as [x|]; cbn.
  - split; [intros [= <-]; eauto|]. by intros (? & [= <-] & ->).
  - split; [done|]. by intros (? & ? & _).
Qed.

Lemma exps_nonneg (fmt : float_format) (m : R) v :
  Forall (λ x, 0 <= x) ((λ y, np_exp fmt (y - m)) <$> v).
Proof. apply Forall_fmap, Forall_forall. intros x _. cbn. apply np_exp_nonneg. Qed.

Lemma vec_sum_nonneg v : Forall (λ x, 0 <= x) v → 0 <= vec_sum v.
Proof.
  intros Hv. pose proof (vec_sum_lower 0 v Hv) as Hlow.
  by rewrite Rmult_0_r in Hlow.
Qed.



(** When no exponential rounds to zero, the entries are those of the
    softmax. *)
Lemma temperature_probs_lookup_exact (fmt : float_format) (logits : list R)
    (temperature : R) (i : nat) p :
  (∀ x, x ∈ logits →
        tiny fmt < exp (x / temperature - vec_max ((λ y, y / temperature) <$> logits))) →
  temperature_probs fmt logits temperature !! i = Some p →
  ∃ x, logits !! i = Some x
       ∧ p = exp (x / temperature - vec_max ((λ y, y / temperature) <$> logits))
             / vec_sum ((λ y, exp (y - vec_max ((λ y, y / temperature) <$> logits)))
                          <$> ((λ y, y / temperature) <$> logits)).
Proof.
  intros Hfine (x & Hx & ->)%temperature_probs_lookup. exists x. split; [done|].
  rewrite np_exp_exact by (apply Hfine; by eapply list_elem_of_lookup_2).
  do 2 f_equal. rewrite <- !list_fmap_compose.
  apply list_fmap_ext. intros j y Hy. unfold compose.
  apply np_exp_exact, Hfine. by eapply list_elem_of_lookup_2.
Qed.

Lemma exps_pos (m : R) v : Forall (λ x, 0 < x) ((λ y, exp (y - m)) <$> v).
Proof. apply Forall_fmap, Forall_forall. intros x _. cbn. apply exp_pos. Qed.

Lemma vec_sum_pos v : v ≠ [] → Forall (λ x, 0 < x) v → 0 < vec_sum v.
Proof.
  intros Hne Hpos. destruct Hpos as [|x v Hx Hv]; [done|].
  unfold vec_sum. cbn [fold_right]. fold (vec_sum v).
  assert (0 <= vec_sum v); [|lra].
  apply vec_sum_nonneg. eapply Forall_impl; [exact Hv|]. intros; cbn in *; lra.
Qed.

Lemma exp_minus_1 : / 3 <= exp (- 1).
Proof.
  replace (- 1) with (- (1 + 0)) by lra.
  rewrite exp_Ropp. apply Rinv_le_contravar; [apply exp_pos|].
  rewrite Rplus_0_r. apply exp_le_3.
Qed.

(** On a vector of probabilities at temperature 1 nothing underflows, in
    any format whose [tiny] is below 1/4. *)
Lemma probabilities_do_not_underflow (fmt : float_format) (probs : list R) :
  tiny fmt < / 4 → Forall (λ x, 0 <= x <= 1) probs →
  ∀ x, x ∈ probs →
       tiny fmt < exp (x / 1 - vec_max ((λ y, y / 1) <$> probs)).
Proof.
  intros Htiny Hrange x Hx.
  assert (Hm : vec_max ((λ y, y / 1) <$> probs) <= 1).
  { assert (Hne : (λ y, y / 1) <$> probs ≠ []).
    { destruct probs; [by apply elem_of_nil in Hx|]. by rewrite fmap_cons. }
    apply vec_max_in in Hne. apply list_elem_of_fmap in Hne as (y & -> & Hy).
    rewrite Forall_forall in Hrange. specialize (Hrange y Hy). lra. }
  rewrite Forall_forall in Hrange. specialize (Hrange x Hx).
  pose proof exp_minus_1.
  assert (exp (- 1) <= exp (x / 1 - vec_max ((λ y, y / 1) <$> probs)))
    by (apply exp_monotone; lra).
  lra.
Qed.

(** Every id has a positive probability after the softmax of a vector of
    probabilities: any id of the vocabulary can be drawn. *)
Lemma temperature_probs_pos (fmt : float_format) (probs : list R) (i : nat) p :
  tiny fmt < / 4 → Forall (λ x, 0 <= x <= 1) probs →
  temperature_probs fmt probs 1 !! i = Some p → 0 < p.
Proof.
  intros Htiny Hrange Hp.
  pose proof (probabilities_do_not_underflow fmt probs Htiny Hrange) as Hfine.
  apply (temperature_probs_lookup_exact _ _ _ _ _ Hfine) in Hp as (x & Hx & ->).
  apply Rdiv_lt_0_compat; [apply exp_pos|].
  apply vec_sum_pos; [|apply exps_pos].
  destruct probs; [done|]. by rewrite !fmap_cons.
Qed.

Lemma temperature_probs_can_draw (fmt : float_format) (probs : list R) (i : Z) :
  tiny fmt < / 4 → Forall (λ x, 0 <= x <= 1) probs →
  (0 ≤ i < len probs)%Z → can_draw (temperature_probs fmt probs 1) i.
Proof.
  intros Htiny Hrange Hi. split; [lia|].
  destruct (lookup_lt_is_Some_2 (temperature_probs fmt probs 1) (Z.to_nat i))
    as [p Hp].
  { unfold temperature_probs, len in *. rewrite !length_map. lia. }
  exists p. split; [done|]. by apply temperature_probs_pos in Hp.
Qed.

(** On a vector of probabilities (entries between 0 and 1) over at least
    four ids and at temperature 1, no id gets more than half of the mass
    after the softmax. *)
Lemma temperature_probs_flat (fmt : float_format) (probs : list R) (i : nat) p :
  tiny fmt < / 4 →
  Forall (λ x, 0 <= x <= 1) probs → (4 ≤ length probs)%nat →
  temperature_probs fmt probs 1 !! i = Some p → p <= 1 / 2.
Proof.
  intros Htiny Hrange Hlen Hp.
  pose proof (probabilities_do_not_underflow fmt probs Htiny Hrange) as Hfine.
  apply (temperature_probs_lookup_exact _ _ _ _ _ Hfine) in Hp as (x & Hx & ->).
  set (m := vec_max _). set (es := (λ y, exp (y - m)) <$> _).
  assert (Hes : es !! i = Some (exp (x / 1 - m))).
  { subst es. by rewrite !list_lookup_fmap, Hx. }
  assert (Hlow : Forall (λ e, exp (- m) <= e) es).
  { subst es. rewrite <- list_fmap_compose. apply Forall_fmap.
    eapply Forall_impl; [exact Hrange|]. intros y Hy. cbn.
    destruct (Req_dec (y / 1 - m) (- m)) as [->|Hne]; [lra|].
    left. apply exp_increasing. lra. }
  assert (Hup : exp (x / 1 - m) <= 3 * exp (- m)).
  { assert (0 <= x <= 1) as Hxr.
    { rewrite Forall_forall in Hrange. apply Hrange.
      by apply list_elem_of_lookup_2 in Hx. }
    replace (x / 1 - m) with (x + - m) by lra. rewrite exp_plus.
    pose proof (exp_pos (- m)). pose proof exp_le_3.
    assert (exp x <= exp 1).
    { destruct (Req_dec x 1) as [->|?]; [lra|]. left. apply exp_increasing. lra. }
    nra. }
  assert (Hsum : exp (x / 1 - m) + 3 * exp (- m) <= vec_sum es).
  { rewrite (vec_sum_middle es i _ Hes).
    pose proof (vec_sum_lower (exp (- m)) (take i es)) as H1.
    pose proof (vec_sum_lower (exp (- m)) (drop (S i) es)) as H2.
    specialize (H1 (Forall_take _ _ _ Hlow)).
    specialize (H2 (Forall_drop _ _ _ Hlow)).
    assert (3 <= INR (length (take i es)) + INR (length (drop (S i) es))).
    { rewrite <- plus_INR. apply (Rle_trans _ (INR 3)); [cbn [INR]; lra|].
      apply le_INR.
      apply lookup_lt_Some in Hes.
      assert (length es = length probs) as Hl
        by (subst es; by rewrite !length_fmap).
      rewrite length_take, length_drop. lia. }
    pose proof (exp_pos (- m)). nra. }
  pose proof (exp_pos (x / 1 - m)).
  assert (0 < vec_sum es) as Hposs by lra.
  apply (Rmult_le_reg_r (vec_sum es)); [done|].
  unfold Rdiv. rewrite Rmult_assoc, Rinv_l by lra. lra.
Qed.

End real_lemmas.

Section sampling_lemmas.
Local Open Scope R_scope.

Lemma sample_ok (fmt : float_format) (choice : list R → Z) (logits : list R)
    (temperature : R) :
  samplable fmt logits temperature →
  _sample_with_temperature fmt choice logits temperature
  = Ok (choice (temperature_probs fmt logits temperature)).
Proof.
  intros (Hne & Ht & Hmax). unfold _sample_with_temperature.
  destruct logits as [|x logits]; [done|].
  destruct (Rle_dec (Rabs temperature) (tiny fmt)); [lra|].
  destruct (Rle_dec (huge fmt) _); [lra|done].
Qed.

Lemma sample_raises (fmt : float_format) (choice : list R → Z) (logits : list R)
    (temperature : R) :
  Rabs temperature <= tiny fmt →
  _sample_with_temperature fmt choice logits temperature = Raise ValueError.
Proof.
  intros Ht. unfold _sample_with_temperature.
  destruct logits as [|x logits]; [done|].
  by destruct (Rle_dec (Rabs temperature) (tiny fmt)).
Qed.

Lemma binary32_tiny : tiny binary32 < / 4.
Proof.
  cbn [tiny binary32]. apply Rinv_lt_contravar.
  - apply Rmult_lt_0_compat; [lra|]. apply pow_lt. lra.
  - change 150%nat with (2 + 148)%nat. rewrite pow_add.
    pose proof (pow_R1_Rle 2 148 ltac:(lra)). cbn [pow]. nra.
Qed.

Lemma binary32_huge : 4 < huge binary32.
Proof.
  cbn [huge binary32]. change 128%nat with (3 + 125)%nat.
  change 103%nat with (0 + 103)%nat at 2. rewrite pow_add.
  assert (2 ^ 103 <= 2 ^ 125) by (apply Rle_pow; [lra|lia]).
  pose proof (pow_R1_Rle 2 103 ltac:(lra)). cbn [pow Nat.add]. nra.
Qed.

(** A vector of probabilities can be sampled at temperature 1. *)
Lemma probabilities_samplable (fmt : float_format) (probs : list R) :
  tiny fmt < / 4 → 4 < huge fmt →
  probs ≠ [] → Forall (λ x, 0 <= x <= 1) probs →
  samplable fmt probs 1.
Proof.
  intros Htiny Hhuge Hne Hrange. split; [done|].
  split; [rewrite Rabs_R1; lra|].
  change map with (@fmap list _).
  assert (Hin : vec_max ((λ x, x / 1) <$> probs) ∈ (λ x, x / 1) <$> probs).
  { apply vec_max_in. destruct probs; [done|]. by rewrite fmap_cons. }
  apply list_elem_of_fmap in Hin as (y & -> & Hy).
  rewrite Forall_forall in Hrange. specialize (Hrange y Hy).
  rewrite Rabs_pos_eq; lra.
Qed.

End sampling_lemmas.

Section generation_lemmas.
Context (self : generator) (choice : nat → list R → Z).
Context (genre_id mood_id key_id scale_id : Z) (temperature : R).

Local Abbreviation loop := (generate_loop self choice genre_id mood_id key_id scale_id temperature).

(** A sequence longer than the frame makes [prepare_input] raise. *)
Lemma prepare_input_overflow (max_len : Z) (seed_chords : list Z) :
  max_len < len seed_chords →
  prepare_input max_len seed_chords genre_id mood_id key_id scale_id
  = Raise ValueError.
Proof. intros Hlong. unfold prepare_input. by rewrite (proj2 (Z.ltb_lt _ _) Hlong). Qed.

Lemma prepare_input_fits (max_len : Z) (seed_chords : list Z) :
  len seed_chords ≤ max_len →
  ∃ inputs,
    prepare_input max_len seed_chords genre_id mood_id key_id scale_id = Ok inputs
    ∧ chord_sequence_input inputs
      = (seed_chords ++ replicate (Z.to_nat (max_len - len seed_chords)) 0)%list
    ∧ len (chord_sequence_input inputs) = max_len.
Proof.
  intros Hfits. unfold prepare_input.
  rewrite (proj2 (Z.ltb_ge _ _) Hfits). eexists. split; [done|]. split; [done|].
  unfold len in *. cbn. rewrite length_app, length_replicate. lia.
Qed.

Lemma generate_loop_overflow (n calls : nat) (current : list Z) (generated : list string) :
  inference_max_sequence_length self < len current →
  loop (S n) calls current generated = Raise ValueError.
Proof.
  intros Hlong. cbn [generate_loop]. by rewrite prepare_input_overflow.
Qed.

(** The position read from the predictions exists as soon as the model
    returns at least one position and the sequence is not empty. *)
Lemma vec_index_clamped {A} (predictions : list A) (current : list Z) :
  predictions ≠ [] → current ≠ [] →
  ∃ row,
    row ∈ predictions
    ∧ vec_index predictions
        (if len predictions <=? len current - 1 then len predictions - 1
         else len current - 1) = Ok row.
Proof.
  intros Hpred Hcur. unfold vec_index, len.
  assert (0 < length predictions)%nat by (destruct predictions; [done|cbn; lia]).
  assert (0 < length current)%nat by (destruct current; [done|cbn; lia]).
  set (pos := if _ <=? _ then _ else _).
  assert (0 ≤ pos < Z.of_nat (length predictions)) as Hpos.
  { subst pos. destruct (Z.leb_spec (Z.of_nat (length predictions))
                                    (Z.of_nat (length current) - 1)); lia. }
  destruct (Z.ltb_spec pos 0) as [?|_]; [lia|].
  destruct (Z.ltb_spec pos 0) as [?|_]; [lia|].
  destruct (lookup_lt_is_Some_2 predictions (Z.to_nat pos)) as [row Hrow]; [lia|].
  exists row. split; [by eapply list_elem_of_lookup_2|]. by rewrite Hrow.
Qed.

(** The step up to the sampling, when the sequence fits the frame: the
    score vector handed to [_sample_with_temperature] is a row of the
    predictions. *)
Lemma generate_loop_sample (n calls : nat) (current : list Z) (generated : list string) :
  (∀ inputs, model self inputs ≠ []) → current ≠ [] →
  len current ≤ inference_max_sequence_length self →
  ∃ inputs row,
    row ∈ model self inputs
    ∧ loop (S n) calls current generated
      = (next_chord_id ←
           _sample_with_temperature (dtype self) (choice calls) row temperature;
         if (next_chord_id =? 0) || (next_chord_id =? 2) then Ok generated
         else loop n (S calls) (current ++ [next_chord_id])%list
                (generated
                 ++ [default "<UNK>" (Generation.id_to_chord self !! next_chord_id)])%list).
Proof.
  intros Hmodel Hcur Hfits. cbn [generate_loop].
  destruct (prepare_input_fits _ _ Hfits) as (inputs & -> & _ & _).
  cbn [mbind result_bind bind].
  destruct (vec_index_clamped (model self inputs) current (Hmodel inputs) Hcur)
    as (row & Hin & ->).
  by exists inputs, row.
Qed.

(** One iteration of the loop, when the sequence fits the frame and the
    sampling does not fail: the id is drawn from the distribution computed
    from a row of the predictions. *)
Lemma generate_loop_step (n calls : nat) (current : list Z) (generated : list string) :
  (∀ inputs, model self inputs ≠ []) →
  (∀ inputs row, row ∈ model self inputs → samplable (dtype self) row temperature) →
  current ≠ [] →
  len current ≤ inference_max_sequence_length self →
  ∃ inputs row,
    row ∈ model self inputs
    ∧ let next_chord_id :=
        choice calls (temperature_probs (dtype self) row temperature) in
      loop (S n) calls current generated
      = if (next_chord_id =? 0) || (next_chord_id =? 2) then Ok generated
        else loop n (S calls) (current ++ [next_chord_id])%list
               (generated
                ++ [default "<UNK>" (Generation.id_to_chord self !! next_chord_id)])%list.
Proof.
  intros Hmodel Hrows Hcur Hfits.
  destruct (generate_loop_sample n calls current generated Hmodel Hcur Hfits)
    as (inputs & row & Hin & ->).
  exists inputs, row. split; [done|].
  by rewrite (sample_ok _ _ _ _ (Hrows inputs row Hin)).
Qed.

(** As long as the sequence stays within the frame and the sampling does
    not fail, the loop returns the chords generated so far followed by the
    symbols of the ids drawn, none of which is PAD or END, at most [n] of
    them. *)
Lemma generate_loop_returns (n calls : nat) (current : list Z) (generated : list string) :
  (∀ inputs, model self inputs ≠ []) →
  (∀ inputs row, row ∈ model self inputs → samplable (dtype self) row temperature) →
  current ≠ [] →
  len current + Z.of_nat n ≤ inference_max_sequence_length self + 1 →
  ∃ ids,
    loop n calls current generated
    = Ok (generated
          ++ ((λ i, default "<UNK>" (Generation.id_to_chord self !! i)) <$> ids))%list
    ∧ (length ids ≤ n)%nat
    ∧ Forall (λ i, i ≠ 0 ∧ i ≠ 2) ids.
Proof.
  intros Hmodel Hrows. revert calls current generated.
  induction n as [|n IH]; intros calls current generated Hcur Hlen.
  - exists []. cbn. by rewrite app_nil_r.
  - destruct (generate_loop_step n calls current generated Hmodel Hrows Hcur)
      as (inputs & row & _ & Hstep); [lia|].
    cbn zeta in Hstep. rewrite Hstep.
    set (next := choice calls (temperature_probs (dtype self) row temperature)).
    destruct (Z.eqb_spec next 0) as [?|Hpad]; cbn [orb].
    { exists []. cbn. rewrite app_nil_r. split; [done|]. split; [lia|constructor]. }
    destruct (Z.eqb_spec next 2) as [?|Hend].
    { exists []. cbn. rewrite app_nil_r. split; [done|]. split; [lia|constructor]. }
    destruct (IH (S calls) (current ++ [next])%list
                (generated ++ [default "<UNK>" (Generation.id_to_chord self !! next)])%list)
      as (ids & -> & Hids & Hall).
    { intros [? _]%app_eq_nil. done. }
    { unfold len in *. rewrite length_app. cbn. lia. }
    exists (next :: ids). rewrite <- app_assoc. cbn.
    split; [done|]. split; [lia|]. by constructor.
Qed.

(** With a temperature that rounds to zero the first iteration fails. *)
Lemma generate_loop_cold (n calls : nat) (current : list Z) (generated : list string) :
  (∀ inputs, model self inputs ≠ []) → current ≠ [] →
  len current ≤ inference_max_sequence_length self →
  (Rabs temperature <= tiny (dtype self))%R →
  loop (S n) calls current generated = Raise ValueError.
Proof.
  intros Hmodel Hcur Hfits Hcold.
  destruct (generate_loop_sample n calls current generated Hmodel Hcur Hfits)
    as (inputs & row & _ & ->).
  by rewrite sample_raises.
Qed.

End generation_lemmas.

(** A model that returns the same score vector [row] at every position. *)
Section constant_rows.
Context (self : generator) (choice : nat → list R → Z) (row : list R).
Context (genre_id mood_id key_id scale_id : Z) (temperature : R).
Context (Hmodel : ∀ inputs, model self inputs ≠ []).
Context (Hconst : ∀ inputs r, r ∈ model self inputs → r = row).
Context (Hrow : samplable (dtype self) row temperature).

Local Abbreviation loop := (generate_loop self choice genre_id mood_id key_id scale_id temperature).
Local Abbreviation probs := (temperature_probs (dtype self) row temperature).
Local Abbreviation symbol := (λ i : Z, default "<UNK>" (Generation.id_to_chord self !! i)).

Lemma constant_rows_samplable inputs r :
  r ∈ model self inputs → samplable (dtype self) r temperature.
Proof. intros Hr. by rewrite (Hconst inputs r Hr). Qed.

Lemma constant_rows_step (n calls : nat) (current : list Z) (generated : list string) :
  current ≠ [] →
  len current ≤ inference_max_sequence_length self →
  loop (S n) calls current generated
  = if (choice calls probs =? 0) || (choice calls probs =? 2) then Ok generated
    else loop n (S calls) (current ++ [choice calls probs])%list
           (generated ++ [symbol (choice calls probs)])%list.
Proof.
  intros Hcur Hfits.
  destruct (generate_loop_step self choice genre_id mood_id key_id scale_id
              temperature n calls current generated Hmodel
              constant_rows_samplable Hcur Hfits)
    as (inputs & r & Hr & Hstep).
  cbn zeta in Hstep. by rewrite (Hconst inputs r Hr) in Hstep.
Qed.

(** Inside the frame the loop returns the symbols of the successive draws
    from the one distribution, up to the first PAD or END. *)
Lemma constant_rows_draws (n calls : nat) (current : list Z) (generated : list string) :
  current ≠ [] →
  len current + Z.of_nat n ≤ inference_max_sequence_length self + 1 →
  loop n calls current generated
  = Ok (generated
        ++ (symbol <$> until_stop ((λ k, choice k probs) <$> seq calls n)))%list.
Proof.
  revert calls current generated.
  induction n as [|n IH]; intros calls current generated Hcur Hlen.
  - cbn. by rewrite app_nil_r.
  - rewrite constant_rows_step by (done || lia).
    cbn [seq fmap list_fmap until_stop].
    destruct ((choice calls probs =? 0) || (choice calls probs =? 2)).
    + cbn. by rewrite app_nil_r.
    + rewrite IH.
      * cbn [fmap list_fmap]. by rewrite <- app_assoc.
      * intros [? _]%app_eq_nil. done.
      * unfold len in *. rewrite length_app. cbn. lia.
Qed.

(** [n] iterations without a stop token, followed by [m] more. *)
Lemma constant_rows_prefix (n m calls : nat) (current : list Z)
    (generated : list string) :
  Forall (λ i, i ≠ 0 ∧ i ≠ 2) ((λ k, choice k probs) <$> seq calls n) →
  current ≠ [] →
  len current + Z.of_nat n ≤ inference_max_sequence_length self + 1 →
  loop (n + m) calls current generated
  = loop m (n + calls) (current ++ ((λ k, choice k probs) <$> seq calls n))%list
      (generated ++ (symbol <$> ((λ k, choice k probs) <$> seq calls n)))%list.
Proof.
  revert calls current generated.
  induction n as [|n IH]; intros calls current generated Hdraws Hcur Hlen.
  - cbn. by rewrite !app_nil_r.
  - cbn [Nat.add]. rewrite constant_rows_step by (done || lia).
    cbn [seq fmap list_fmap] in *. apply Forall_cons in Hdraws as [[H0 H2] Hdraws].
    destruct (Z.eqb_spec (choice calls probs) 0) as [?|_]; [done|].
    destruct (Z.eqb_spec (choice calls probs) 2) as [?|_]; [done|]. cbn [orb].
    rewrite IH.
    + rewrite <- !app_assoc, Nat.add_succ_r. done.
    + done.
    + intros [? _]%app_eq_nil. done.
    + unfold len in *. rewrite length_app. cbn. lia.
Qed.

End constant_rows.

Section sampler_lemmas.

Lemma first_drawable_spec (probs : list R) :
  (∃ i, can_draw probs i) → can_draw probs (first_drawable probs).
Proof.
  induction probs as [|p probs IH]; intros (i & Hi & q & Hq & Hpos).
  { by rewrite lookup_nil in Hq. }
  cbn [first_drawable]. destruct (Rlt_dec 0 p) as [Hp|Hp].
  - split; [done|]. by exists p.
  - destruct (Z.to_nat i) as [|j] eqn:Hj; cbn in Hq.
    { injection Hq as ->. done. }
    destruct IH as (Hfirst & q' & Hq' & Hpos').
    { exists (Z.of_nat j). split; [lia|]. exists q. by rewrite Nat2Z.id. }
    split; [lia|]. exists q'. split; [|done].
    replace (Z.to_nat (1 + first_drawable probs))
      with (S (Z.to_nat (first_drawable probs))) by lia.
    done.
Qed.

Lemma prefer_lawful (k : nat) : lawful (prefer k).
Proof.
  intros call probs Hsome. unfold prefer.
  destruct (probs !! k) as [p|] eqn:Hk; [|by apply first_drawable_spec].
  destruct (Rlt_dec 0 p) as [Hp|_]; [|by apply first_drawable_spec].
  split; [lia|]. exists p. by rewrite Nat2Z.id.
Qed.

Lemma prefer_drawable (k call : nat) (probs : list R) :
  can_draw probs (Z.of_nat k) → prefer k call probs = Z.of_nat k.
Proof.
  intros (_ & p & Hp & Hpos). rewrite Nat2Z.id in Hp. unfold prefer.
  rewrite Hp. by destruct (Rlt_dec 0 p).
Qed.

(** From a one-hot vector a lawful sampler can only draw the hot id. *)
Lemma lawful_one_hot (choice : nat → list R → Z) (n k call : nat) :
  lawful choice → (k < n)%nat → choice call (one_hot n k) = Z.of_nat k.
Proof.
  intros Hlawful Hk.
  assert (Hhot : one_hot n k !! k = Some 1%R).
  { unfold one_hot. rewrite list_lookup_fmap, lookup_seq_lt by done. cbn.
    by rewrite decide_True. }
  destruct (Hlawful call (one_hot n k)) as (Hi & p & Hp & Hpos).
  { exists (Z.of_nat k). split; [lia|]. exists 1%R. rewrite Nat2Z.id.
    split; [done|]. lra. }
  set (c := choice call (one_hot n k)) in *.
  unfold one_hot in Hp. rewrite list_lookup_fmap in Hp.
  destruct (seq 0 n !! Z.to_nat c) as [j|] eqn:Hj; [|done].
  apply lookup_seq in Hj as [-> _]. cbn in Hp. injection Hp as <-.
  destruct (decide (Z.to_nat c = k)) as [Heq|_]; [lia|]. lra.
Qed.

End sampler_lemmas.

Section mock_lemmas.

Lemma mock_model_nonempty (n k : nat) (i : inputs) : mock_model n k i ≠ [].
Proof. done. Qed.

Lemma mock_model_rows (n k : nat) (i : inputs) (r : list R) :
  r ∈ mock_model n k i → r = one_hot n k.
Proof. unfold mock_model. by intros [-> _]%elem_of_replicate. Qed.

Lemma mock_max_len (k : nat) :
  inference_max_sequence_length (mock_generator k) = 12.
Proof. reflexivity. Qed.

Lemma mock_dtype (k : nat) : dtype (mock_generator k) = binary32.
Proof. reflexivity. Qed.

Lemma mock_start (k : nat) : initial_sequence (mock_generator k) None = [1].
Proof.
  unfold initial_sequence, mock_generator. cbn [Generation.chord_to_id].
  vm_compute. done.
Qed.

Lemma one_hot_length (n k : nat) : length (one_hot n k) = n.
Proof. unfold one_hot. by rewrite length_fmap, length_seq. Qed.

Lemma one_hot_range (n k : nat) : Forall (λ x, 0 <= x <= 1)%R (one_hot n k).
Proof.
  unfold one_hot. apply Forall_fmap, Forall_forall. intros i _.
  unfold compose. destruct (decide (i = k)); lra.
Qed.

Lemma mock_samplable (k : nat) :
  samplable (dtype (mock_generator k)) (one_hot 8 k) 1.
Proof.
  rewrite mock_dtype.
  apply probabilities_samplable;
    [apply binary32_tiny|apply binary32_huge|done|apply one_hot_range].
Qed.

Lemma mock_symbol_C (k : nat) :
  default "<UNK>" (Generation.id_to_chord (mock_generator k) !! 5) = "C".
Proof.
  unfold mock_generator. cbn [Generation.id_to_chord]. vm_compute. done.
Qed.

(** Runs of the mock generator from the START token at temperature 1:
    the symbols of the successive draws, up to the first PAD or END. *)
Lemma mock_run (k : nat) (choice : nat → list R → Z) (g m ky sc : Z) (n : nat) :
  (n ≤ 12)%nat →
  generate_loop (mock_generator k) choice g m ky sc 1 n 0 [1] []
  = Ok ((λ i, default "<UNK>" (Generation.id_to_chord (mock_generator k) !! i))
          <$> until_stop
                ((λ call, choice call (temperature_probs binary32 (one_hot 8 k) 1))
                   <$> seq 0 n)).
Proof.
  intros Hn.
  rewrite (constant_rows_draws (mock_generator k) choice (one_hot 8 k) g m ky sc 1
             (mock_model_nonempty 8 k) (mock_model_rows 8 k) (mock_samplable k));
    [by rewrite mock_dtype|done|].
  rewrite mock_max_len. unfold len. cbn [length]. lia.
Qed.

Lemma mock_run_stop (k : nat) (stop : Z) (g m ky sc : Z) (n : nat) :
  stop = 0 ∨ stop = 2 → (n ≤ 12)%nat →
  generate_loop (mock_generator k) (always stop) g m ky sc 1 n 0 [1] [] = Ok [].
Proof.
  intros Hstop Hn. rewrite mock_run by done. unfold always.
  destruct n as [|n]; [done|]. cbn [seq fmap list_fmap until_stop].
  by destruct Hstop as [-> | ->].
Qed.

Lemma until_stop_replicate (n : nat) (i : Z) :
  i ≠ 0 → i ≠ 2 → until_stop (replicate n i) = replicate n i.
Proof.
  intros H0 H2. induction n as [|n IH]; [done|]. cbn [replicate until_stop].
  destruct (Z.eqb_spec i 0) as [?|_]; [done|].
  destruct (Z.eqb_spec i 2) as [?|_]; [done|]. cbn [orb]. by rewrite IH.
Qed.

Lemma constant_draws (n start : nat) (i : Z) (probs : list R) :
  (λ call, always i call probs) <$> seq start n = replicate n i.
Proof.
  revert start. induction n as [|n IH]; intros start; [done|].
  cbn [seq fmap list_fmap replicate]. by rewrite IH.
Qed.

Lemma mock_run_C (k : nat) (g m ky sc : Z) (n : nat) :
  (n ≤ 12)%nat →
  generate_loop (mock_generator k) (always 5) g m ky sc 1 n 0 [1] []
  = Ok (replicate n "C").
Proof.
  intros Hn. rewrite mock_run by done.
  rewrite constant_draws, until_stop_replicate by done.
  rewrite fmap_replicate. by rewrite mock_symbol_C.
Qed.

Lemma mock_run_overrun (k : nat) (g m ky sc : Z) :
  generate_loop (mock_generator k) (always 5) g m ky sc 1 13 0 [1] []
  = Raise ValueError.
Proof.
  change 13%nat with (12 + 1)%nat.
  rewrite (constant_rows_prefix (mock_generator k) (always 5) (one_hot 8 k)
             g m ky sc 1 (mock_model_nonempty 8 k) (mock_model_rows 8 k)
             (mock_samplable k)).
  - apply generate_loop_overflow. rewrite mock_max_len.
    unfold len. rewrite length_app, length_fmap, length_seq.
    cbn [length]. lia.
  - rewrite (constant_draws 12 0 5). by apply Forall_replicate.
  - done.
  - rewrite mock_max_len. unfold len. cbn [length]. lia.
Qed.

End mock_lemmas.

(** C1, at the scenario of the claim. The mock model puts probability 1
    on the id 5 of the chord C at every position; the temperature is 1 and
    four chords are asked for. From the vector of the model itself a
    sampler that respects the distribution could only draw the id 5. But
    the loop does not draw from that vector: for every sampler, what
    [generate_progression] returns is the symbols of the successive draws
    from [probs], the softmax of these probabilities, up to the first PAD
    or END; in [probs] every id of the vocabulary, PAD and END included,
    has a positive probability and none, the id 5 included, has more than
    one half. So a sampler that respects the distribution it is given can
    draw PAD first, and the empty list is returned where the claim promises
    C four times; C four times is only one of the possible results, and it
    is also a possible result for a model concentrated on PAD, where the
    claim promises the empty list. *)
Theorem generate_concentrated_distribution :
  let self := mock_generator 5 in
  let probs := temperature_probs (dtype self) (one_hot 8 5) 1 in
  (∀ choice, lawful choice → ∀ call, choice call (one_hot 8 5) = 5)
  ∧ (∀ i : Z, 0 ≤ i < 8 → can_draw probs i)
  ∧ (∀ (i : nat) (p : R), probs !! i = Some p → (0 < p <= 1 / 2)%R)
  ∧ (∀ choice,
       generate_progression self choice "pop" "happy" "C" "major" 4 1 None
       = Ok ((λ i, default "<UNK>" (Generation.id_to_chord self !! i))
               <$> until_stop ((λ call, choice call probs) <$> seq 0 4)))
  ∧ (∃ choice,
       lawful choice
       ∧ generate_progression self choice "pop" "happy" "C" "major" 4 1 None
         = Ok [])
  ∧ (∃ choice,
       lawful choice
       ∧ generate_progression self choice "pop" "happy" "C" "major" 4 1 None
         = Ok ["C"; "C"; "C"; "C"])
  ∧ (∃ choice,
       lawful choice
       ∧ generate_progression (mock_generator 0) choice
           "pop" "happy" "C" "major" 4 1 None
         = Ok ["C"; "C"; "C"; "C"]).
Proof.
  intros self probs. subst probs self. rewrite mock_dtype.
  assert (Hdraw : ∀ (k : nat) (i : Z), 0 ≤ i < 8 →
            can_draw (temperature_probs binary32 (one_hot 8 k) 1) i).
  { intros k i Hi.
    apply temperature_probs_can_draw; [apply binary32_tiny|apply one_hot_range|].
    unfold len. rewrite one_hot_length. lia. }
  assert (Hrun : ∀ (k : nat) choice,
            generate_progression (mock_generator k) choice
              "pop" "happy" "C" "major" 4 1 None
            = Ok ((λ i, default "<UNK>" (Generation.id_to_chord (mock_generator k) !! i))
                    <$> until_stop
                          ((λ call, choice call
                                      (temperature_probs binary32 (one_hot 8 k) 1))
                             <$> seq 0 4))).
  { intros k choice. unfold generate_progression. rewrite mock_start.
    change (Z.to_nat 4) with 4%nat. apply mock_run. lia. }
  assert (Hprefer : ∀ k : nat,
            generate_progression (mock_generator k) (prefer 5)
              "pop" "happy" "C" "major" 4 1 None
            = Ok ["C"; "C"; "C"; "C"]).
  { intros k. rewrite Hrun. cbn [seq fmap list_fmap].
    rewrite !(prefer_drawable 5) by (apply Hdraw; lia).
    change (Z.of_nat 5) with 5.
    change [5; 5; 5; 5] with (replicate 4 5).
    rewrite until_stop_replicate by done.
    change (list_fmap Z string ?f ?l) with (f <$> l).
    rewrite fmap_replicate. by rewrite mock_symbol_C. }
  split.
  { intros choice Hlawful call.
    apply (lawful_one_hot choice 8 5 call Hlawful). lia. }
  split; [apply (Hdraw 5%nat)|].
  split.
  { intros i p Hp.
    split; [by eapply temperature_probs_pos;
              [apply binary32_tiny|apply one_hot_range|exact Hp]|].
    apply (temperature_probs_flat binary32 (one_hot 8 5) i);
      [apply binary32_tiny|apply one_hot_range| |done].
    rewrite one_hot_length. lia. }
  split; [intros choice; apply (Hrun 5%nat)|].
  split.
  { exists (prefer 0). split; [apply prefer_lawful|].
    rewrite (Hrun 5%nat). cbn [seq fmap list_fmap].
    rewrite (prefer_drawable 0) by (apply (Hdraw 5%nat); lia). done. }
  split.
  { exists (prefer 5). split; [apply prefer_lawful|apply (Hprefer 5%nat)]. }
  exists (prefer 5). split; [apply prefer_lawful|apply (Hprefer 0%nat)].
Qed.

(** C3, at failing inputs. With 13 seed chords the first call of
    [prepare_input] raises [ValueError], whatever is drawn; without seed
    chords and with [num_chords = 13] the thirteenth iteration raises it
    when no stop token is drawn before, where twelve chords are still
    returned for [num_chords = 12]. *)
Theorem generate_progression_overrun :
  (∀ (choice : nat → list R → Z) (temperature : R),
     generate_progression (mock_generator 5) choice
       "pop" "happy" "C" "major" 1 temperature (Some (replicate 13 "C"))
     = Raise ValueError)
  ∧ generate_progression (mock_generator 5) (always 5)
      "pop" "happy" "C" "major" 13 1 None = Raise ValueError
  ∧ generate_progression (mock_generator 5) (always 5)
      "pop" "happy" "C" "major" 12 1 None = Ok (replicate 12 "C").
Proof.
  split.
  { intros choice temperature. unfold generate_progression.
    change (Z.to_nat 1) with 1%nat. apply generate_loop_overflow.
    rewrite mock_max_len. unfold initial_sequence, len.
    cbn [replicate]. rewrite length_map. cbn [length]. lia. }
  unfold generate_progression. rewrite !mock_start.
  split.
  - change (Z.to_nat 13) with 13%nat. apply mock_run_overrun.
  - change (Z.to_nat 12) with 12%nat. apply (mock_run_C 5 _ _ _ _ 12). lia.
Qed.

(** What the loop guarantees inside the frame: for every sampler, when the
    model returns at least one position, the sampling does not fail on any
    of its score vectors and the initial sequence together with
    [num_chords] fits the frame ([len + num_chords <= 13]), a list of at
    most [num_chords] symbols of ids other than PAD and END is returned. *)
Lemma generate_progression_returns (self : generator) (choice : nat → list R → Z)
    (genre_name mood_name key_name scale_name : string) (num_chords : Z)
    (temperature : R) (seed_chords : option (list string)) :
  (∀ i, model self i ≠ []) →
  (∀ i row, row ∈ model self i → samplable (dtype self) row temperature) →
  len (initial_sequence self seed_chords) + Z.max num_chords 0
    ≤ inference_max_sequence_length self + 1 →
  ∃ ids,
    generate_progression self choice genre_name mood_name key_name scale_name
      num_chords temperature seed_chords
    = Ok ((λ i, default "<UNK>" (Generation.id_to_chord self !! i)) <$> ids)
    ∧ len ids ≤ Z.max num_chords 0
    ∧ Forall (λ i, i ≠ 0 ∧ i ≠ 2) ids.
Proof.
  intros Hmodel Hrows Hfits. unfold generate_progression.
  edestruct (generate_loop_returns self choice) as (ids & Hrun & Hlen & Hall);
    [exact Hmodel|exact Hrows| | |exists ids; split; [exact Hrun|]].
  - unfold initial_sequence. by destruct seed_chords as [[|c cs]|].
  - lia.
  - split; [unfold len; lia|done].
Qed.

(** C10. A seed chord that the vocabulary does not hold enters the
    sequence as the id 0, and so does it enter the frame handed to the
    model; when the vocabulary has no <START> entry, an unseeded (or
    empty-seeded) generation starts from the id 1. In a vocabulary built
    by [build_vocabularies] from a corpus without special-token chords,
    0 is the id of PAD, while [encode_progression] gives the same unknown
    chord the id 3 of UNK. *)
Theorem seed_chord_fallbacks (self : generator) (seeds : list string)
    (i : nat) (c : string) :
  seeds !! i = Some c →
  Generation.chord_to_id self !! c = None →
  initial_sequence self (Some seeds) !! i = Some 0
  ∧ (∀ max_len g m k s frame,
       prepare_input max_len (initial_sequence self (Some seeds)) g m k s
         = Ok frame →
       chord_sequence_input frame !! i = Some 0)
  ∧ (Generation.chord_to_id self !! "<START>" = None →
       initial_sequence self None = [1]
       ∧ initial_sequence self (Some []) = [1])
  ∧ (∀ (self0 : preprocessor) (progressions : list prog),
       let pre := build_vocabularies self0 progressions in
       (∀ c', c' ∈ all_chords progressions → c' ∉ SPECIAL_TOKENS) →
       Generation.chord_to_id self = Preprocessing.chord_to_id pre →
       Preprocessing.chord_to_id pre !! PAD_TOKEN = Some 0
       ∧ ∃ ids, encode_progression pre seeds = Ok ids ∧ ids !! i = Some 3).
Proof.
  intros Hseed Hunknown.
  assert (Hinit : initial_sequence self (Some seeds) !! i = Some 0).
  { unfold initial_sequence. destruct seeds as [|c0 cs]; [done|].
    change map with (@fmap list _). rewrite list_lookup_fmap, Hseed. cbn.
    by rewrite Hunknown. }
  split; [done|]. split.
  { intros max_len g m k s frame. unfold prepare_input.
    destruct (max_len <? _); [done|]. intros [= <-]. cbn.
    apply lookup_app_l_Some, Hinit. }
  split.
  { intros Hstart. unfold initial_sequence. by rewrite Hstart. }
  intros self0 progressions pre Hfresh Hvocab.
  pose proof (built_special_ids self0 progressions Hfresh) as Hids.
  fold pre in Hids. clearbody pre.
  destruct Hids as (Hpad & _ & _ & Hunk).
  split; [done|].
  exists ((λ c', default 3 (Preprocessing.chord_to_id pre !! c')) <$> seeds).
  split; [by apply encode_progression_known|].
  rewrite list_lookup_fmap, Hseed. cbn. by rewrite <- Hvocab, Hunknown.
Qed.

(** * Instances of the theorems at concrete inputs *)

Lemma transpose_by_zero_witness :
  (sample_corpus !! 0%nat = Some (sample_prog ["G"; "Am"; "C"] "rock" "happy")
   ∧ Forall (λ c, has_flat_root c = false) ["G"; "Am"; "C"]
   ∧ key_root_suffix "C" = ("C", EmptyString)
   ∧ list_in "C" FLATS = false)
  ∧ transpose_chord "Bbm7" 0 = "A#m7"
  ∧ transpose_progression ["G"; "Am"; "C"] 0 = ["G"; "Am"; "C"]
  ∧ transpose_key "C" 0 = "C"
  ∧ ∃ copy, augment_with_transposition sample_corpus !! 0%nat = Some copy
            ∧ source copy = Some "original"
            ∧ progression copy = ["G"; "Am"; "C"].
Proof.
  assert (Hflat : Forall (λ c, has_flat_root c = false) ["G"; "Am"; "C"])
    by (repeat constructor).
  split; [repeat split; done|].
  destruct (transpose_by_zero sample_corpus 0
              (sample_prog ["G"; "Am"; "C"] "rock" "happy") "C" EmptyString
              eq_refl Hflat eq_refl eq_refl eq_refl)
    as (_ & Hsharp & Hprog & Hkey & copy & Hcopy & Hsource & Hcprog & _).
  split.
  { apply (Hsharp "Bbm7" "Bb" "A#"); [|reflexivity].
    unfold SHARP_SPELLING. do 4 apply list_elem_of_further. apply list_elem_of_here. }
  split; [exact Hprog|]. split; [exact Hkey|].
  exists copy. split; [exact Hcopy|]. split; [exact Hsource|exact Hcprog].
Defined.

Lemma transpose_chord_round_trip_witness :
  starts_with_accidental (quality_of "Bbm7") = false
  ∧ transpose_chord (transpose_chord "Bbm7" 5) ((- 5) `mod` 12) = "A#m7"
  ∧ quality_of (transpose_chord (transpose_chord "Bbm7" 5) ((- 5) `mod` 12)) = "m7".
Proof.
  split; [reflexivity|].
  destruct (transpose_chord_round_trip 5 "Bbm7" eq_refl) as [Hround Hquality].
  split; [exact Hround|exact Hquality].
Defined.

Lemma split_dataset_spec_witness :
  length (seq 0 1000) = 1000%nat
  ∧ ∃ train val test,
      (@split_dataset unit trivial_random nat (seq 0 1000) default_train_ratio
         default_val_ratio default_test_ratio default_seed tt).1
      = Ok (train, val, test)
      ∧ length train = 800%nat ∧ length val = 150%nat ∧ length test = 50%nat.
Proof.
  split; [apply length_seq|].
  apply (@split_dataset_spec unit trivial_random trivial_random_spec nat
           (seq 0 1000) default_train_ratio default_val_ratio default_test_ratio
           default_seed tt).
  apply length_seq.
Defined.

Lemma build_vocabularies_ids_witness :
  (∀ c, c ∈ all_chords sample_corpus → c ∉ SPECIAL_TOKENS)
  ∧ Preprocessing.chord_to_id (build_vocabularies (init 12) sample_corpus) !! UNK_TOKEN
    = Some 3
  ∧ Preprocessing.chord_to_id (build_vocabularies (init 12) sample_corpus) !! "Am"
    = Some 4.
Proof.
  assert (Hfresh : ∀ c, c ∈ all_chords sample_corpus → c ∉ SPECIAL_TOKENS).
  { intros c (p & Hp & Hc)%elem_of_all_chords. unfold sample_corpus in Hp.
    elem_cases Hp; subst p; cbn in Hc; elem_cases Hc; subst c; compute_done. }
  split; [exact Hfresh|].
  destruct (build_vocabularies_ids (init 12) sample_corpus Hfresh)
    as ((_ & _ & _ & Hunk) & _ & _ & Hpos & _).
  split; [exact Hunk|]. apply (Hpos 0%nat). reflexivity.
Defined.

Lemma pad_sequence_length_witness :
  0 ≤ 4
  ∧ ∃ padded,
      pad_sequence (build_vocabularies (init 12) sample_corpus) [4; 5] (Some 4)
      = Ok padded
      ∧ len padded = 4.
Proof.
  split; [lia|].
  destruct (pad_sequence_length (init 12) sample_corpus [4; 5] (Some 4))
    as (pad_id & padded & _ & Hpad & Hlen & _); [cbn; lia|].
  exists padded. split; [exact Hpad|exact Hlen].
Defined.

Lemma get_chord_variations_spec_witness :
  0 ≤ 2
  ∧ ∃ selected,
      (@get_chord_variations unit trivial_random "C" 2 tt).1
      = Ok ("C" :: ((λ q, "C" ++ q)%string <$> selected))
      ∧ length selected = 2%nat.
Proof.
  split; [lia|].
  pose proof (@get_chord_variations_spec unit trivial_random trivial_random_spec
                "C" 2 tt) as Hspec.
  change (Variations.parse_chord "C") with (Some ("C", EmptyString)) in Hspec.
  change (dict_get EmptyString CHORD_VARIATIONS)
    with (Some ["maj7"; "maj9"; "6"; "add9"; "sus2"; "sus4"]) in Hspec.
  destruct Hspec as (selected & Hrun & Hlen & _); [lia|].
  exists selected. split; [exact Hrun|exact Hlen].
Defined.

Lemma seed_chord_fallbacks_witness :
  (["C"; "Xyz"] !! 1%nat = Some "Xyz"
   ∧ Generation.chord_to_id (mock_generator 5) !! "Xyz" = None)
  ∧ initial_sequence (mock_generator 5) (Some ["C"; "Xyz"]) !! 1%nat = Some 0.
Proof.
  assert (Hunknown : Generation.chord_to_id (mock_generator 5) !! "Xyz" = None)
    by (vm_compute; reflexivity).
  split; [split; [reflexivity|exact Hunknown]|].
  apply (seed_chord_fallbacks (mock_generator 5) ["C"; "Xyz"] 1 "Xyz" eq_refl Hunknown).
Defined.

(** * Further properties of the transposition engine *)

Section transposition_more.

Lemma str_length_app (r q : string) :
  String.length (r ++ q)%string = (String.length r + String.length q)%nat.
Proof.
  induction r as [|c r IH]; [done|].
  change (S (String.length (r ++ q)%string) = S (String.length r + String.length q)).
  by rewrite IH.
Qed.

Lemma str_app_inj_r (r1 r2 q : string) :
  (r1 ++ q)%string = (r2 ++ q)%string → r1 = r2.
Proof.
  revert r2. induction r1 as [|c1 r1 IH]; intros [|c2 r2] Heq; [done|..].
  - apply (f_equal String.length) in Heq.
    rewrite !str_length_app in Heq. cbn in Heq. lia.
  - apply (f_equal String.length) in Heq.
    rewrite !str_length_app in Heq. cbn in Heq. lia.
  - change (String c1 (r1 ++ q)%string = String c2 (r2 ++ q)%string) in Heq.
    injection Heq as -> Heq. f_equal. by apply IH.
Qed.

Lemma scale_at_inj (a b : Z) :
  0 ≤ a < 12 → 0 ≤ b < 12 → scale_at a = scale_at b → a = b.
Proof.
  intros Ha Hb Heq.
  pose proof (pitch_index_scale_at a Ha) as Hpa.
  pose proof (pitch_index_scale_at b Hb) as Hpb.
  rewrite Heq, Hpb in Hpa. injection Hpa. lia.
Qed.

Lemma scale_at_in_scale (k : Z) : 0 ≤ k < 12 → scale_at k ∈ CHROMATIC_SCALE.
Proof.
  intros Hk. unfold scale_at.
  apply list_elem_of_lookup_2 with (Z.to_nat k).
  destruct (nth_lookup_or_length CHROMATIC_SCALE (Z.to_nat k) EmptyString)
    as [Hk'|Hlen]; [done|].
  change (length CHROMATIC_SCALE) with 12%nat in Hlen. lia.
Qed.

Lemma pitch_index_recognized (note : string) :
  is_Some (pitch_index note) ↔ note ∈ CHROMATIC_SCALE ∨ note ∈ FLATS.
Proof.
  split.
  - intros [i Hi]. destruct (list_in note FLATS) eqn:Hflat.
    + right. by apply list_in_true.
    + left. unfold pitch_index in Hi.
      rewrite normalize_note_not_flat in Hi by done.
      apply list_index_Some in Hi. by apply list_elem_of_lookup_2 in Hi.
  - intros [Hin|Hin].
    + unfold CHROMATIC_SCALE in Hin. elem_cases Hin; subst note; by eexists.
    + unfold FLATS in Hin. elem_cases Hin; subst note; by eexists.
Qed.

Lemma transpose_note_compose (note : string) (s t : Z) :
  transpose_note (transpose_note note s) t = transpose_note note (s + t).
Proof.
  destruct (pitch_index note) as [i|] eqn:Hidx.
  - pose proof (pitch_index_lt _ _ Hidx) as Hi.
    pose proof (Z.mod_pos_bound (Z.of_nat i + s) 12 eq_refl) as Hj.
    rewrite !(transpose_note_recognized note i) by done.
    rewrite (transpose_note_recognized _ (Z.to_nat ((Z.of_nat i + s) `mod` 12)))
      by (by apply pitch_index_scale_at).
    f_equal. rewrite Z2Nat.id by lia.
    rewrite Z.add_mod_idemp_l by lia. f_equal. lia.
  - rewrite (transpose_note_unrecognized note s) by done.
    by rewrite !(transpose_note_unrecognized note).
Qed.

Lemma key_root_suffix_scale_at (k : Z) :
  0 ≤ k < 12 →
  key_root_suffix (scale_at k) = (scale_at k, EmptyString)
  ∧ key_root_suffix (scale_at k ++ "m")%string = (scale_at k, "m").
Proof.
  intros Hk. apply scale_at_cases in Hk.
  repeat (destruct Hk as [->|Hk]); [..|subst k]; by split.
Qed.

Lemma transpose_chord_recognized (c root quality : string) (i : nat) (s : Z) :
  Transposition.parse_chord c = Some (root, quality) → pitch_index root = Some i →
  transpose_chord c s = (scale_at ((Z.of_nat i + s) `mod` 12) ++ quality)%string.
Proof.
  intros Hparse Hidx. unfold transpose_chord.
  by rewrite Hparse, (transpose_note_recognized root i).
Qed.

Lemma transpose_chord_unrecognized (c root quality : string) (s : Z) :
  Transposition.parse_chord c = Some (root, quality) → pitch_index root = None →
  transpose_chord c s = c.
Proof.
  intros Hparse Hidx. unfold transpose_chord.
  rewrite Hparse, transpose_note_unrecognized by done.
  by apply parse_chord_join.
Qed.

Lemma transpose_chord_compose (c : string) (s t : Z) :
  starts_with_accidental (quality_of c) = false →
  transpose_chord (transpose_chord c s) t = transpose_chord c (s + t).
Proof.
  unfold quality_of.
  destruct (Transposition.parse_chord c) as [[root quality]|] eqn:Hparse; intros Hq.
  2:{ apply parse_chord_None in Hparse. by subst c. }
  destruct (pitch_index root) as [i|] eqn:Hidx.
  - pose proof (pitch_index_lt _ _ Hidx) as Hi.
    pose proof (Z.mod_pos_bound (Z.of_nat i + s) 12 eq_refl) as Hj.
    rewrite !(transpose_chord_recognized c root quality i) by done.
    rewrite (transpose_chord_recognized _ (scale_at ((Z.of_nat i + s) `mod` 12))
               quality (Z.to_nat ((Z.of_nat i + s) `mod` 12)));
      [|by apply parse_chord_scale_at|by apply pitch_index_scale_at].
    do 2 f_equal. rewrite Z2Nat.id by lia.
    rewrite Z.add_mod_idemp_l by lia. f_equal. lia.
  - by rewrite !(transpose_chord_unrecognized c root quality).
Qed.

Lemma transpose_note_mod (note : string) (s t : Z) :
  s `mod` 12 = t `mod` 12 → transpose_note note s = transpose_note note t.
Proof.
  intros Hmod. unfold transpose_note. destruct (list_index _ _); [|done].
  by rewrite <- (Z.add_mod_idemp_r _ s), Hmod, Z.add_mod_idemp_r.
Qed.

End transposition_more.

(** X1. Only the shift modulo 12 matters, for notes, chords, progressions
    and keys alike. *)
Theorem transposition_mod_12 (s : Z) :
  (∀ note, transpose_note note (s `mod` 12) = transpose_note note s)
  ∧ (∀ c, transpose_chord c (s `mod` 12) = transpose_chord c s)
  ∧ (∀ p, transpose_progression p (s `mod` 12) = transpose_progression p s)
  ∧ (∀ k, transpose_key k (s `mod` 12) = transpose_key k s).
Proof.
  assert (Hnote : ∀ note, transpose_note note (s `mod` 12) = transpose_note note s).
  { intros note. apply transpose_note_mod. by rewrite Z.mod_mod. }
  assert (Hchord : ∀ c, transpose_chord c (s `mod` 12) = transpose_chord c s).
  { intros c. unfold transpose_chord.
    destruct (Transposition.parse_chord c) as [[root quality]|]; [|done]. by rewrite Hnote. }
  split; [done|]. split; [done|]. split.
  - intros p. unfold transpose_progression. apply map_ext. intros c. apply Hchord.
  - intros k. unfold transpose_key. destruct (key_root_suffix k). by rewrite Hnote.
Qed.

(** X2. Shifts of a note add up: transposing by [s] and then by [t] is
    transposing by [s + t], for every note, recognised or not; so a full
    octave after any shift changes nothing more. *)
Theorem transpose_note_shifts_add (note : string) (s t : Z) :
  transpose_note (transpose_note note s) t = transpose_note note (s + t)
  ∧ transpose_note (transpose_note note s) (12 * t) = transpose_note note s.
Proof.
  split; [apply transpose_note_compose|].
  rewrite transpose_note_compose. apply transpose_note_mod.
  rewrite (Z.mul_comm 12 t). apply Z_mod_plus_full.
Qed.

(** X3. A note that is in the chromatic scale or is one of the five flat
    spellings is always transposed to an entry of the chromatic scale
    (sharp spelling); any other string is returned unchanged, whatever the
    shift. *)
Theorem transpose_note_range (note : string) (s : Z) :
  (note ∈ CHROMATIC_SCALE ∨ note ∈ FLATS → transpose_note note s ∈ CHROMATIC_SCALE)
  ∧ (note ∉ CHROMATIC_SCALE → note ∉ FLATS → transpose_note note s = note).
Proof.
  split.
  - intros [i Hi]%pitch_index_recognized.
    rewrite (transpose_note_recognized note i) by done.
    apply scale_at_in_scale. by apply Z.mod_pos_bound.
  - intros Hscale Hflat. apply transpose_note_unrecognized.
    destruct (pitch_index note) as [i|] eqn:Hidx; [|done].
    destruct (proj1 (pitch_index_recognized note)); [by eexists|done..].
Qed.

(** X4. Shifts of a chord add up when its quality does not begin with 'b'
    or '#', and so do the shifts of a progression of such chords. *)
Theorem transpose_chord_shifts_add (p : list string) (s t : Z) :
  Forall (λ c, starts_with_accidental (quality_of c) = false) p →
  Forall (λ c, transpose_chord (transpose_chord c s) t = transpose_chord c (s + t)) p
  ∧ transpose_progression (transpose_progression p s) t
    = transpose_progression p (s + t).
Proof.
  intros Hp.
  assert (Hall : Forall (λ c, transpose_chord (transpose_chord c s) t
                              = transpose_chord c (s + t)) p).
  { eapply Forall_impl; [exact Hp|]. intros c Hc. by apply transpose_chord_compose. }
  split; [done|].
  unfold transpose_progression. rewrite map_map. clear Hp.
  induction Hall as [|c p Hc _ IH]; [done|]. cbn [map]. by rewrite Hc, IH.
Qed.

(** X5. The twelve transpositions of a chord with a recognised root are
    pairwise different: two shifts give the same chord exactly when they
    agree modulo 12. *)
Theorem transpose_chord_distinct (c : string) (s t : Z) :
  is_Some (pitch_index (root_of c)) →
  transpose_chord c s = transpose_chord c t ↔ s `mod` 12 = t `mod` 12.
Proof.
  unfold root_of. intros [i Hidx].
  destruct (Transposition.parse_chord c) as [[root quality]|] eqn:Hparse; [|done].
  pose proof (pitch_index_lt _ _ Hidx) as Hi.
  rewrite !(transpose_chord_recognized c root quality i) by done.
  pose proof (Z.mod_pos_bound (Z.of_nat i + s) 12 eq_refl).
  pose proof (Z.mod_pos_bound (Z.of_nat i + t) 12 eq_refl).
  split.
  - intros Heq%str_app_inj_r%scale_at_inj; [|done..].
    rewrite <- (Z.add_simpl_l (Z.of_nat i) s), <- (Z.add_simpl_l (Z.of_nat i) t).
    by rewrite Zminus_mod, Heq, <- Zminus_mod.
  - intros Hmod. do 2 f_equal.
    by rewrite <- (Z.add_mod_idemp_r _ s), Hmod, Z.add_mod_idemp_r.
Qed.

(** X6. [augment_with_transposition] returns 12 records per base
    progression, numbered 1, 2, 3, ... in order; the record at position
    [p] is the copy of base progression [p / 12] shifted by [p mod 12]
    semitones: it keeps the length of the progression and the genre, mood
    and scale type, and, unless the shift is 0, it records the shift and
    the key of the base progression. *)
Theorem augment_with_transposition_structure (base_progressions : list prog) :
  length (augment_with_transposition base_progressions)
  = (12 * length base_progressions)%nat
  ∧ ∀ (p : nat) (copy : prog),
      augment_with_transposition base_progressions !! p = Some copy →
      ∃ base_prog,
        base_progressions !! (p / 12)%nat = Some base_prog
        ∧ prog_id copy = Z.of_nat p + 1
        ∧ progression copy
          = transpose_progression (progression base_prog) (Z.of_nat (p mod 12))
        ∧ key copy = transpose_key (key base_prog) (Z.of_nat (p mod 12))
        ∧ length (progression copy) = length (progression base_prog)
        ∧ genre copy = genre base_prog ∧ mood copy = mood base_prog
        ∧ scale_type copy = scale_type base_prog
        ∧ ((p mod 12)%nat ≠ 0%nat →
           source copy = Some "transposed"
           ∧ transposed_semitones copy = Some (Z.of_nat (p mod 12))
           ∧ original_key copy = Some (key base_prog)).
Proof.
  assert (Hlen : ∀ l pid, length (augment_from l pid) = (12 * length l)%nat).
  { induction l as [|b l IH]; intros pid; [done|].
    cbn [augment_from]. rewrite length_app, transpose_all_keys_length, IH.
    cbn [length]. lia. }
  split; [apply Hlen|].
  intros p copy Hcopy. unfold augment_with_transposition in *.
  pose proof (lookup_lt_Some _ _ _ Hcopy) as Hp. rewrite Hlen in Hp.
  pose proof (Nat.div_mod_eq p 12) as Hdm.
  pose proof (Nat.mod_upper_bound p 12 ltac:(lia)) as Hmod.
  destruct (lookup_lt_is_Some_2 base_progressions (p / 12)%nat) as [base_prog Hbase].
  { apply Nat.Div0.div_lt_upper_bound. lia. }
  exists base_prog. split; [done|].
  rewrite Hdm in Hcopy at 1.
  rewrite (augment_from_lookup _ 1 (p / 12) (p mod 12) base_prog Hbase Hmod) in Hcopy.
  assert (copy = transposed_copy base_prog
                   (1 + 12 * Z.of_nat (p / 12) + Z.of_nat (p mod 12))
                   (Z.of_nat (p mod 12))) as -> by congruence.
  clear Hcopy.
  assert (Hfields : ∀ pid sem,
    let c := transposed_copy base_prog pid sem in
    prog_id c = pid
    ∧ progression c = transpose_progression (progression base_prog) sem
    ∧ key c = transpose_key (key base_prog) sem
    ∧ genre c = genre base_prog ∧ mood c = mood base_prog
    ∧ scale_type c = scale_type base_prog
    ∧ (sem ≠ 0 → source c = Some "transposed"
                 ∧ transposed_semitones c = Some sem
                 ∧ original_key c = Some (key base_prog))).
  { intros pid sem. unfold transposed_copy.
    destruct (Z.eqb_spec sem 0) as [->|Hne]; cbn; repeat split; done. }
  destruct (Hfields (1 + 12 * Z.of_nat (p / 12) + Z.of_nat (p mod 12))
                    (Z.of_nat (p mod 12)))
    as (Hid & Hprog & Hkey & Hgenre & Hmood & Hscale & Hsrc).
  split; [rewrite Hid; lia|]. split; [done|]. split; [done|].
  split; [rewrite Hprog; unfold transpose_progression; by rewrite length_map|].
  split; [done|]. split; [done|]. split; [done|].
  intros Hnz. apply Hsrc. lia.
Qed.

(** X7. On a plain key, a recognised note optionally followed by the minor
    marker, [transpose_key] does what [transpose_chord] does; but whatever
    follows a marker found after a one-letter root is dropped. *)
Theorem transpose_key_as_chord (note : string) (s : Z) :
  note ∈ CHROMATIC_SCALE ∨ note ∈ FLATS →
  transpose_key note s = transpose_chord note s
  ∧ transpose_key (note ++ "m")%string s = transpose_chord (note ++ "m")%string s
  ∧ ∀ tail, String.length note = 1%nat →
      transpose_key (note ++ String "m" tail)%string s
      = (transpose_note note s ++ "m")%string.
Proof.
  intros [Hin|Hin]; [unfold CHROMATIC_SCALE in Hin|unfold FLATS in Hin];
    elem_cases Hin; subst note; (split; [reflexivity|split; [reflexivity|]]);
    intros tail Hlen; try discriminate Hlen; reflexivity.
Qed.

Lemma transpose_chord_shifts_add_witness :
  Forall (λ c, starts_with_accidental (quality_of c) = false) ["Am"; "F#7"; "Bbmaj7"]
  ∧ transpose_progression (transpose_progression ["Am"; "F#7"; "Bbmaj7"] 5) 9
    = transpose_progression ["Am"; "F#7"; "Bbmaj7"] (5 + 9).
Proof.
  assert (Hp : Forall (λ c, starts_with_accidental (quality_of c) = false)
                      ["Am"; "F#7"; "Bbmaj7"]) by (repeat constructor).
  split; [exact Hp|].
  exact (proj2 (transpose_chord_shifts_add ["Am"; "F#7"; "Bbmaj7"] 5 9 Hp)).
Defined.

Lemma transpose_chord_distinct_witness :
  is_Some (pitch_index (root_of "Bbm7"))
  ∧ (transpose_chord "Bbm7" 3 = transpose_chord "Bbm7" 27 ↔ 3 `mod` 12 = 27 `mod` 12).
Proof.
  assert (Hroot : is_Some (pitch_index (root_of "Bbm7"))) by (eexists; reflexivity).
  split; [exact Hroot|].
  exact (transpose_chord_distinct "Bbm7" 3 27 Hroot).
Defined.

Lemma transpose_key_as_chord_witness :
  ("A" ∈ CHROMATIC_SCALE ∨ "A" ∈ FLATS)
  ∧ transpose_key "Am" 3 = transpose_chord "Am" 3
  ∧ transpose_key "Amaj" 3 = "Cm".
Proof.
  assert (Hin : "A" ∈ CHROMATIC_SCALE ∨ "A" ∈ FLATS) by (left; compute_done).
  split; [exact Hin|].
  destruct (transpose_key_as_chord "A" 3 Hin) as (_ & Hminor & Htail).
  split; [exact Hminor|]. exact (Htail "aj" eq_refl).
Defined.

(** * Chord substitutions over a progression *)

Section variation_more.
Context `{PyRandomSpec rng} `{!PyRandomUniform rng}.

Lemma CHORD_VARIATIONS_nonempty (quality : string) (candidates : list string) :
  dict_get quality CHORD_VARIATIONS = Some candidates → 1 ≤ len candidates.
Proof.
  intros Hget. apply dict_get_Some in Hget. unfold CHORD_VARIATIONS in Hget.
  elem_cases Hget; injection Hget as -> ->; done.
Qed.

Lemma is_substitute_tabulated (c c' : string) :
  is_substitute c c' = true → tabulated c = true.
Proof.
  unfold is_substitute, tabulated.
  destruct (Variations.parse_chord c) as [[root quality]|]; [|done].
  destruct (dict_get quality CHORD_VARIATIONS); [|done].
  intros _. by apply bool_decide_eq_true.
Qed.

Lemma is_substitute_ne (c c' : string) : is_substitute c c' = true → c' ≠ c.
Proof.
  unfold is_substitute.
  destruct (Variations.parse_chord c) as [[root quality]|] eqn:Hparse; [|done].
  destruct (dict_get quality CHORD_VARIATIONS) as [candidates|] eqn:Hget; [|done].
  intros Hin%bool_decide_eq_true ->.
  apply list_elem_of_fmap in Hin as (q & Heq & Hq).
  rewrite <- (variation_parse_chord_join _ _ _ Hparse) in Heq.
  apply str_app_inj_l in Heq. subst q.
  by destruct (CHORD_VARIATIONS_entries _ _ Hget) as [_ Hself].
Qed.

(** One substitute is asked for: it is found exactly for a tabulated
    chord. *)
Lemma get_chord_variations_one (chord : string) (st : rng) :
  ∃ vs st',
    get_chord_variations chord 1 st = (Ok vs, st')
    ∧ match second_variation vs with
      | Some v => is_substitute chord v = true
      | None => tabulated chord = false
      end.
Proof.
  unfold get_chord_variations, tabulated, is_substitute.
  destruct (Variations.parse_chord chord) as [[root quality]|] eqn:Hparse;
    [|by eexists _, _].
  destruct (dict_get quality CHORD_VARIATIONS) as [candidates|] eqn:Hget;
    [|by eexists _, _].
  pose proof (CHORD_VARIATIONS_nonempty _ _ Hget) as Hne.
  destruct (sample_spec candidates (Z.min 1 (len candidates)) st)
    as (selected & Hsel & Hlen & Hin & _); [lia|].
  destruct (sample candidates (Z.min 1 (len candidates)) st) as [r st'].
  cbn [fst] in Hsel. subst r.
  rewrite Z.min_l in Hlen by lia.
  destruct selected as [|q [|? ?]]; try discriminate Hlen.
  eexists _, _. split; [reflexivity|]. cbn.
  apply bool_decide_eq_true. apply list_elem_of_fmap. exists q.
  split; [done|]. apply Hin, list_elem_of_here.
Qed.

Lemma varies_refl (p : list string) : varies p p.
Proof. apply Forall_Forall2_diag, Forall_forall. intros; by left. Qed.

Lemma varies_untabulated (p v : list string) :
  Forall (λ c, tabulated c = false) p → varies p v → v = p.
Proof.
  intros Hp Hv. induction Hv as [|c c' p v [->|Hsub] _ IH]; [done|..];
    apply Forall_cons in Hp as [Hc Hp].
  - by rewrite IH.
  - apply is_substitute_tabulated in Hsub. congruence.
Qed.

Lemma vary_each_spec (progression : list string) (p : float) (st : rng) :
  ∃ varied st',
    vary_each progression p st = (Ok varied, st') ∧ varies progression varied.
Proof.
  revert st. induction progression as [|chord rest IH]; intros st.
  - eexists _, _. split; [reflexivity|constructor].
  - cbn [vary_each]. destruct (random st) as [x st1].
    destruct (x <? p)%float.
    + destruct (get_chord_variations_one chord st1) as (vs & st2 & -> & Hvs).
      destruct (IH st2) as (varied & st3 & -> & Hvaried).
      eexists _, _. split; [reflexivity|].
      constructor; [|done].
      destruct (second_variation vs); cbn; [by right|by left].
    + destruct (IH st1) as (varied & st2 & -> & Hvaried).
      eexists _, _. split; [reflexivity|]. constructor; [by left|done].
Qed.

Lemma append_new_sound (progression varied : list string)
    (variations : list (list string)) :
  varies progression varied →
  sound_variations progression variations →
  sound_variations progression (append_new progression varied variations)
  ∧ (length (append_new progression varied variations) ≤ S (length variations))%nat
  ∧ (length variations ≤ length (append_new progression varied variations))%nat
  ∧ (varied ≠ progression → append_new progression varied variations ≠ []).
Proof.
  intros Hv [Hnodup Hall]. unfold append_new.
  destruct (decide (varied ≠ progression)) as [Hne|Heq].
  - rewrite (bool_decide_true _ Hne).
    destruct (decide (varied ∉ variations)) as [Hnew|Hold].
    + rewrite (bool_decide_true _ Hnew). cbn [andb]. split; [split|].
      * apply NoDup_app. split; [done|]. split; [|apply NoDup_singleton].
        intros v Hin Hin'. apply list_elem_of_singleton in Hin'. by subst v.
      * apply Forall_app. split; [done|]. by constructor.
      * rewrite length_app. cbn. split; [lia|]. split; [lia|].
        intros _. by destruct variations.
    + rewrite (bool_decide_false _ Hold). cbn [andb].
      split; [done|]. split; [lia|]. split; [lia|].
      intros _ ->. apply Hold. apply not_elem_of_nil.
  - rewrite (bool_decide_false _ Heq). cbn [andb].
    split; [done|]. split; [lia|]. split; [lia|]. done.
Qed.

Lemma last_split {A} (x : A) (l : list A) :
  (x :: l) = (slice_to (-1) (x :: l) ++ [default x (last (x :: l))])%list.
Proof.
  destruct (x :: l) as [|y l' _] eqn:Heq using rev_ind; [done|].
  rewrite last_snoc. cbn [default from_option id]. f_equal.
  unfold slice_to. cbn [Z.leb Z.compare]. rewrite length_app. cbn [length].
  replace (Z.to_nat (Z.of_nat (length l' + 1) + -1)) with (length l') by lia.
  by rewrite take_app_length.
Qed.

(** The three strategies in a row. *)
Lemma create_progression_variations_run (progression : list string) (p : float)
    (st : rng) :
  ∃ variations st',
    create_progression_variations progression p st = (Ok variations, st')
    ∧ sound_variations progression variations
    ∧ (length variations ≤ 3)%nat
    ∧ (∀ c, (head progression = Some c ∨ last progression = Some c) →
            tabulated c = true → variations ≠ []).
Proof.
  unfold create_progression_variations.
  destruct (vary_each_spec progression p st) as (varied & st1 & -> & Hvaried).
  set (variations1 := if bool_decide (varied ≠ progression) then [varied] else []).
  assert (Hsound1 : sound_variations progression variations1
                    ∧ (length variations1 ≤ 1)%nat).
  { unfold variations1. case_bool_decide as Hne.
    - split; [split|done]; [apply NoDup_singleton|by repeat constructor].
    - split; [split|cbn; lia]; [apply NoDup_nil_2|constructor]. }
  destruct Hsound1 as [Hsound1 Hlen1]. clearbody variations1.
  destruct progression as [|first rest].
  { eexists _, _. split; [reflexivity|]. split; [done|]. split; [lia|].
    intros c [[=]|[=]]. }
  destruct (get_chord_variations_one first st1) as (vs2 & st2 & -> & Hvs2).
  set (variations2 := match second_variation vs2 with
                      | Some v => append_new (first :: rest)
                                    (v :: drop 1 (first :: rest)) variations1
                      | None => variations1
                      end).
  assert (Hsound2 : sound_variations (first :: rest) variations2
                    ∧ (length variations2 ≤ 2)%nat
                    ∧ (tabulated first = true → variations2 ≠ [])).
  { unfold variations2. destruct (second_variation vs2) as [v|].
    - destruct (append_new_sound (first :: rest) (v :: drop 1 (first :: rest))
                  variations1) as (Hs & Hle & _ & Hne); [|done|].
      { constructor; [by right|apply varies_refl]. }
      split; [done|]. split; [lia|]. intros _. apply Hne.
      intros [= ->]. by apply is_substitute_ne in Hvs2.
    - split; [done|]. split; [lia|]. congruence. }
  destruct Hsound2 as (Hsound2 & Hlen2 & Hfirst). clearbody variations2.
  destruct (get_chord_variations_one (default first (last (first :: rest))) st2)
    as (vs3 & st3 & -> & Hvs3).
  eexists _, _. split; [reflexivity|].
  destruct (second_variation vs3) as [v|].
  - destruct (append_new_sound (first :: rest)
                (slice_to (-1) (first :: rest) ++ [v])%list variations2)
      as (Hs & Hle & Hge & Hne); [|done|].
    { rewrite (last_split first rest) at 1.
      apply Forall2_app; [apply varies_refl|].
      constructor; [by right|constructor]. }
    split; [done|]. split; [lia|].
    intros c [[= <-]|Hlast] Hc.
    + specialize (Hfirst Hc). intros Hnil. rewrite Hnil in Hge.
      destruct variations2; [done|cbn in Hge; lia].
    + apply Hne. intros Heq.
      rewrite (last_split first rest) in Heq at 2.
      apply app_inv_head in Heq. injection Heq as ->.
      by apply is_substitute_ne in Hvs3.
  - split; [done|]. split; [lia|].
    intros c [[= <-]|Hlast] Hc; [by apply Hfirst|].
    rewrite Hlast in Hvs3. cbn in Hvs3. congruence.
Qed.

End variation_more.

(** X8. [create_progression_variations] never raises and returns at most
    three progressions, pairwise different; each one differs from the
    input, has its length, and holds at every position either the input
    chord or a substitute of it: the same root followed by a quality that
    the table lists for the quality of the input chord. *)
Theorem create_progression_variations_spec `{PyRandomSpec rng}
    `{!PyRandomUniform rng} (progression : list string)
    (variation_probability : float) (st : rng) :
  ∃ variations,
    (create_progression_variations progression variation_probability st).1
    = Ok variations
    ∧ (length variations ≤ 3)%nat
    ∧ NoDup variations
    ∧ ∀ varied, varied ∈ variations →
        varied ≠ progression
        ∧ length varied = length progression
        ∧ ∀ (i : nat) c c', progression !! i = Some c → varied !! i = Some c' →
            c' = c ∨ is_substitute c c' = true.
Proof.
  destruct (create_progression_variations_run progression variation_probability st)
    as (variations & st' & -> & [Hnodup Hall] & Hlen & _).
  exists variations. split; [done|]. split; [done|]. split; [done|].
  intros varied Hin. rewrite Forall_forall in Hall.
  destruct (Hall varied Hin) as [Hne Hvaries].
  split; [done|]. split; [symmetry; by eapply Forall2_length|].
  intros i c c' Hc Hc'. by eapply (Forall2_lookup_lr _ _ _ _ _ _ Hvaries).
Qed.

(** X9. A progression none of whose chords has a tabulated quality has no
    variation at all, whatever the random draws; a progression whose first
    or last chord has a tabulated quality always has at least one. *)
Theorem create_progression_variations_empty `{PyRandomSpec rng}
    `{!PyRandomUniform rng} (progression : list string)
    (variation_probability : float) (st : rng) :
  (Forall (λ c, tabulated c = false) progression →
   (create_progression_variations progression variation_probability st).1 = Ok [])
  ∧ (∀ c, head progression = Some c ∨ last progression = Some c →
          tabulated c = true →
          ∃ variations,
            (create_progression_variations progression variation_probability st).1
            = Ok variations
            ∧ variations ≠ []).
Proof.
  destruct (create_progression_variations_run progression variation_probability st)
    as (variations & st' & -> & [Hnodup Hall] & Hlen & Hne).
  cbn [fst]. split.
  - intros Hp. destruct variations as [|v variations]; [done|].
    apply Forall_cons in Hall as [[Hv Hvaries] _].
    by apply (varies_untabulated _ _ Hp) in Hvaries.
  - intros c Hc Htab. exists variations. split; [done|]. by eapply Hne.
Qed.

Section variation_dataset.
Context `{PyRandomSpec rng} `{!PyRandomUniform rng}.

Lemma slice_to_take {A} (n : Z) (l : list A) :
  ∃ k, slice_to n l = take k l ∧ (0 ≤ n → k = Z.to_nat n).
Proof.
  unfold slice_to. destruct (Z.leb_spec 0 n); eexists; (split; [done|]); [done|lia].
Qed.

Lemma variation_loop_spec (base_progressions : list prog) (k : Z)
    (progression_id : Z) (st : rng) :
  ∃ added st',
    VariationAugment.variation_loop base_progressions k progression_id st
    = (Ok added, st')
    ∧ (length added ≤ 3 * length base_progressions)%nat
    ∧ (0 ≤ k → len added ≤ k * len base_progressions)
    ∧ ∀ (i : nat) entry, added !! i = Some entry →
        prog_id entry.1 = progression_id + Z.of_nat i
        ∧ ∃ base_prog, base_prog ∈ base_progressions ∧ variation_of base_prog entry.
Proof.
  revert progression_id st.
  induction base_progressions as [|base_prog rest IH]; intros progression_id st.
  { eexists _, _. split; [reflexivity|]. split; [done|]. split; [unfold len; cbn; lia|].
    intros i entry Hi. by rewrite lookup_nil in Hi. }
  cbn [VariationAugment.variation_loop].
  destruct (create_progression_variations_run (progression base_prog) 0.4%float st)
    as (variations & st1 & -> & [_ Hall] & Hlen & _).
  destruct (slice_to_take k variations) as (n & -> & Hn).
  set (added := VariationAugment.variation_records base_prog (take n variations)
                  progression_id).
  assert (Hadded : length added = length (take n variations)).
  { unfold added, VariationAugment.variation_records. apply length_imap. }
  destruct (IH (progression_id + len added) st1) as (more & st2 & -> & Hmore & Hk & Hrec).
  eexists _, _. split; [reflexivity|].
  pose proof (length_take_le variations n) as Htake.
  rewrite length_take in Htake.
  split; [rewrite length_app, Hadded, length_take; cbn [length]; lia|].
  split.
  { intros Hk0. specialize (Hk Hk0). specialize (Hn Hk0). unfold len in *.
    rewrite length_app, Hadded, length_take. cbn [length]. lia. }
  intros i entry Hi. apply lookup_app_Some in Hi as [Hi|[Hge Hi]].
  - unfold added, VariationAugment.variation_records in Hi.
    rewrite list_lookup_imap in Hi.
    destruct (take n variations !! i) as [variation|] eqn:Hv; [|done].
    injection Hi as <-. cbn [fst prog_id]. split; [done|].
    exists base_prog. split; [apply list_elem_of_here|].
    apply lookup_take_Some in Hv as [Hv _].
    apply list_elem_of_lookup_2 in Hv. rewrite Forall_forall in Hall.
    destruct (Hall _ Hv) as [Hne Hvaries].
    unfold variation_of. cbn. repeat split; done.
  - destruct (Hrec _ _ Hi) as (Hid & b & Hb & Hvar).
    split; [rewrite Hid; unfold len; lia|].
    exists b. split; [by apply list_elem_of_further|done].
Qed.

End variation_dataset.

(** X10. [augment_with_variations] never raises. It returns the base
    records unchanged, followed by at most three variation records for
    each base progression (at most [variations_per_progression] when that
    number is not negative), numbered consecutively from
    [len(base_progressions) + 1]. Each added record is marked as a
    variation, carries the id of a base record as [original_id], holds a
    progression that differs from the one of that base record but varies
    it chord by chord, and keeps its roman numerals, key, scale type,
    genre, mood and song name. *)
Theorem augment_with_variations_structure `{PyRandomSpec rng}
    `{!PyRandomUniform rng} (base_progressions : list prog)
    (variations_per_progression : Z) (st : rng) :
  ∃ added,
    (VariationAugment.augment_with_variations base_progressions
       variations_per_progression st).1
    = Ok (((λ p, (p, None)) <$> base_progressions) ++ added)%list
    ∧ (length added ≤ 3 * length base_progressions)%nat
    ∧ (0 ≤ variations_per_progression →
       len added ≤ variations_per_progression * len base_progressions)
    ∧ ∀ (i : nat) entry, added !! i = Some entry →
        prog_id entry.1 = len base_progressions + 1 + Z.of_nat i
        ∧ ∃ base_prog, base_prog ∈ base_progressions ∧ variation_of base_prog entry.
Proof.
  unfold VariationAugment.augment_with_variations.
  destruct (variation_loop_spec base_progressions variations_per_progression
              (len ((λ p : prog, (p, @None Z)) <$> base_progressions) + 1) st)
    as (added & st' & -> & Hlen & Hk & Hrec).
  exists added. split; [reflexivity|]. split; [done|]. split; [done|].
  intros i entry Hi. destruct (Hrec i entry Hi) as [Hid Hbase].
  split; [|done]. rewrite Hid. unfold len. by rewrite length_fmap.
Qed.

Lemma create_progression_variations_spec_witness :
  ∃ variations,
    (@create_progression_variations unit trivial_random trivial_uniform
       ["C"; "Am"; "G7"] 0.5%float tt).1 = Ok variations
    ∧ (length variations ≤ 3)%nat
    ∧ NoDup variations.
Proof.
  destruct (@create_progression_variations_spec unit trivial_random
              trivial_random_spec trivial_uniform ["C"; "Am"; "G7"] 0.5%float tt)
    as (variations & Hrun & Hlen & Hnodup & _).
  exists variations. split; [exact Hrun|]. split; [exact Hlen|exact Hnodup].
Defined.

Lemma create_progression_variations_empty_witness :
  (@create_progression_variations unit trivial_random trivial_uniform
     ["Csus4"; "G13"] 0.5%float tt).1 = Ok []
  ∧ ∃ variations,
      (@create_progression_variations unit trivial_random trivial_uniform
         ["Csus4"; "Am"] 0.5%float tt).1 = Ok variations
      ∧ variations ≠ [].
Proof.
  split.
  - apply (@create_progression_variations_empty unit trivial_random
             trivial_random_spec trivial_uniform ["Csus4"; "G13"] 0.5%float tt).
    repeat constructor.
  - apply (proj2 (@create_progression_variations_empty unit trivial_random
                    trivial_random_spec trivial_uniform ["Csus4"; "Am"] 0.5%float tt)
             "Am"); [by right|reflexivity].
Defined.

Lemma augment_with_variations_structure_witness :
  ∃ added,
    (@VariationAugment.augment_with_variations unit trivial_random trivial_uniform
       numbered_corpus 2 tt).1
    = Ok (((λ p, (p, None)) <$> numbered_corpus) ++ added)%list
    ∧ (0 ≤ 2 → len added ≤ 2 * len numbered_corpus).
Proof.
  destruct (@augment_with_variations_structure unit trivial_random
              trivial_random_spec trivial_uniform numbered_corpus 2 tt)
    as (added & Hrun & _ & Hk & _).
  exists added. split; [exact Hrun|exact Hk].
Defined.

(** * The preprocessed dataset *)

Section dataset_lemmas.
Context (self : preprocessor).

Lemma pad_sequence_known (pad_id : Z) (ids : list Z) :
  Preprocessing.chord_to_id self !! PAD_TOKEN = Some pad_id →
  0 ≤ max_sequence_length self →
  pad_sequence self ids None
  = Ok (take (Z.to_nat (max_sequence_length self))
          (ids ++ replicate (Z.to_nat (max_sequence_length self - len ids)) pad_id)).
Proof.
  intros Hpad HL. unfold pad_sequence. rewrite Hpad.
  cbn [of_option mbind result_bind bind default from_option id].
  unfold len in *.
  destruct (Z.ltb_spec (max_sequence_length self) (Z.of_nat (length ids))) as [Hlong|Hle].
  - rewrite slice_to_nonneg by done.
    replace (Z.to_nat (max_sequence_length self - Z.of_nat (length ids))) with 0%nat by lia.
    cbn [replicate]. by rewrite app_nil_r.
  - destruct (Z.ltb_spec (Z.of_nat (length ids)) (max_sequence_length self)) as [Hshort|Hge].
    + rewrite take_ge; [done|]. rewrite length_app, length_replicate. lia.
    + replace (Z.to_nat (max_sequence_length self - Z.of_nat (length ids))) with 0%nat by lia.
      cbn [replicate]. rewrite app_nil_r, take_ge; [done|lia].
Qed.

Lemma preprocess_dataset_map (g : prog → Dataset.processed_item)
    (progressions : list prog) :
  (∀ prog, prog ∈ progressions → Dataset.preprocess_item self prog = Ok (g prog)) →
  Dataset.preprocess_dataset self progressions = Ok (g <$> progressions).
Proof.
  induction progressions as [|prog rest IH]; intros Hall; [done|].
  cbn [Dataset.preprocess_dataset].
  rewrite (Hall prog) by apply list_elem_of_here.
  rewrite IH; [done|]. intros p Hp. by apply Hall, list_elem_of_further.
Qed.

End dataset_lemmas.

Section built_dataset.
Context (self0 : preprocessor) (corpus : list prog).

Local Abbreviation built := (build_vocabularies self0 corpus).

Lemma preprocess_item_built (unk pad_id : Z) (prog : prog) :
  0 ≤ max_sequence_length self0 →
  Preprocessing.chord_to_id built !! UNK_TOKEN = Some unk →
  Preprocessing.chord_to_id built !! PAD_TOKEN = Some pad_id →
  Dataset.preprocess_item built prog = Ok (item_of built unk pad_id prog).
Proof.
  intros HL Hunk Hpad. unfold Dataset.preprocess_item.
  rewrite (encode_progression_known _ unk) by done.
  cbn [mbind result_bind bind].
  rewrite (pad_sequence_known _ pad_id) by done.
  cbn [mbind result_bind bind]. unfold len. rewrite length_fmap. reflexivity.
Qed.

Lemma corpus_chord_known (prog : prog) (c : string) :
  prog ∈ corpus → c ∈ progression prog → is_Some (Preprocessing.chord_to_id built !! c).
Proof.
  intros Hprog Hc. unfold build_vocabularies. cbn [Preprocessing.chord_to_id].
  apply index_dict_is_Some. unfold chord_list. apply elem_of_app. right.
  apply elem_of_sorted, elem_of_all_chords. by exists prog.
Qed.

Lemma corpus_value_known (axis : prog → string) (prog : prog) :
  prog ∈ corpus → is_Some (axis_vocab axis corpus !! axis prog).
Proof.
  intros Hprog. apply index_dict_is_Some, elem_of_sorted, elem_of_all_values.
  by exists prog.
Qed.

Lemma foreign_value_unknown (axis : prog → string) (v : string) :
  v ∉ all_values axis corpus → axis_vocab axis corpus !! v = None.
Proof.
  intros Hv. apply eq_None_not_Some. intros Hsome.
  apply index_dict_is_Some, elem_of_sorted in Hsome. done.
Qed.

Lemma first_value (axis : prog → string) :
  corpus ≠ [] →
  ∃ v0, v0 ∈ all_values axis corpus ∧ axis_vocab axis corpus !! v0 = Some 0.
Proof.
  intros Hne. destruct corpus as [|prog rest] eqn:Hcorpus; [done|].
  assert (Hin : axis prog ∈ sorted (all_values axis (prog :: rest))).
  { apply elem_of_sorted, elem_of_all_values. exists prog.
    split; [apply list_elem_of_here|done]. }
  destruct (sorted (all_values axis (prog :: rest))) as [|v0 vs] eqn:Hsorted.
  { by apply elem_of_nil in Hin. }
  exists v0. split.
  - apply elem_of_sorted. rewrite Hsorted. apply list_elem_of_here.
  - apply axis_vocab_lookup. split; [done|]. by rewrite Hsorted.
Qed.

End built_dataset.

(** X11. In a vocabulary built from any corpus and with a maximal length
    [L >= 0], [preprocess_dataset] never raises, on any list of
    progressions: it returns one record per progression, in order, whose
    encoded progression has exactly [L] ids, the ids of the chords (the id
    of UNK for a chord the vocabulary does not know) cut at [L] or
    followed by PAD ids up to [L], while [progression_length] and
    [progression_original] keep the length and the chords of the
    progression as it was, also when it was cut. *)
Theorem preprocess_dataset_spec (self0 : preprocessor) (corpus : list prog)
    (progressions : list prog) :
  let self := build_vocabularies self0 corpus in
  let L := max_sequence_length self0 in
  0 ≤ L →
  ∃ unk pad_id processed,
    Preprocessing.chord_to_id self !! UNK_TOKEN = Some unk
    ∧ Preprocessing.chord_to_id self !! PAD_TOKEN = Some pad_id
    ∧ Dataset.preprocess_dataset self progressions = Ok processed
    ∧ length processed = length progressions
    ∧ ∀ (i : nat) prog, progressions !! i = Some prog →
        ∃ item,
          processed !! i = Some item
          ∧ Dataset.item_id item = prog_id prog
          ∧ len (Dataset.progression_encoded item) = L
          ∧ Dataset.progression_encoded item
            = take (Z.to_nat L)
                (((λ c, default unk (Preprocessing.chord_to_id self !! c))
                    <$> progression prog)
                 ++ replicate (Z.to_nat (L - len (progression prog))) pad_id)
          ∧ Dataset.progression_original item = progression prog
          ∧ Dataset.progression_length item = len (progression prog)
          ∧ Dataset.genre item = genre prog ∧ Dataset.mood item = mood prog
          ∧ Dataset.key item = key prog
          ∧ Dataset.scale_type item = scale_type prog
          ∧ Dataset.source item = default "original" (source prog).
Proof.
  intros self L HL.
  destruct (built_special_tokens self0 corpus UNK_TOKEN) as [unk Hunk]; [compute_done|].
  destruct (built_special_tokens self0 corpus PAD_TOKEN) as [pad_id Hpad]; [compute_done|].
  exists unk, pad_id, (item_of self unk pad_id <$> progressions).
  split; [done|]. split; [done|]. split.
  { apply preprocess_dataset_map. intros prog _. by apply preprocess_item_built. }
  split; [apply length_fmap|].
  intros i prog Hi. exists (item_of self unk pad_id prog).
  split; [by rewrite list_lookup_fmap, Hi|].
  unfold item_of. cbn. fold L.
  repeat (split; [done|]). split; [|done].
  unfold len. rewrite length_take, length_app, length_replicate, length_fmap. lia.
Qed.

(** X12. Preprocessing the corpus the vocabulary was built from loses
    nothing of a progression of at most [L] chords: decoding the first
    [progression_length] ids of its record gives the progression back, the
    remaining ids are PAD ids, and each metadata id is the id that the
    vocabulary of its axis gives to the value of the progression. *)
Theorem preprocess_round_trip (self0 : preprocessor) (corpus : list prog)
    (i : nat) (prog : prog) :
  let self := build_vocabularies self0 corpus in
  let L := max_sequence_length self0 in
  corpus !! i = Some prog →
  len (progression prog) ≤ L →
  ∃ processed item pad_id,
    Dataset.preprocess_dataset self corpus = Ok processed
    ∧ processed !! i = Some item
    ∧ Preprocessing.chord_to_id self !! PAD_TOKEN = Some pad_id
    ∧ decode_progression self
        (slice_to (Dataset.progression_length item) (Dataset.progression_encoded item))
      = progression prog
    ∧ slice_from (Dataset.progression_length item) (Dataset.progression_encoded item)
      = replicate (Z.to_nat (L - len (progression prog))) pad_id
    ∧ genre_vocab self !! genre prog = Some (Dataset.genre_encoded item)
    ∧ mood_vocab self !! mood prog = Some (Dataset.mood_encoded item)
    ∧ key_vocab self !! key prog = Some (Dataset.key_encoded item)
    ∧ scale_type_vocab self !! scale_type prog = Some (Dataset.scale_type_encoded item).
Proof.
  intros self L Hi Hlen.
  assert (HL : 0 ≤ L) by (unfold len in Hlen; lia).
  destruct (built_special_tokens self0 corpus UNK_TOKEN) as [unk Hunk]; [compute_done|].
  destruct (built_special_tokens self0 corpus PAD_TOKEN) as [pad_id Hpad]; [compute_done|].
  exists (item_of self unk pad_id <$> corpus), (item_of self unk pad_id prog), pad_id.
  split.
  { apply preprocess_dataset_map. intros p _. by apply preprocess_item_built. }
  split; [by rewrite list_lookup_fmap, Hi|]. split; [done|].
  pose proof (list_elem_of_lookup_2 _ _ _ Hi) as Hprog.
  set (ids := (λ c, default unk (Preprocessing.chord_to_id self !! c)) <$> progression prog).
  assert (Hids : length ids = length (progression prog)) by apply length_fmap.
  assert (Henc : Dataset.progression_encoded (item_of self unk pad_id prog)
                 = (ids ++ replicate (Z.to_nat (L - len (progression prog))) pad_id)%list).
  { unfold item_of. cbn [Dataset.progression_encoded].
    change (max_sequence_length self) with L. fold ids.
    apply take_ge. rewrite length_app, length_replicate. unfold len in *. lia. }
  rewrite Henc.
  change (Dataset.progression_length (item_of self unk pad_id prog))
    with (len (progression prog)).
  rewrite slice_to_nonneg, slice_from_nonneg by (unfold len; lia).
  unfold len at 1 3. rewrite Nat2Z.id, <- Hids, take_app_length, drop_app_length.
  split.
  { unfold decode_progression, ids. change map with (@fmap list _).
    rewrite <- list_fmap_compose. rewrite <- (list_fmap_id (progression prog)) at 2.
    apply list_fmap_ext. intros _ c Hc%list_elem_of_lookup_2. unfold compose.
    destruct (corpus_chord_known self0 corpus prog c Hprog Hc) as [j Hj].
    fold self in Hj. rewrite Hj. cbn [default from_option].
    pose proof (built_id_to_chord self0 corpus j c) as Hinv.
    cbn zeta in Hinv. fold self in Hinv. apply Hinv in Hj.
    unfold Datatypes.id. by rewrite Hj. }
  split; [done|].
  unfold item_of. cbn.
  repeat split.
  - destruct (corpus_value_known corpus genre prog Hprog) as [j Hj].
    unfold self, build_vocabularies. cbn [genre_vocab]. by rewrite Hj.
  - destruct (corpus_value_known corpus mood prog Hprog) as [j Hj].
    unfold self, build_vocabularies. cbn [mood_vocab]. by rewrite Hj.
  - destruct (corpus_value_known corpus key prog Hprog) as [j Hj].
    unfold self, build_vocabularies. cbn [key_vocab]. by rewrite Hj.
  - destruct (corpus_value_known corpus scale_type prog Hprog) as [j Hj].
    unfold self, build_vocabularies. cbn [scale_type_vocab]. by rewrite Hj.
Qed.

(** X13. A metadata value that the corpus of the vocabulary does not have
    is encoded as 0, which is also the id of the first value of that axis
    in sorted order: the record of such a progression carries the id of
    another genre (mood, key, scale type). *)
Theorem preprocess_unknown_metadata (self0 : preprocessor) (corpus : list prog)
    (prog : prog) :
  let self := build_vocabularies self0 corpus in
  corpus ≠ [] →
  ∃ item,
    Dataset.preprocess_dataset self [prog] = Ok [item]
    ∧ (genre prog ∉ all_values genre corpus →
       Dataset.genre_encoded item = 0
       ∧ ∃ v0, v0 ∈ all_values genre corpus ∧ genre_vocab self !! v0 = Some 0)
    ∧ (mood prog ∉ all_values mood corpus →
       Dataset.mood_encoded item = 0
       ∧ ∃ v0, v0 ∈ all_values mood corpus ∧ mood_vocab self !! v0 = Some 0)
    ∧ (key prog ∉ all_values key corpus →
       Dataset.key_encoded item = 0
       ∧ ∃ v0, v0 ∈ all_values key corpus ∧ key_vocab self !! v0 = Some 0)
    ∧ (scale_type prog ∉ all_values scale_type corpus →
       Dataset.scale_type_encoded item = 0
       ∧ ∃ v0, v0 ∈ all_values scale_type corpus
               ∧ scale_type_vocab self !! v0 = Some 0).
Proof.
  intros self Hne.
  destruct (built_special_tokens self0 corpus UNK_TOKEN) as [unk Hunk]; [compute_done|].
  destruct (built_special_tokens self0 corpus PAD_TOKEN) as [pad_id Hpad]; [compute_done|].
  fold self in Hunk, Hpad.
  cbn [Dataset.preprocess_dataset]. unfold Dataset.preprocess_item.
  rewrite (encode_progression_known _ unk) by done.
  cbn [mbind result_bind bind].
  assert (Hpadded : ∃ padded, pad_sequence self
            ((λ c, default unk (Preprocessing.chord_to_id self !! c))
               <$> progression prog) None = Ok padded).
  { unfold pad_sequence. rewrite Hpad. cbn [of_option mbind result_bind bind].
    repeat case_match; by eexists. }
  destruct Hpadded as [padded ->]. cbn [mbind result_bind bind].
  eexists. split; [reflexivity|].
  unfold self, build_vocabularies.
  cbn [Dataset.genre_encoded Dataset.mood_encoded Dataset.key_encoded
       Dataset.scale_type_encoded genre_vocab mood_vocab key_vocab
       scale_type_vocab].
  repeat split;
    try (by rewrite foreign_value_unknown); by apply first_value.
Qed.

(** X14. Before [build_vocabularies] has run, [pad_sequence] raises
    [KeyError] on every input, [encode_progression] on every progression
    that is not empty and [preprocess_dataset] on every dataset that is not
    empty, while [decode_progression] raises nothing and gives the UNK
    token for every id. *)
Theorem preprocess_before_build (L : Z) :
  (∀ ids max_length, pad_sequence (init L) ids max_length = Raise KeyError)
  ∧ (∀ c p, encode_progression (init L) (c :: p) = Raise KeyError)
  ∧ (∀ prog progressions,
       Dataset.preprocess_dataset (init L) (prog :: progressions) = Raise KeyError)
  ∧ (∀ ids, decode_progression (init L) ids = replicate (length ids) UNK_TOKEN).
Proof.
  assert (Hpad : ∀ ids max_length,
            pad_sequence (init L) ids max_length = Raise KeyError) by done.
  assert (Henc : ∀ c p, encode_progression (init L) (c :: p) = Raise KeyError) by done.
  split; [done|]. split; [done|]. split.
  - intros prog progressions. cbn [Dataset.preprocess_dataset].
    unfold Dataset.preprocess_item.
    destruct (progression prog) as [|c p]; [|by rewrite Henc].
    cbn [encode_progression mbind result_bind bind]. by rewrite Hpad.
  - intros ids. unfold decode_progression.
    induction ids as [|i ids IH]; [done|]. cbn [map length replicate].
    by rewrite IH.
Qed.

Lemma preprocess_dataset_spec_witness :
  0 ≤ max_sequence_length (init 12)
  ∧ ∃ processed,
      Dataset.preprocess_dataset (build_vocabularies (init 12) sample_corpus)
        numbered_corpus = Ok processed
      ∧ length processed = length numbered_corpus.
Proof.
  split; [done|].
  destruct (preprocess_dataset_spec (init 12) sample_corpus numbered_corpus)
    as (_ & _ & processed & _ & _ & Hrun & Hlen & _); [done|].
  exists processed. split; [exact Hrun|exact Hlen].
Defined.

Lemma preprocess_round_trip_witness :
  (sample_corpus !! 0%nat = Some (sample_prog ["G"; "Am"; "C"] "rock" "happy")
   ∧ len ["G"; "Am"; "C"] ≤ 12)
  ∧ ∃ processed item,
      Dataset.preprocess_dataset (build_vocabularies (init 12) sample_corpus)
        sample_corpus = Ok processed
      ∧ processed !! 0%nat = Some item
      ∧ decode_progression (build_vocabularies (init 12) sample_corpus)
          (slice_to (Dataset.progression_length item)
             (Dataset.progression_encoded item))
        = ["G"; "Am"; "C"].
Proof.
  split; [split; [reflexivity|done]|].
  destruct (preprocess_round_trip (init 12) sample_corpus 0
              (sample_prog ["G"; "Am"; "C"] "rock" "happy") eq_refl)
    as (processed & item & _ & Hrun & Hitem & _ & Hdecode & _); [done|].
  exists processed, item. split; [exact Hrun|]. split; [exact Hitem|exact Hdecode].
Defined.

Lemma preprocess_unknown_metadata_witness :
  sample_corpus ≠ []
  ∧ ∃ item,
      Dataset.preprocess_dataset (build_vocabularies (init 12) sample_corpus)
        [sample_prog ["C"; "G"] "jazz" "happy"] = Ok [item].
Proof.
  split; [done|].
  destruct (preprocess_unknown_metadata (init 12) sample_corpus
              (sample_prog ["C"; "G"] "jazz" "happy"))
    as (item & Hrun & _); [done|].
  exists item. exact Hrun.
Defined.

(** * Training batches *)

Section batch_lemmas.
Context (self : DataGenerator.data_generator).

Local Abbreviation width := (DataGenerator.max_sequence_length self).

Lemma create_target_sequence_cons (c : Z) (p : list Z) :
  DataGenerator._create_target_sequence (c :: p) = Ok (p ++ [0])%list.
Proof.
  unfold DataGenerator._create_target_sequence.
  rewrite slice_from_nonneg by done. change (drop (Z.to_nat 1) (c :: p)) with p.
  assert (Hlast : slice_from (-1) (replicate (length (c :: p)) 0) = [0]).
  { unfold slice_from. cbn [Z.leb Z.compare]. rewrite length_replicate.
    cbn [length]. replace (Z.to_nat (Z.of_nat (S (length p)) + -1)) with (length p) by lia.
    change (S (length p)) with (1 + length p)%nat.
    rewrite Nat.add_comm, replicate_add, drop_app_length'; [done|by rewrite length_replicate]. }
  rewrite Hlast.
  assert (Hinit : slice_to (-1) (p ++ [0]) = p).
  { unfold slice_to. cbn [Z.leb Z.compare]. rewrite length_app. cbn [length].
    replace (Z.to_nat (Z.of_nat (length p + 1) + -1)) with (length p) by lia.
    by rewrite take_app_length. }
  rewrite Hinit. by destruct p.
Qed.

Lemma assign_row_fits (values : list Z) :
  len values = width → DataGenerator.assign_row width values = Ok values.
Proof. intros Hlen. unfold DataGenerator.assign_row. by rewrite Hlen, Z.eqb_refl. Qed.

Lemma batch_row_fills (idx : Z) (sample : Dataset.processed_item) :
  1 ≤ width → 0 ≤ idx →
  DataGenerator.data self !! Z.to_nat idx = Some sample →
  width ≤ len (Dataset.progression_encoded sample) →
  DataGenerator.batch_row self idx
  = Ok (input_row width sample, Dataset.genre_encoded sample,
        Dataset.mood_encoded sample, Dataset.key_encoded sample,
        Dataset.scale_type_encoded sample, target_row width sample).
Proof.
  intros Hw Hidx Hsample Hlen. unfold DataGenerator.batch_row, vec_index.
  destruct (Z.ltb_spec idx 0) as [?|_]; [lia|].
  destruct (Z.ltb_spec idx 0) as [?|_]; [lia|].
  rewrite Hsample. cbn [of_option mbind result_bind bind].
  rewrite slice_to_nonneg by lia. fold (input_row width sample).
  assert (Hrow : len (input_row width sample) = width).
  { unfold input_row, len in *. rewrite length_take. lia. }
  rewrite (assign_row_fits _ Hrow). cbn [mbind result_bind bind].
  unfold target_row.
  destruct (input_row width sample) as [|c p] eqn:Hinput.
  { unfold len in Hrow. cbn in Hrow. lia. }
  rewrite create_target_sequence_cons. cbn [mbind result_bind bind drop].
  rewrite assign_row_fits; [done|].
  unfold len in *. rewrite length_app. cbn [length] in *. lia.
Qed.

Lemma batch_rows_fills (idxs : list Z) :
  1 ≤ width →
  Forall (λ sample, width ≤ len (Dataset.progression_encoded sample))
         (DataGenerator.data self) →
  Forall (λ idx, 0 ≤ idx < len (DataGenerator.data self)) idxs →
  length (samples_at (DataGenerator.data self) idxs) = length idxs
  ∧ DataGenerator.batch_rows self idxs
    = Ok ((λ sample, (input_row width sample, Dataset.genre_encoded sample,
                      Dataset.mood_encoded sample, Dataset.key_encoded sample,
                      Dataset.scale_type_encoded sample, target_row width sample))
            <$> samples_at (DataGenerator.data self) idxs).
Proof.
  intros Hw Hdata Hidxs. induction Hidxs as [|idx idxs Hidx _ [IHlen IH]]; [done|].
  destruct (lookup_lt_is_Some_2 (DataGenerator.data self) (Z.to_nat idx))
    as [sample Hsample]; [unfold len in Hidx; lia|].
  unfold samples_at in *. cbn [omap list_omap]. rewrite Hsample.
  cbn [length fmap list_fmap]. split; [by rewrite IHlen|].
  cbn [DataGenerator.batch_rows].
  rewrite (batch_row_fills idx sample); [|lia|lia|done|].
  - cbn [mbind result_bind bind]. by rewrite IH.
  - rewrite Forall_forall in Hdata. by eapply Hdata, list_elem_of_lookup_2.
Qed.

Lemma generate_batch_fills (idxs : list Z) :
  1 ≤ width →
  Forall (λ sample, width ≤ len (Dataset.progression_encoded sample))
         (DataGenerator.data self) →
  Forall (λ idx, 0 ≤ idx < len (DataGenerator.data self)) idxs →
  let samples := samples_at (DataGenerator.data self) idxs in
  DataGenerator._generate_batch self idxs
  = Ok {| DataGenerator.chord_sequence_input := input_row width <$> samples;
          DataGenerator.genre_input := Dataset.genre_encoded <$> samples;
          DataGenerator.mood_input := Dataset.mood_encoded <$> samples;
          DataGenerator.key_input := Dataset.key_encoded <$> samples;
          DataGenerator.scale_type_input := Dataset.scale_type_encoded <$> samples;
          DataGenerator.targets := target_row width <$> samples |}.
Proof.
  intros Hw Hdata Hidxs samples. unfold DataGenerator._generate_batch.
  destruct (Z.ltb_spec width 0) as [?|_]; [lia|].
  destruct (batch_rows_fills idxs Hw Hdata Hidxs) as [_ ->].
  cbn [mbind result_bind bind]. fold samples.
  by rewrite <- !list_fmap_compose.
Qed.

End batch_lemmas.

Section slice_more.
Context {A : Type}.
Implicit Types l : list A.

Lemma slice_take_drop (a b : Z) l :
  ∃ n m, slice a b l = take n (drop m l).
Proof. unfold slice. by eexists _, _. Qed.

Lemma slice_chunk (k : nat) (bs : Z) l :
  0 < bs →
  slice (Z.of_nat k * bs) ((Z.of_nat k + 1) * bs) l
  = take (Z.to_nat bs) (drop (k * Z.to_nat bs) l).
Proof.
  intros Hbs.
  replace ((Z.of_nat k + 1) * bs) with (Z.of_nat k * bs + bs) by lia.
  rewrite slice_nonneg by lia. do 2 f_equal. lia.
Qed.

Lemma chunks_cover (n : nat) (bs : nat) l :
  concat ((λ k, take bs (drop (k * bs) l)) <$> seq 0 n) = take (n * bs) l.
Proof.
  induction n as [|n IH]; [done|].
  rewrite seq_S, fmap_app, concat_app, IH. cbn [fmap list_fmap concat].
  rewrite app_nil_r, Nat.add_0_l.
  replace (S n * bs)%nat with (n * bs + bs)%nat by lia.
  apply take_take_drop.
Qed.

End slice_more.

(** X15. [_create_target_sequence] shifts a sequence that is not empty one
    place to the left and ends it with the PAD id 0, keeping its length;
    on an empty sequence it raises [IndexError]. *)
Theorem create_target_sequence_shift :
  DataGenerator._create_target_sequence [] = Raise IndexError
  ∧ ∀ (c : Z) (p : list Z),
      DataGenerator._create_target_sequence (c :: p) = Ok (p ++ [0])%list
      ∧ length (p ++ [0])%list = length (c :: p)
      ∧ ∀ (j : nat) x, (c :: p) !! S j = Some x → (p ++ [0])%list !! j = Some x.
Proof.
  split; [reflexivity|]. intros c p.
  split; [apply create_target_sequence_cons|].
  split; [rewrite length_app; cbn; lia|].
  intros j x Hj. cbn in Hj. by apply lookup_app_l_Some.
Qed.

Lemma getitem_batch_rows (self : DataGenerator.data_generator) (index : Z) :
  let width := DataGenerator.max_sequence_length self in
  1 ≤ width →
  Forall (fills_row width) (DataGenerator.data self) →
  Forall (λ idx, 0 ≤ idx < len (DataGenerator.data self)) (DataGenerator.indexes self) →
  ∃ batch,
    DataGenerator.__getitem__ self index = Ok batch
    ∧ Forall (λ row, len row = width) (DataGenerator.chord_sequence_input batch)
    ∧ Forall (λ row, len row = width) (DataGenerator.targets batch).
Proof.
  intros width Hw Hdata Hidx.
  assert (Hlens : Forall (λ sample, width ≤ len (Dataset.progression_encoded sample))
                         (DataGenerator.data self)).
  { eapply Forall_impl; [exact Hdata|]. by intros sample [? _]. }
  set (batch_indexes := slice (index * DataGenerator.batch_size self)
                              ((index + 1) * DataGenerator.batch_size self)
                              (DataGenerator.indexes self)).
  assert (Hbatch : Forall (λ idx, 0 ≤ idx < len (DataGenerator.data self)) batch_indexes).
  { unfold batch_indexes.
    destruct (slice_take_drop (index * DataGenerator.batch_size self)
                ((index + 1) * DataGenerator.batch_size self)
                (DataGenerator.indexes self)) as (n & m & ->).
    by apply Forall_take, Forall_drop. }
  assert (Hin : ∀ sample, sample ∈ samples_at (DataGenerator.data self) batch_indexes →
                  width ≤ len (Dataset.progression_encoded sample)).
  { intros sample Hs. unfold samples_at in Hs.
    apply list_elem_of_omap in Hs as (idx & _ & Hs).
    rewrite Forall_forall in Hlens. by eapply Hlens, list_elem_of_lookup_2. }
  unfold DataGenerator.__getitem__. fold batch_indexes.
  rewrite (generate_batch_fills self batch_indexes Hw Hlens Hbatch).
  fold width. eexists. split; [reflexivity|].
  cbn [DataGenerator.chord_sequence_input DataGenerator.targets].
  split; apply Forall_fmap, Forall_forall; intros sample Hs; specialize (Hin _ Hs);
    cbn; unfold target_row, input_row, len in *.
  - rewrite length_take. lia.
  - rewrite length_app, length_drop, length_take. cbn [length]. lia.
Qed.

(** X16. When the maximal length is at least 1, every sample has at least
    that many encoded ids (all fitting the int32 cells) and the indexes are
    positions of the data, [__getitem__] succeeds for every batch number:
    the batch has one row per index of the slice
    [indexes[index * batch_size : (index + 1) * batch_size]], in order; the
    input row of a sample is its first [max_sequence_length] ids, its
    target row the same ids shifted left and ended by 0, and the
    conditioning columns hold its four metadata ids. *)
Theorem getitem_batch (self : DataGenerator.data_generator) (index : Z) :
  let width := DataGenerator.max_sequence_length self in
  let batch_indexes :=
    slice (index * DataGenerator.batch_size self)
          ((index + 1) * DataGenerator.batch_size self)
          (DataGenerator.indexes self) in
  let samples := samples_at (DataGenerator.data self) batch_indexes in
  1 ≤ width →
  Forall (fills_row width) (DataGenerator.data self) →
  Forall (λ idx, 0 ≤ idx < len (DataGenerator.data self)) (DataGenerator.indexes self) →
  ∃ batch,
    DataGenerator.__getitem__ self index = Ok batch
    ∧ length samples = length batch_indexes
    ∧ DataGenerator.chord_sequence_input batch = input_row width <$> samples
    ∧ DataGenerator.targets batch = target_row width <$> samples
    ∧ DataGenerator.genre_input batch = Dataset.genre_encoded <$> samples
    ∧ DataGenerator.mood_input batch = Dataset.mood_encoded <$> samples
    ∧ DataGenerator.key_input batch = Dataset.key_encoded <$> samples
    ∧ DataGenerator.scale_type_input batch = Dataset.scale_type_encoded <$> samples
    ∧ Forall (λ row, len row = width) (DataGenerator.chord_sequence_input batch)
    ∧ Forall (λ row, len row = width) (DataGenerator.targets batch).
Proof.
  intros width batch_indexes samples Hw Hdata Hidx.
  assert (Hlens : Forall (λ sample, width ≤ len (Dataset.progression_encoded sample))
                         (DataGenerator.data self)).
  { eapply Forall_impl; [exact Hdata|]. by intros sample [? _]. }
  assert (Hbatch : Forall (λ idx, 0 ≤ idx < len (DataGenerator.data self)) batch_indexes).
  { unfold batch_indexes.
    destruct (slice_take_drop (index * DataGenerator.batch_size self)
                ((index + 1) * DataGenerator.batch_size self)
                (DataGenerator.indexes self)) as (n & m & ->).
    by apply Forall_take, Forall_drop. }
  assert (Hin : ∀ sample, sample ∈ samples →
                  width ≤ len (Dataset.progression_encoded sample)).
  { intros sample Hs. unfold samples, samples_at in Hs.
    apply list_elem_of_omap in Hs as (idx & _ & Hs).
    rewrite Forall_forall in Hlens. by eapply Hlens, list_elem_of_lookup_2. }
  unfold DataGenerator.__getitem__. fold batch_indexes.
  rewrite (generate_batch_fills self batch_indexes Hw Hlens Hbatch).
  fold width samples. eexists. split; [reflexivity|].
  cbn [DataGenerator.chord_sequence_input DataGenerator.targets
       DataGenerator.genre_input DataGenerator.mood_input DataGenerator.key_input
       DataGenerator.scale_type_input].
  split; [apply (batch_rows_fills self batch_indexes Hw Hlens Hbatch)|].
  do 6 (split; [done|]).
  split; apply Forall_fmap, Forall_forall; intros sample Hs; specialize (Hin _ Hs);
    cbn; unfold target_row, input_row, len in *.
  - rewrite length_take. lia.
  - rewrite length_app, length_drop, length_take. cbn [length]. lia.
Qed.

(** X17. Under the same conditions and with a positive batch size, the
    batches 0, ..., n - 1 of an epoch, for any [n] with
    [n * batch_size >= len(indexes)], hold every index exactly once and in
    order: their rows put end to end are the rows of the samples at
    [indexes]; and no batch has more than [batch_size] rows. *)
Theorem epoch_covers_data (self : DataGenerator.data_generator) (n : nat) :
  let width := DataGenerator.max_sequence_length self in
  let samples := samples_at (DataGenerator.data self) (DataGenerator.indexes self) in
  1 ≤ width →
  Forall (fills_row width) (DataGenerator.data self) →
  Forall (λ idx, 0 ≤ idx < len (DataGenerator.data self)) (DataGenerator.indexes self) →
  0 < DataGenerator.batch_size self →
  len (DataGenerator.indexes self) ≤ Z.of_nat n * DataGenerator.batch_size self →
  ∃ batches,
    epoch self n = Ok batches
    ∧ length batches = n
    ∧ length samples = length (DataGenerator.indexes self)
    ∧ concat (DataGenerator.chord_sequence_input <$> batches) = input_row width <$> samples
    ∧ concat (DataGenerator.targets <$> batches) = target_row width <$> samples
    ∧ concat (DataGenerator.genre_input <$> batches) = Dataset.genre_encoded <$> samples
    ∧ concat (DataGenerator.mood_input <$> batches) = Dataset.mood_encoded <$> samples
    ∧ concat (DataGenerator.key_input <$> batches) = Dataset.key_encoded <$> samples
    ∧ concat (DataGenerator.scale_type_input <$> batches)
      = Dataset.scale_type_encoded <$> samples
    ∧ Forall (λ b, len (DataGenerator.targets b) ≤ DataGenerator.batch_size self) batches.
Proof.
  intros width samples Hw Hdata Hidx Hbs Hn.
  assert (Hlens : Forall (λ sample, width ≤ len (Dataset.progression_encoded sample))
                         (DataGenerator.data self)).
  { eapply Forall_impl; [exact Hdata|]. by intros sample [? _]. }
  set (bs := Z.to_nat (DataGenerator.batch_size self)).
  set (chunk := λ k : nat, take bs (drop (k * bs) (DataGenerator.indexes self))).
  set (batch_of := λ idxs : list Z,
         let ss := samples_at (DataGenerator.data self) idxs in
         {| DataGenerator.chord_sequence_input := input_row width <$> ss;
            DataGenerator.genre_input := Dataset.genre_encoded <$> ss;
            DataGenerator.mood_input := Dataset.mood_encoded <$> ss;
            DataGenerator.key_input := Dataset.key_encoded <$> ss;
            DataGenerator.scale_type_input := Dataset.scale_type_encoded <$> ss;
            DataGenerator.targets := target_row width <$> ss |}).
  assert (Hget : ∀ k : nat,
            DataGenerator.__getitem__ self (Z.of_nat k) = Ok (batch_of (chunk k))).
  { intros k. unfold DataGenerator.__getitem__.
    rewrite slice_chunk by done. fold bs. fold (chunk k).
    apply generate_batch_fills; [done..|].
    by apply Forall_take, Forall_drop. }
  assert (Hrun : ∀ m : nat,
            mapM (DataGenerator.__getitem__ self) (Z.of_nat <$> seq 0 m)
            = Ok ((λ k, batch_of (chunk k)) <$> seq 0 m)).
  { intros m. generalize 0%nat as start.
    induction m as [|m IH]; intros start; [done|].
    cbn [seq fmap list_fmap mapM]. rewrite Hget.
    cbn [mbind result_bind bind]. by rewrite (IH (S start)). }
  assert (Hall : concat (chunk <$> seq 0 n) = DataGenerator.indexes self).
  { unfold chunk. rewrite chunks_cover. apply take_ge. unfold len, bs in *. nia. }
  assert (Hcol : ∀ {B} (f : Dataset.processed_item → B)
                   (col : DataGenerator.batch → list B),
            (∀ idxs, col (batch_of idxs) = f <$> samples_at (DataGenerator.data self) idxs) →
            concat (col <$> ((λ k, batch_of (chunk k)) <$> seq 0 n)) = f <$> samples).
  { intros B f col Hcolumn. unfold samples. rewrite <- Hall.
    generalize (seq 0 n) as ks. induction ks as [|k ks IH]; [done|].
    cbn [fmap list_fmap concat]. rewrite Hcolumn, IH.
    unfold samples_at. by rewrite omap_app, fmap_app. }
  exists ((λ k, batch_of (chunk k)) <$> seq 0 n).
  split; [apply Hrun|]. split; [by rewrite length_fmap, length_seq|].
  split; [apply (batch_rows_fills self _ Hw Hlens Hidx)|].
  do 6 (split; [by apply Hcol|]).
  apply Forall_fmap, Forall_forall. intros k _. cbn.
  unfold len. rewrite length_fmap.
  assert (length (samples_at (DataGenerator.data self) (chunk k)) = length (chunk k))
    by (apply (batch_rows_fills self (chunk k) Hw Hlens); by apply Forall_take, Forall_drop).
  assert (length (chunk k) ≤ bs)%nat by (unfold chunk; rewrite length_take; lia).
  unfold bs in *. lia.
Qed.

(** X18. A batch number outside the epoch raises nothing: the number -1
    and every number [index] with [index * batch_size >= len(indexes)]
    give a batch without rows. *)
Theorem getitem_outside_epoch (self : DataGenerator.data_generator) (index : Z) :
  0 ≤ DataGenerator.max_sequence_length self →
  0 < DataGenerator.batch_size self →
  index = -1
  ∨ len (DataGenerator.indexes self) ≤ index * DataGenerator.batch_size self →
  DataGenerator.__getitem__ self index = Ok empty_batch.
Proof.
  intros Hw Hbs Hindex. unfold DataGenerator.__getitem__.
  assert (Hslice : slice (index * DataGenerator.batch_size self)
                         ((index + 1) * DataGenerator.batch_size self)
                         (DataGenerator.indexes self) = []).
  { unfold slice, len in *. destruct Hindex as [->|Hout].
    - change ((-1 + 1) * DataGenerator.batch_size self) with 0.
      destruct (Z.leb_spec 0 (-1 * DataGenerator.batch_size self)) as [?|_]; [lia|].
      cbn [Z.leb Z.compare].
      replace (Z.to_nat _) with 0%nat by lia. done.
    - assert (0 ≤ index) by nia.
      destruct (Z.leb_spec 0 (index * DataGenerator.batch_size self)) as [_|?]; [|lia].
      destruct (Z.leb_spec 0 ((index + 1) * DataGenerator.batch_size self)) as [_|?]; [|lia].
      rewrite drop_ge by lia. apply take_nil. }
  rewrite Hslice. unfold DataGenerator._generate_batch.
  destruct (Z.ltb_spec (DataGenerator.max_sequence_length self) 0) as [?|_]; [lia|].
  reflexivity.
Qed.

(** X19. The generator does not pad: a batch that holds a sample whose
    encoded progression is shorter than the maximal length fails with
    [ValueError], whether the progression is empty or has between 2 and
    [max_sequence_length - 1] ids; a progression of a single id is spread
    over the whole input row, with a target row of zeros. *)
Theorem generate_batch_short_row (self : DataGenerator.data_generator) (idx : Z)
    (sample : Dataset.processed_item) :
  let width := DataGenerator.max_sequence_length self in
  let ids := Dataset.progression_encoded sample in
  0 ≤ idx →
  DataGenerator.data self !! Z.to_nat idx = Some sample →
  len ids < width →
  (len ids ≠ 1 → DataGenerator._generate_batch self [idx] = Raise ValueError)
  ∧ (∀ c, ids = [c] →
       ∃ batch,
         DataGenerator._generate_batch self [idx] = Ok batch
         ∧ DataGenerator.chord_sequence_input batch = [replicate (Z.to_nat width) c]
         ∧ DataGenerator.targets batch = [replicate (Z.to_nat width) 0]).
Proof.
  intros width ids Hidx Hsample Hshort.
  assert (Hw : 0 ≤ width) by (unfold len in Hshort; lia).
  assert (Hrow : DataGenerator.batch_row self idx
                 = (chords ← DataGenerator.assign_row width ids;
                    target ← DataGenerator._create_target_sequence ids;
                    target_row ← DataGenerator.assign_row width target;
                    Ok (chords, Dataset.genre_encoded sample, Dataset.mood_encoded sample,
                        Dataset.key_encoded sample, Dataset.scale_type_encoded sample,
                        target_row))).
  { unfold DataGenerator.batch_row, vec_index.
    destruct (Z.ltb_spec idx 0) as [?|_]; [lia|].
    destruct (Z.ltb_spec idx 0) as [?|_]; [lia|].
    rewrite Hsample. cbn [of_option mbind result_bind bind].
    fold width ids. rewrite slice_to_nonneg by done.
    rewrite take_ge; [done|]. unfold len in Hshort. lia. }
  unfold DataGenerator._generate_batch. fold width.
  destruct (Z.ltb_spec width 0) as [?|_]; [lia|].
  cbn [DataGenerator.batch_rows]. rewrite Hrow. clear Hrow.
  assert (Hassign : ∀ values, len values ≠ width →
            DataGenerator.assign_row width values
            = match values with
              | [v] => Ok (replicate (Z.to_nat width) v)
              | _ => Raise ValueError
              end).
  { intros values Hne. unfold DataGenerator.assign_row.
    by destruct (Z.eqb_spec (len values) width). }
  rewrite (Hassign ids) by lia.
  clearbody ids. split.
  - intros Hne. destruct ids as [|c [|c' ids']]; [reflexivity| |reflexivity].
    by unfold len in Hne.
  - intros c ->. cbn [mbind result_bind bind].
    rewrite create_target_sequence_cons. cbn [mbind result_bind bind app].
    rewrite (Hassign [0]) by (unfold len in *; cbn in *; lia).
    cbn [mbind result_bind bind]. eexists. split; [reflexivity|]. by split.
Qed.

Section id_ranges.
Context (self0 : preprocessor) (corpus : list prog).

Local Abbreviation built := (build_vocabularies self0 corpus).

Lemma built_id_range (c : string) (i : Z) :
  Preprocessing.chord_to_id built !! c = Some i → 0 ≤ i < vocab_size built.
Proof.
  unfold build_vocabularies. cbn [Preprocessing.chord_to_id vocab_size].
  intros [Hi Hc%lookup_lt_Some]%index_dict_lookup_Some. unfold len. lia.
Qed.

Lemma axis_values_length (axis : prog → string) :
  (length (sorted (all_values axis corpus)) ≤ length corpus)%nat.
Proof.
  rewrite <- (length_fmap axis corpus). apply submseteq_length.
  apply NoDup_submseteq; [apply sorted_NoDup|].
  intros v (p & Hp & ->)%elem_of_sorted%elem_of_all_values.
  by apply list_elem_of_fmap_2.
Qed.

Lemma axis_id_range (axis : prog → string) (v : string) :
  0 ≤ default 0 (axis_vocab axis corpus !! v) ≤ len corpus.
Proof.
  destruct (axis_vocab axis corpus !! v) as [i|] eqn:Hv; cbn; [|unfold len; lia].
  apply axis_vocab_lookup in Hv as [Hi Hv%lookup_lt_Some].
  pose proof (axis_values_length axis). unfold len. lia.
Qed.

Lemma item_of_fills_row (unk pad_id : Z) (prog : prog) :
  0 ≤ max_sequence_length self0 →
  vocab_size built ≤ 2 ^ 31 → len corpus < 2 ^ 31 →
  Preprocessing.chord_to_id built !! UNK_TOKEN = Some unk →
  Preprocessing.chord_to_id built !! PAD_TOKEN = Some pad_id →
  fills_row (max_sequence_length self0) (item_of built unk pad_id prog).
Proof.
  intros HL Hvocab Hcorpus Hunk Hpad.
  apply built_id_range in Hunk as Hunk'. apply built_id_range in Hpad as Hpad'.
  change (2 ^ 31) with 2147483648 in *.
  assert (Hint : ∀ z, 0 ≤ z < 2147483648 → int32 z) by (intros z; unfold int32; lia).
  unfold fills_row, item_of.
  cbn [Dataset.progression_encoded Dataset.genre_encoded Dataset.mood_encoded
       Dataset.key_encoded Dataset.scale_type_encoded].
  change (max_sequence_length built) with (max_sequence_length self0).
  split.
  { unfold len. rewrite length_take, length_app, length_replicate, length_fmap. lia. }
  split.
  { apply Forall_take, Forall_app. split.
    - apply Forall_fmap, Forall_forall. intros c _. apply Hint.
      destruct (Preprocessing.chord_to_id built !! c) as [i|] eqn:Hc;
        cbn [default from_option]; unfold Datatypes.id.
      + apply built_id_range in Hc. lia.
      + lia.
    - apply Forall_replicate, Hint. lia. }
  unfold build_vocabularies.
  cbn [genre_vocab mood_vocab key_vocab scale_type_vocab].
  pose proof (axis_id_range genre (genre prog)).
  pose proof (axis_id_range mood (mood prog)).
  pose proof (axis_id_range key (key prog)).
  pose proof (axis_id_range scale_type (scale_type prog)).
  repeat split; apply Hint; lia.
Qed.

End id_ranges.

(** X20. The preprocessed dataset feeds the batch generator: with a
    maximal length [L >= 1] (and a vocabulary and a corpus small enough
    for int32 ids), every record that [preprocess_dataset] returns fills a
    row of [L] cells with ids between 0 and the vocabulary size, so that
    every batch of a generator over these records with the same maximal
    length is produced without error, every row having [L] cells. *)
Theorem preprocessed_batches (self0 : preprocessor) (corpus progressions : list prog)
    (batch_size index : Z) :
  let self := build_vocabularies self0 corpus in
  let L := max_sequence_length self0 in
  1 ≤ L → vocab_size self ≤ 2 ^ 31 → len corpus < 2 ^ 31 →
  ∃ processed batch,
    Dataset.preprocess_dataset self progressions = Ok processed
    ∧ Forall (fills_row L) processed
    ∧ Forall (λ item, Forall (λ i, 0 ≤ i < vocab_size self)
                             (Dataset.progression_encoded item)) processed
    ∧ DataGenerator.__getitem__ (sequential processed batch_size L) index = Ok batch
    ∧ Forall (λ row, len row = L) (DataGenerator.chord_sequence_input batch)
    ∧ Forall (λ row, len row = L) (DataGenerator.targets batch).
Proof.
  intros self L HL Hvocab Hcorpus.
  destruct (built_special_tokens self0 corpus UNK_TOKEN) as [unk Hunk]; [compute_done|].
  destruct (built_special_tokens self0 corpus PAD_TOKEN) as [pad_id Hpad]; [compute_done|].
  set (processed := item_of self unk pad_id <$> progressions).
  assert (Hfills : Forall (fills_row L) processed).
  { apply Forall_fmap, Forall_forall. intros prog _.
    apply item_of_fills_row; [lia|done..]. }
  destruct (getitem_batch_rows (sequential processed batch_size L) index)
    as (batch & Hbatch & Hrows & Htargets); [done|done| |].
  { cbn [DataGenerator.indexes DataGenerator.data sequential].
    apply Forall_fmap, Forall_forall. intros i Hi%elem_of_seq. unfold len. cbn. lia. }
  exists processed, batch.
  split. { apply preprocess_dataset_map. intros prog _. apply preprocess_item_built; [lia|done..]. }
  split; [done|]. split; [|done].
  apply Forall_fmap, Forall_forall. intros prog _.
  unfold compose, item_of. cbn [Dataset.progression_encoded].
  apply built_id_range in Hunk as Hunk'. apply built_id_range in Hpad as Hpad'.
  apply Forall_take, Forall_app. split.
  - apply Forall_fmap, Forall_forall. intros c _. unfold compose. cbn beta.
    destruct (Preprocessing.chord_to_id self !! c) as [i|] eqn:Hc;
      cbn [default from_option]; unfold Datatypes.id; [|exact Hunk'].
    by apply built_id_range in Hc.
  - apply Forall_replicate. exact Hpad'.
Qed.

Lemma sample_items_fill : Forall (fills_row 12) sample_items.
Proof.
  apply Forall_fmap, Forall_forall. intros prog _.
  apply (item_of_fills_row (init 12) sample_corpus 3 0 prog);
    [done|vm_compute; discriminate|done|vm_compute; reflexivity..].
Qed.

Lemma sample_indexes_valid (batch_size : Z) :
  Forall (λ idx, 0 ≤ idx < len (DataGenerator.data (sequential sample_items batch_size 12)))
         (DataGenerator.indexes (sequential sample_items batch_size 12)).
Proof. repeat constructor; done. Qed.

Lemma getitem_batch_witness :
  (1 ≤ DataGenerator.max_sequence_length (sequential sample_items 1 12)
   ∧ Forall (fills_row 12) (DataGenerator.data (sequential sample_items 1 12)))
  ∧ ∃ batch,
      DataGenerator.__getitem__ (sequential sample_items 1 12) 1 = Ok batch
      ∧ Forall (λ row, len row = 12) (DataGenerator.targets batch).
Proof.
  split; [split; [done|exact sample_items_fill]|].
  destruct (getitem_batch (sequential sample_items 1 12) 1)
    as (batch & Hrun & _ & _ & _ & _ & _ & _ & _ & _ & Htargets);
    [done|exact sample_items_fill|exact (sample_indexes_valid 1)|].
  exists batch. split; [exact Hrun|exact Htargets].
Defined.

Lemma epoch_covers_data_witness :
  (0 < DataGenerator.batch_size (sequential sample_items 1 12)
   ∧ len (DataGenerator.indexes (sequential sample_items 1 12))
     ≤ Z.of_nat 2 * DataGenerator.batch_size (sequential sample_items 1 12))
  ∧ ∃ batches,
      epoch (sequential sample_items 1 12) 2 = Ok batches ∧ length batches = 2%nat.
Proof.
  split; [split; done|].
  destruct (epoch_covers_data (sequential sample_items 1 12) 2)
    as (batches & Hrun & Hlen & _);
    [done|exact sample_items_fill|exact (sample_indexes_valid 1)|done|done|].
  exists batches. split; [exact Hrun|exact Hlen].
Defined.

Lemma getitem_outside_epoch_witness :
  DataGenerator.__getitem__ (sequential sample_items 1 12) (-1) = Ok empty_batch
  ∧ DataGenerator.__getitem__ (sequential sample_items 1 12) 2 = Ok empty_batch.
Proof.
  split.
  - apply (getitem_outside_epoch (sequential sample_items 1 12) (-1)); [done|done|by left].
  - apply (getitem_outside_epoch (sequential sample_items 1 12) 2); [done|done|by right].
Defined.

Lemma generate_batch_short_row_witness :
  len [5; 6] < 12
  ∧ DataGenerator._generate_batch (sequential [short_item [5; 6]] 1 12) [0]
    = Raise ValueError.
Proof.
  split; [done|].
  apply (generate_batch_short_row (sequential [short_item [5; 6]] 1 12) 0
           (short_item [5; 6])); done.
Defined.

Lemma preprocessed_batches_witness :
  (1 ≤ max_sequence_length (init 12)
   ∧ vocab_size (build_vocabularies (init 12) sample_corpus) ≤ 2 ^ 31
   ∧ len sample_corpus < 2 ^ 31)
  ∧ ∃ processed batch,
      Dataset.preprocess_dataset (build_vocabularies (init 12) sample_corpus)
        numbered_corpus = Ok processed
      ∧ DataGenerator.__getitem__ (sequential processed 32 12) 0 = Ok batch.
Proof.
  assert (Hvocab : vocab_size (build_vocabularies (init 12) sample_corpus) ≤ 2 ^ 31)
    by (vm_compute; discriminate).
  split; [split; [done|split; [exact Hvocab|done]]|].
  destruct (preprocessed_batches (init 12) sample_corpus numbered_corpus 32 0)
    as (processed & batch & Hrun & _ & _ & Hbatch & _); [done|exact Hvocab|done|].
  exists processed, batch. split; [exact Hrun|exact Hbatch].
Defined.

(** * Validity of generated progressions *)

Section validity_lemmas.

Lemma list_to_set_replicate (c : string) (n : nat) :
  (list_to_set (replicate (S n) c) : gset string) = {[ c ]}.
Proof.
  induction n as [|n IH]; cbn [replicate list_to_set] in *.
  - apply union_empty_r_L.
  - rewrite IH. apply union_idemp_L.
Qed.

Lemma size_one_all_identical (p : list string) :
  size (list_to_set p : gset string) = 1%nat ↔ all_identical p.
Proof.
  split.
  - intros [c Hc]%size_1_elem_of.
    assert (Hall : Forall (λ x, x = c) p).
    { apply Forall_forall. intros x Hx.
      assert (x ∈ (list_to_set p : gset string)) as Hin by by apply elem_of_list_to_set.
      rewrite Hc in Hin. by apply elem_of_singleton in Hin. }
    destruct p as [|x p].
    + exfalso. cbn in Hc. assert (c ∈ (∅ : gset string)) as Hin
        by (rewrite Hc; by apply elem_of_singleton).
      by apply elem_of_empty in Hin.
    + exists c, (length p). apply Forall_cons in Hall as [-> Hall].
      cbn [replicate]. f_equal. clear Hc.
      induction Hall as [|y p -> _ IH]; [done|]. cbn. by rewrite <- IH.
  - intros (c & n & ->). rewrite list_to_set_replicate. apply size_singleton.
Qed.

Lemma consecutive_repeats_nil (p : list string) :
  Evaluation.consecutive_repeats p = [] ↔ ¬ three_in_a_row p.
Proof.
  induction p as [|a p IH]; [split; [intros _ (i & c & Hi & _); by destruct i|done]|].
  destruct p as [|b [|c p]].
  - split; [intros _ (i & x & _ & Hi & _); by destruct i|done].
  - split; [intros _ (i & x & _ & _ & Hi); by destruct i as [|[|i]]|done].
  - change (Evaluation.consecutive_repeats (a :: b :: c :: p))
      with (if bool_decide (a = b) && bool_decide (b = c)
            then ("Three consecutive " ++ a ++ " chords")%string
                 :: Evaluation.consecutive_repeats (b :: c :: p)
            else Evaluation.consecutive_repeats (b :: c :: p)).
    destruct (decide (a = b)) as [->|Hab].
    + destruct (decide (b = c)) as [->|Hbc].
      * rewrite !bool_decide_true by done. cbn [andb]. split; [done|].
        intros Hno. exfalso. apply Hno. by exists 0%nat, c.
      * rewrite (bool_decide_false (b = c)) by done. rewrite andb_false_r.
        rewrite IH. split; intros Hno (i & x & H0 & H1 & H2); apply Hno.
        -- destruct i as [|i]; [|by exists i, x].
           cbn in H0, H1, H2. congruence.
        -- by exists (S i), x.
    + rewrite (bool_decide_false (a = b)) by done. cbn [andb].
      rewrite IH. split; intros Hno (i & x & H0 & H1 & H2); apply Hno.
      * destruct i as [|i]; [|by exists i, x].
        cbn in H0, H1, H2. congruence.
      * by exists (S i), x.
Qed.

Lemma root_issue_None (chord : string) :
  Evaluation.root_issue chord = None ↔ starts_with_note chord = true.
Proof.
  unfold Evaluation.root_issue, starts_with_note.
  destruct chord as [|a rest]; [done|].
  cbn [String.length Nat.eqb str_take].
  destruct (list_in (String a EmptyString) Evaluation.valid_roots) eqn:Hin.
  - split; [intros _|done]. apply bool_decide_eq_true.
    apply list_in_true in Hin. unfold Evaluation.valid_roots in Hin.
    elem_cases Hin; injection Hin as ->; compute_done.
  - split; [done|]. intros Ha%bool_decide_eq_true.
    apply list_in_false in Hin. exfalso. apply Hin.
    unfold Evaluation.valid_roots. elem_cases Ha; subst a; compute_done.
Qed.

Lemma omap_nil_iff {A B} (f : A → option B) (l : list A) :
  omap f l = [] ↔ Forall (λ x, f x = None) l.
Proof.
  induction l as [|x l IH]; [done|]. cbn [omap list_omap].
  destruct (f x) eqn:Hx.
  - split; [done|]. intros [? _]%Forall_cons. congruence.
  - rewrite IH. split; [by constructor|by intros [_ ?]%Forall_cons].
Qed.

Lemma no_special_token (p : list string) :
  Forall (λ c, starts_with_note c = true) p →
  omap (λ token, if list_in token p
                 then Some ("Contains special token: " ++ token)%string
                 else None) Evaluation.special_tokens = [].
Proof.
  intros Hp. apply omap_nil_iff, Forall_forall. intros token Htoken.
  destruct (list_in token p) eqn:Hin; [|done].
  apply list_in_true in Hin. rewrite Forall_forall in Hp. apply Hp in Hin.
  unfold Evaluation.special_tokens in Htoken.
  elem_cases Htoken; subst token; discriminate Hin.
Qed.

Lemma valid_iff_no_issue (p : list string) :
  Evaluation.valid (Evaluation.check_progression p) = true
  ↔ Evaluation.issues (Evaluation.check_progression p) = [].
Proof.
  unfold Evaluation.check_progression. cbn [Evaluation.valid Evaluation.issues].
  rewrite Nat.eqb_eq. apply length_zero_iff_nil.
Qed.

End validity_lemmas.

(** X21. [check_progression] declares a progression valid exactly when it
    has no issue, that is when it is not one chord repeated (a progression
    of one chord is never valid, the empty one is), holds no three equal
    chords in a row, and every chord begins with one of the letters C, D,
    E, F, G, A, B; the test for special tokens adds nothing to this, since
    no token begins with such a letter. *)
Theorem check_progression_valid_iff (progression : list string) :
  (Evaluation.valid (Evaluation.check_progression progression) = true
   ↔ Evaluation.issues (Evaluation.check_progression progression) = [])
  ∧ (Evaluation.valid (Evaluation.check_progression progression) = true
     ↔ ¬ all_identical progression
       ∧ ¬ three_in_a_row progression
       ∧ Forall (λ c, starts_with_note c = true) progression)
  ∧ (length progression = 1%nat →
     Evaluation.valid (Evaluation.check_progression progression) = false).
Proof.
  assert (Hnil : Evaluation.valid (Evaluation.check_progression progression) = true
                 ↔ Evaluation.issues (Evaluation.check_progression progression) = []).
  { apply valid_iff_no_issue. }
  assert (Hiff : Evaluation.valid (Evaluation.check_progression progression) = true
     ↔ ¬ all_identical progression
       ∧ ¬ three_in_a_row progression
       ∧ Forall (λ c, starts_with_note c = true) progression).
  { rewrite Hnil. unfold Evaluation.check_progression. cbn [Evaluation.issues].
    rewrite <- size_one_all_identical, <- consecutive_repeats_nil.
    rewrite !app_nil, !omap_nil_iff.
    split.
    - intros (H1 & H2 & H3 & H4). split.
      + intros Hsize. rewrite Hsize in H1. discriminate H1.
      + split; [done|]. eapply Forall_impl; [exact H4|].
        intros c. apply root_issue_None.
    - intros (H1 & H2 & H4). split.
      + destruct (Nat.eqb_spec (size (list_to_set progression : gset string)) 1); done.
      + split; [done|]. split; [by apply omap_nil_iff, no_special_token|].
        eapply Forall_impl; [exact H4|]. intros c. apply root_issue_None. }
  split; [done|]. split; [done|].
  intros Hlen. apply not_true_is_false. intros Hvalid.
  apply Hiff in Hvalid as [Hdiff _]. apply Hdiff.
  destruct progression as [|c [|? ?]]; try discriminate Hlen. by exists c, 0%nat.
Qed.

Section batch_analysis.

Local Abbreviation cnt x l := (len (filter (λ i : string, i = x) l)).

Lemma cnt_nonneg (x : string) (l : list string) : 0 ≤ cnt x l.
Proof. unfold len. lia. Qed.

Lemma cnt_cons (x y : string) (l : list string) :
  cnt x (y :: l) = (if decide (y = x) then 1 else 0) + cnt x l.
Proof.
  rewrite filter_cons. destruct (decide (y = x)); unfold len; cbn [length]; lia.
Qed.

Lemma cnt_app (x : string) (l1 l2 : list string) :
  cnt x (l1 ++ l2)%list = cnt x l1 + cnt x l2.
Proof. rewrite filter_app. unfold len. rewrite length_app. lia. Qed.

(** The counter after [counter[issue] += 1] for each issue of [l]. *)
Lemma count_issues_lookup (m : gmap string Z) (l : list string) (x : string) :
  Evaluation.count_issues m l !! x
  = if decide (cnt x l = 0) then m !! x else Some (default 0 (m !! x) + cnt x l).
Proof.
  revert m. induction l as [|y l IH]; intros m; [done|].
  change (Evaluation.count_issues m (y :: l))
    with (Evaluation.count_issues (<[y := default 0 (m !! y) + 1]> m) l).
  rewrite IH, cnt_cons. pose proof (cnt_nonneg x l).
  destruct (decide (y = x)) as [->|Hne].
  - rewrite lookup_insert_eq. cbn [default from_option]. unfold Datatypes.id.
    destruct (decide (cnt x l = 0)) as [->|?];
      (destruct (decide (1 + _ = 0)); [lia|f_equal; lia]).
  - rewrite lookup_insert_ne by done. rewrite Z.add_0_l.
    by destruct (decide (cnt x l = 0)).
Qed.

Lemma valid_invalid_length (ps : list (list string)) :
  (length (filter (λ p, Evaluation.valid (Evaluation.check_progression p) = true) ps)
   + length (filter (λ p, Evaluation.valid (Evaluation.check_progression p) ≠ true) ps)
   = length ps)%nat.
Proof.
  induction ps as [|p ps IH]; [done|]. rewrite !filter_cons.
  destruct (decide (Evaluation.valid (Evaluation.check_progression p) = true)) as [Hv|Hv];
    destruct (decide (Evaluation.valid (Evaluation.check_progression p) ≠ true));
    try done; cbn [length]; lia.
Qed.

Lemma reports_cons (x : string) (p : list string) (ps : list (list string)) :
  reports x (p :: ps)
  = cnt x (Evaluation.issues (Evaluation.check_progression p)) + reports x ps.
Proof. unfold reports. cbn [fmap list_fmap concat]. apply cnt_app. Qed.

Lemma analyze_loop_spec (ps : list (list string)) (n_valid n_invalid : Z)
    (m : gmap string Z) :
  ∃ m',
    Evaluation.analyze_loop ps (n_valid, n_invalid, m)
    = (n_valid + len (filter (λ p, Evaluation.valid (Evaluation.check_progression p) = true) ps),
       n_invalid + len (filter (λ p, Evaluation.valid (Evaluation.check_progression p) ≠ true) ps),
       m')
    ∧ ∀ x, m' !! x = if decide (reports x ps = 0) then m !! x
                     else Some (default 0 (m !! x) + reports x ps).
Proof.
  revert n_valid n_invalid m. induction ps as [|p ps IH]; intros n_valid n_invalid m.
  { exists m. split; [unfold len; cbn; f_equal; first [lia|f_equal; lia]|done]. }
  cbn [Evaluation.analyze_loop]. rewrite !filter_cons.
  destruct (Evaluation.valid (Evaluation.check_progression p)) eqn:Hvalid.
  - destruct (IH (n_valid + 1) n_invalid m) as (m' & -> & Hm').
    exists m'. destruct (decide (true = true)) as [_|?]; [|done].
    destruct (decide (true ≠ true)) as [?|_]; [done|].
    split; [unfold len; cbn [length]; f_equal; first [lia|f_equal; lia]|].
    intros x. rewrite reports_cons.
    apply valid_iff_no_issue in Hvalid. rewrite Hvalid.
    change (cnt x []) with 0. rewrite Z.add_0_l. apply Hm'.
  - destruct (IH n_valid (n_invalid + 1)
                (Evaluation.count_issues m
                   (Evaluation.issues (Evaluation.check_progression p))))
      as (m' & -> & Hm').
    exists m'. destruct (decide (false = true)) as [?|_]; [done|].
    destruct (decide (false ≠ true)) as [_|Hn]; [|by destruct Hn].
    split; [unfold len; cbn [length]; f_equal; first [lia|f_equal; lia]|].
    intros x. rewrite Hm', count_issues_lookup, reports_cons.
    pose proof (cnt_nonneg x (Evaluation.issues (Evaluation.check_progression p))).
    assert (0 ≤ reports x ps) by (unfold reports, len; lia).
    destruct (decide (reports x ps = 0)) as [Hr|Hr];
      destruct (decide (cnt x (Evaluation.issues (Evaluation.check_progression p)) = 0))
        as [Hc|Hc];
      destruct (decide (_ + reports x ps = 0)); try lia; try done;
      cbn [default from_option]; unfold Datatypes.id; f_equal; lia.
Qed.

End batch_analysis.

(** X22. [analyze_batch] fails on an empty batch (the percentage divides
    by the total). On any other batch, [total] is the number of
    progressions, [valid] the number of those that [check_progression]
    declares valid and [invalid] the number of the others, so that they
    add up to the total; the counter [issues_summary] holds, for every
    issue reported at least once over the batch, the number of times it is
    reported, and has no entry for any other string. *)
Theorem analyze_batch_counts (progressions : list (list string)) :
  Evaluation.analyze_batch [] = None
  ∧ (progressions ≠ [] →
     ∃ a,
       Evaluation.analyze_batch progressions = Some a
       ∧ Evaluation.total a = len progressions
       ∧ Evaluation.valid_count a
         = len (filter (λ p, Evaluation.valid (Evaluation.check_progression p) = true)
                       progressions)
       ∧ Evaluation.invalid_count a
         = len (filter (λ p, Evaluation.valid (Evaluation.check_progression p) ≠ true)
                       progressions)
       ∧ Evaluation.valid_count a + Evaluation.invalid_count a = Evaluation.total a
       ∧ ∀ issue,
           Evaluation.issues_summary a !! issue
           = if decide (reports issue progressions = 0) then None
             else Some (reports issue progressions)).
Proof.
  split; [reflexivity|]. intros Hne. unfold Evaluation.analyze_batch.
  destruct (analyze_loop_spec progressions 0 0 ∅) as (m' & -> & Hm').
  destruct (Z.eqb_spec (len progressions) 0) as [Hlen|_].
  { destruct progressions; [done|]. unfold len in Hlen. cbn in Hlen. lia. }
  eexists. split; [reflexivity|].
  cbn [Evaluation.total Evaluation.valid_count Evaluation.invalid_count
       Evaluation.issues_summary].
  split; [done|]. split; [lia|]. split; [lia|]. split.
  - rewrite !Z.add_0_l. unfold len.
    rewrite <- Nat2Z.inj_add. f_equal. apply valid_invalid_length.
  - intros issue. rewrite Hm', lookup_empty. cbn [default from_option].
    unfold Datatypes.id. by rewrite Z.add_0_l.
Qed.

(** * The sampling distribution and the generation loop *)


(** X24. With a positive temperature the distribution keeps the order of
    the scores: an id with a score at least as large as another has a
    probability at least as large, and ids with equal scores have equal
    probabilities. With a negative temperature the order is reversed. *)
Theorem temperature_probs_monotone (fmt : float_format) (logits : list R)
    (temperature : R) (i j : nat) (x y p q : R) :
  logits !! i = Some x → logits !! j = Some y →
  temperature_probs fmt logits temperature !! i = Some p →
  temperature_probs fmt logits temperature !! j = Some q →
  (x <= y)%R →
  ((0 < temperature)%R → (p <= q)%R)
  ∧ ((temperature < 0)%R → (q <= p)%R)
  ∧ (x = y → p = q).
Proof.
  intros Hx Hy (x' & Hx' & ->)%temperature_probs_lookup
         (y' & Hy' & ->)%temperature_probs_lookup Hle.
  assert (x' = x) as -> by congruence. assert (y' = y) as -> by congruence.
  set (m := vec_max _). set (s := vec_sum _).
  assert (Hs : (0 <= s)%R) by apply vec_sum_nonneg, exps_nonneg.
  assert (Hinv : (0 <= / s)%R).
  { destruct Hs as [Hs| <-]; [left; by apply Rinv_0_lt_compat|].
    rewrite Rinv_0. lra. }
  unfold Rdiv. split; [|split].
  - intros Ht. apply Rmult_le_compat_r; [done|]. apply np_exp_monotone.
    assert (0 < / temperature)%R by by apply Rinv_0_lt_compat. nra.
  - intros Ht. apply Rmult_le_compat_r; [done|]. apply np_exp_monotone.
    assert (/ temperature < 0)%R by by apply Rinv_lt_0_compat. nra.
  - by intros ->.
Qed.

(** X25. Inside the frame, generation fails or succeeds with the sampling
    step: when the model returns at least one position and the initial
    sequence together with [num_chords] fits the frame, then, for every
    sampler, [generate_progression] raises [ValueError] at the first draw
    if the temperature rounds to zero (0 in particular) and a chord is
    asked for; and if the sampling step fails on none of the score vectors
    of the model, it returns at most [num_chords] chords (none when
    [num_chords] is not positive), among which neither PAD nor END occurs
    when the inverse vocabulary names PAD only at id 0 and END only at
    id 2. *)
Theorem generate_progression_in_frame (self : generator) (choice : nat → list R → Z)
    (genre_name mood_name key_name scale_name : string) (num_chords : Z)
    (temperature : R) (seed_chords : option (list string)) :
  (∀ i, model self i ≠ []) →
  len (initial_sequence self seed_chords) + Z.max num_chords 0
    ≤ inference_max_sequence_length self + 1 →
  (∀ i, Generation.id_to_chord self !! i = Some "<PAD>" → i = 0) →
  (∀ i, Generation.id_to_chord self !! i = Some "<END>" → i = 2) →
  ((Rabs temperature <= tiny (dtype self))%R → 0 < num_chords →
   generate_progression self choice genre_name mood_name key_name scale_name
     num_chords temperature seed_chords = Raise ValueError)
  ∧ ((∀ i row, row ∈ model self i → samplable (dtype self) row temperature) →
     ∃ generated_chords,
       generate_progression self choice genre_name mood_name key_name scale_name
         num_chords temperature seed_chords = Ok generated_chords
       ∧ len generated_chords ≤ Z.max num_chords 0
       ∧ ("<PAD>" ∉ generated_chords)
       ∧ ("<END>" ∉ generated_chords)).
Proof.
  intros Hmodel Hfits Hpad Hend. split.
  - intros Hcold Hnum. unfold generate_progression.
    destruct (Z.to_nat num_chords) as [|n] eqn:Hn; [lia|].
    apply generate_loop_cold; [done| |lia|done].
    unfold initial_sequence. by destruct seed_chords as [[|c cs]|].
  - intros Hrows.
    destruct (generate_progression_returns self choice genre_name mood_name key_name
                scale_name num_chords temperature seed_chords Hmodel Hrows Hfits)
      as (ids & -> & Hlen & Hids).
    eexists. split; [reflexivity|].
    split; [unfold len in *; by rewrite length_fmap|].
    rewrite Forall_forall in Hids.
    split; intros (i & Heq & Hi)%list_elem_of_fmap; destruct (Hids i Hi) as [H0 H2];
      destruct (Generation.id_to_chord self !! i) as [c|] eqn:Hc; cbn in Heq;
      try discriminate Heq; subst c.
    + by apply H0, Hpad.
    + by apply H2, Hend.
Qed.


Lemma temperature_probs_monotone_witness :
  (1 <= 2)%R
  ∧ ∃ p q,
      temperature_probs binary64 [1; 2]%R 1 !! 0%nat = Some p
      ∧ temperature_probs binary64 [1; 2]%R 1 !! 1%nat = Some q
      ∧ (p <= q)%R.
Proof.
  assert (Hle : (1 <= 2)%R) by lra.
  split; [exact Hle|].
  eexists _, _. split; [reflexivity|]. split; [reflexivity|].
  refine (proj1 (temperature_probs_monotone binary64 [1; 2]%R 1 0 1 1 2 _ _
                   eq_refl eq_refl eq_refl eq_refl Hle) _).
  lra.
Defined.

Lemma mock_stop_tokens (k : nat) :
  (∀ i, Generation.id_to_chord (mock_generator k) !! i = Some "<PAD>" → i = 0)
  ∧ (∀ i, Generation.id_to_chord (mock_generator k) !! i = Some "<END>" → i = 2).
Proof.
  pose proof (built_id_to_chord (init 12) sample_corpus) as Hinv. cbn zeta in Hinv.
  assert (Hpad : Preprocessing.chord_to_id (build_vocabularies (init 12) sample_corpus)
                   !! "<PAD>" = Some 0) by (vm_compute; reflexivity).
  assert (Hend : Preprocessing.chord_to_id (build_vocabularies (init 12) sample_corpus)
                   !! "<END>" = Some 2) by (vm_compute; reflexivity).
  split; intros i Hi; apply Hinv in Hi; congruence.
Qed.

Lemma generate_progression_in_frame_witness :
  (len (initial_sequence (mock_generator 5) None) + Z.max 4 0
     ≤ inference_max_sequence_length (mock_generator 5) + 1)
  ∧ generate_progression (mock_generator 5) (always 5) "pop" "happy" "C" "major"
      4 0 None = Raise ValueError
  ∧ ∃ generated_chords,
      generate_progression (mock_generator 5) (always 5) "pop" "happy" "C" "major"
        4 1 None = Ok generated_chords
      ∧ ("<PAD>" ∉ generated_chords).
Proof.
  assert (Hfits : len (initial_sequence (mock_generator 5) None) + Z.max 4 0
                  ≤ inference_max_sequence_length (mock_generator 5) + 1).
  { rewrite mock_start, mock_max_len. done. }
  split; [exact Hfits|]. split.
  - apply (proj1 (generate_progression_in_frame (mock_generator 5) (always 5)
                    "pop" "happy" "C" "major" 4 0 None
                    (mock_model_nonempty 8 5) Hfits
                    (proj1 (mock_stop_tokens 5)) (proj2 (mock_stop_tokens 5))));
      [|done].
    rewrite Rabs_R0, mock_dtype. cbn [tiny binary32].
    left. apply Rinv_0_lt_compat, pow_lt. lra.
  - destruct (proj2 (generate_progression_in_frame (mock_generator 5) (always 5)
                       "pop" "happy" "C" "major" 4 1 None
                       (mock_model_nonempty 8 5) Hfits
                       (proj1 (mock_stop_tokens 5)) (proj2 (mock_stop_tokens 5))))
      as (generated_chords & Hrun & _ & Hpad & _).
    { intros i row Hrow. rewrite (mock_model_rows 8 5 i row Hrow).
      apply mock_samplable. }
    exists generated_chords. split; [exact Hrun|exact Hpad].
Defined.

(** * More on the vocabulary codec and on single-chord variations *)

(** X26. In a vocabulary built from any corpus, [encode_progression]
    returns one id per chord, each a valid index of the vocabulary
    ([0 <= id < vocab_size]). When no corpus chord is literally a
    special-token string, [vocab_size] is 4 plus the number of distinct
    corpus chords and the ids are dense: every id below [vocab_size] names
    a chord or token in the inverse table, which encodes back to that
    id. *)
Theorem encode_progression_range (self0 : preprocessor) (corpus : list prog)
    (p : list string) :
  let self := build_vocabularies self0 corpus in
  (∃ ids,
     encode_progression self p = Ok ids
     ∧ length ids = length p
     ∧ Forall (λ i, 0 ≤ i < vocab_size self) ids)
  ∧ ((∀ c, c ∈ all_chords corpus → c ∉ SPECIAL_TOKENS) →
     vocab_size self = 4 + Z.of_nat (size (all_chords corpus))
     ∧ ∀ i, 0 ≤ i < vocab_size self →
         ∃ c, Preprocessing.id_to_chord self !! i = Some c
              ∧ Preprocessing.chord_to_id self !! c = Some i).
Proof.
  intros self. split.
  - destruct (built_special_tokens self0 corpus UNK_TOKEN) as [unk Hunk]; [compute_done|].
    fold self in Hunk.
    exists ((λ c, default unk (Preprocessing.chord_to_id self !! c)) <$> p).
    split; [by apply encode_progression_known|]. split; [apply length_fmap|].
    apply Forall_fmap, Forall_forall. intros c _. unfold compose. cbn beta.
    destruct (Preprocessing.chord_to_id self !! c) as [i|] eqn:Hc;
      cbn [default from_option]; unfold Datatypes.id.
    + by apply (built_id_range self0 corpus c).
    + by apply (built_id_range self0 corpus UNK_TOKEN).
  - intros Hfresh. pose proof (chord_list_NoDup _ Hfresh) as Hnodup.
    assert (Hsize : vocab_size self = 4 + Z.of_nat (size (all_chords corpus))).
    { unfold self, build_vocabularies. cbn [vocab_size]. unfold len, chord_list.
      rewrite length_app, (Permutation_length (sorted_Permutation _)).
      change (length SPECIAL_TOKENS) with 4%nat.
      change (length (elements (all_chords corpus))) with (size (all_chords corpus)).
      lia. }
    split; [done|]. intros i Hi.
    destruct (lookup_lt_is_Some_2 (chord_list corpus) (Z.to_nat i)) as [c Hc].
    { unfold self, build_vocabularies in Hi. cbn [vocab_size] in Hi.
      unfold len in Hi. lia. }
    assert (Hid : Preprocessing.chord_to_id self !! c = Some i).
    { unfold self, build_vocabularies. cbn [Preprocessing.chord_to_id].
      apply index_dict_lookup_iff; [done|]. split; [lia|done]. }
    exists c. split; [|done].
    pose proof (built_id_to_chord self0 corpus i c) as Hinv. cbn zeta in Hinv.
    by apply Hinv.
Qed.

(** X27. In a built vocabulary, padding is idempotent for a target length
    [L >= 0]: padding the result again changes nothing. A negative target
    length is not refused: the last [-L] ids are dropped and nothing is
    padded. *)
Theorem pad_sequence_idempotent (self0 : preprocessor) (corpus : list prog)
    (sequence : list Z) (max_length : option Z) :
  let self := build_vocabularies self0 corpus in
  let L := default (max_sequence_length self) max_length in
  (0 ≤ L →
   ∃ padded,
     pad_sequence self sequence max_length = Ok padded
     ∧ pad_sequence self padded max_length = Ok padded)
  ∧ (L < 0 →
     pad_sequence self sequence max_length
     = Ok (take (Z.to_nat (len sequence + L)) sequence)).
Proof.
  intros self L.
  destruct (built_special_tokens self0 corpus PAD_TOKEN) as [pad_id Hpad]; [compute_done|].
  fold self in Hpad.
  assert (Hfit : ∀ s, len s = L → pad_sequence self s max_length = Ok s).
  { intros s Hs. unfold pad_sequence. fold L. rewrite Hpad.
    cbn [of_option mbind result_bind bind]. rewrite Hs, Z.ltb_irrefl. done. }
  split.
  - intros HL. unfold pad_sequence at 1. fold L. rewrite Hpad.
    cbn [of_option mbind result_bind bind]. unfold len in *.
    destruct (Z.ltb_spec L (Z.of_nat (length sequence))) as [Hlong|Hle].
    + eexists. split; [reflexivity|]. apply Hfit.
      rewrite slice_to_nonneg by done. unfold len. rewrite length_take. lia.
    + destruct (Z.ltb_spec (Z.of_nat (length sequence)) L) as [Hshort|Hge].
      * eexists. split; [reflexivity|]. apply Hfit.
        unfold len. rewrite length_app, length_replicate. lia.
      * eexists. split; [reflexivity|]. apply Hfit. unfold len. lia.
  - intros HL. unfold pad_sequence. fold L. rewrite Hpad.
    cbn [of_option mbind result_bind bind]. unfold len.
    destruct (Z.ltb_spec L (Z.of_nat (length sequence))) as [_|?]; [|lia].
    unfold slice_to. destruct (Z.leb_spec 0 L) as [?|_]; [lia|]. done.
Qed.

(** X28. A negative number of variations is refused only for a chord whose
    quality is tabulated: [get_chord_variations] then raises [ValueError]
    (from [random.sample]), while for a chord without tabulated quality,
    or an empty chord, it still returns the chord alone; the generator
    state is not consumed in either case. *)
Theorem get_chord_variations_negative_count `{PyRandom rng}
    (chord : string) (k : Z) (st : rng) :
  k < 0 →
  get_chord_variations chord k st
  = (if tabulated chord then Raise ValueError else Ok [chord], st).
Proof.
  intros Hk. unfold get_chord_variations, tabulated.
  destruct (Variations.parse_chord chord) as [[root quality]|]; [|done].
  destruct (dict_get quality CHORD_VARIATIONS) as [candidates|] eqn:Hget.
  - rewrite bool_decide_true by done. unfold sample.
    destruct (Z.ltb_spec (Z.min k (len candidates)) 0) as [_|?]; [done|lia].
  - rewrite bool_decide_false; [done|]. by intros [? ?].
Qed.

Lemma pad_sequence_idempotent_witness :
  ∃ padded,
    pad_sequence (build_vocabularies (init 12) sample_corpus) [4; 5; 6] (Some 5)
    = Ok padded
    ∧ pad_sequence (build_vocabularies (init 12) sample_corpus) padded (Some 5)
      = Ok padded.
Proof.
  apply (proj1 (pad_sequence_idempotent (init 12) sample_corpus [4; 5; 6] (Some 5))).
  done.
Defined.

Lemma get_chord_variations_negative_count_witness :
  -1 < 0
  ∧ @get_chord_variations unit trivial_random "Am" (-1) tt = (Raise ValueError, tt)
  ∧ @get_chord_variations unit trivial_random "Asus4" (-1) tt = (Ok ["Asus4"], tt).
Proof.
  split; [done|]. split.
  - exact (@get_chord_variations_negative_count unit trivial_random "Am" (-1) tt eq_refl).
  - exact (@get_chord_variations_negative_count unit trivial_random "Asus4" (-1) tt eq_refl).
Defined.
